(** * opm-simulators: Carter-Tracy aquifer, well-group control tree and
    multi-segment well convergence, embedded in Rocq.

    Conventions of the embedding.

    - [Scalar] (C++ [double]) is modelled by the exact rationals [Q] in the
      aquifer and well-group engines: rounding, overflow, NaN and the
      infinities are outside that model, and equalities between computed
      quantities are stated with [==] ([Qeq]).  The convergence report of
      the multi-segment well tests for NaN and infinity explicitly, so that
      part works on [double], the rationals extended with NaN and the two
      infinities and compared the IEEE way; a result beyond the largest
      double is an infinity there.
    - A C++ exception or a failed [assert] ends the call: functions that can
      throw return an [outcome], and the partially updated state of a call
      that throws is not observed.
    - Where the group engine divides by a guide rate that is zero without
      testing it, the quotient is NaN or an infinity in the source.  The
      branches taken on such a target are followed; where it would be
      stored in a control, which holds a rational here, the run ends in
      [not_finite].
    - [std::vector::at] checks its index ([out_of_range]).  Reading [v[i]]
      outside a vector of rates is undefined in C++ and reads [0] here;
      writing outside a vector, or going through a pointer that points at
      nothing, is an [invalid_access]. *)

From Stdlib Require Import QArith Qabs Lqa Lia ZArith List String Bool.
From stdpp Require Import base list.
Import ListNotations.

Open Scope Q_scope.

(** ** Exceptions and outcomes *)

(** What ends a call: an exception of the source, by its type; a failed
    [assert]; an access the source does not check; and a value that is
    NaN or an infinity where this model holds a rational. *)
Inductive exn : Type :=
| out_of_range
| assertion_failed (what : string)
| runtime_error (what : string)
| invalid_argument (what : string)
| invalid_access
| not_finite.

Inductive outcome (A : Type) : Type :=
| Ret (a : A)
| Raise (e : exn).

Arguments Ret {A} a.
Arguments Raise {A} e.

#[global] Instance outcome_ret : MRet outcome := fun _ a => Ret a.
#[global] Instance outcome_bind : MBind outcome := fun _ _ f c =>
  match c with
  | Ret a => f a
  | Raise e => Raise e
  end.

(** [v.at(i)] *)
Definition at_ {A : Type} (v : list A) (i : nat) : outcome A :=
  match v !! i with
  | Some x => Ret x
  | None => Raise out_of_range
  end.

(** [v.at(i) = x] *)
Definition at_put {A : Type} (v : list A) (i : nat) (x : A) : outcome (list A) :=
  if decide (i < length v)%nat then Ret (<[i := x]> v) else Raise out_of_range.

(** [a[i]] on an array reached through a pointer, and [p->f] on a
    pointer: outside the array, or on the null pointer, the access is
    invalid. *)
Definition iget {A : Type} (a : list A) (i : Z) : outcome A :=
  if (i <? 0)%Z then Raise invalid_access
  else match a !! Z.to_nat i with
       | Some x => Ret x
       | None => Raise invalid_access
       end.

Definition iset {A : Type} (a : list A) (i : Z) (x : A) : outcome (list A) :=
  if (i <? 0)%Z then Raise invalid_access
  else if decide (Z.to_nat i < length a)%nat then Ret (<[Z.to_nat i := x]> a)
       else Raise invalid_access.

(** [v.resize(n, x)] *)
Definition resize {A : Type} (n : nat) (x : A) (v : list A) : list A :=
  take n v ++ replicate (n - length v) x.

(** [assert(c)] *)
Definition assert_ (c : bool) (what : string) : outcome unit :=
  if c then Ret tt else Raise (assertion_failed what).

Definition Qltb (a b : Q) : bool := negb (Qle_bool b a).

Definition Qsum (l : list Q) : Q := fold_right Qplus 0 l.

(** ** DenseAd::Evaluation: a value with its partial derivatives *)

Module DenseAd.

Record Eval : Type := mkEval { value : Q; derivative : nat -> Q }.

(** [Eval e = c] *)
Definition constant (c : Q) : Eval := mkEval c (fun _ => 0).
(** [e1 + e2] *)
Definition add (e1 e2 : Eval) : Eval :=
  mkEval (value e1 + value e2) (fun k => derivative e1 k + derivative e2 k).
(** [e - c] *)
Definition sub_scalar (e : Eval) (c : Q) : Eval :=
  mkEval (value e - c) (derivative e).
(** [c - e] *)
Definition scalar_sub (c : Q) (e : Eval) : Eval :=
  mkEval (c - value e) (fun k => - derivative e k).
(** [c * e] *)
Definition scalar_mul (c : Q) (e : Eval) : Eval :=
  mkEval (c * value e) (fun k => c * derivative e k).
(** [e * c] *)
Definition mul_scalar (e : Eval) (c : Q) : Eval :=
  mkEval (value e * c) (fun k => derivative e k * c).

End DenseAd.

Import DenseAd.

(** ** AquiferCarterTracy *)

Module AquiferCarterTracy.

Module FaceDir.
Inductive DirEnum : Type := XPlus | XMinus | YPlus | YMinus | ZPlus | ZMinus.
#[global] Instance DirEnum_eq_dec : EqDecision DirEnum.
Proof. solve_decision. Defined.
End FaceDir.
Import FaceDir.

(** Modelled from the spec: [SimulatorTimerInterface] is declared in
    [opm/core/simulator/SimulatorTimerInterface.hpp], which is not among
    the sources.  The aquifer reads the step length [Δt] and the simulated
    elapsed time [t]. *)
Record SimulatorTimerInterface : Type := {
  currentStepLength : Q;
  simulationTimeElapsed : Q
}.

(** [Aquancon::AquanconOutput] *)
Record AquanconOutput : Type := {
  global_index : list nat;
  influx_coeff : list Q;
  influx_multiplier : list Q;
  reservoir_face_dir : list DirEnum
}.

(** Modelled from the spec: the grid helpers ([UgGridHelpers],
    [AutoDiffGrid]) are not among the sources.  A grid gives, for a cell,
    its faces, each with a face tag that is 0..5 for the six directions,
    the area of a face, and the centre of a cell. *)
Record Grid : Type := {
  cell2Faces : nat -> list (nat * Z);
  faceArea : nat -> Q;
  getCellCenter : nat -> Q * Q * Q
}.

Record t : Type := mk {
  aquiferID_ : Z; inftableID_ : Z; pvttableID_ : Z;
  num_components_ : Z;
  cell_idx_ : list nat;
  faceArea_connected_ : list Q;
  cell_depth_ : list Q;
  pressure_previous_ : list Eval;
  pressure_current_ : list Eval;
  Qai_ : list Eval;
  rhow_ : list Eval;
  alphai_ : list Q;
  mu_w_ : Q; phi_aq_ : Q; d0_ : Q; C_t_ : Q; r_o_ : Q; k_a_ : Q;
  c1_ : Q; h_ : Q; theta_ : Q; c2_ : Q;
  aqutab_td_ : list Q; aqutab_pi_ : list Q;
  dt_ : Q; pa0_ : Q; gravity_ : Q;
  p0_defaulted_ : bool;
  W_flux_ : Eval;
  coeff_ : list Q
}.

Definition set_Qai_ (v : list Eval) (s : t) : t :=
  mk (aquiferID_ s) (inftableID_ s) (pvttableID_ s) (num_components_ s)
     (cell_idx_ s) (faceArea_connected_ s) (cell_depth_ s)
     (pressure_previous_ s) (pressure_current_ s) v (rhow_ s) (alphai_ s)
     (mu_w_ s) (phi_aq_ s) (d0_ s) (C_t_ s) (r_o_ s) (k_a_ s)
     (c1_ s) (h_ s) (theta_ s) (c2_ s) (aqutab_td_ s) (aqutab_pi_ s)
     (dt_ s) (pa0_ s) (gravity_ s) (p0_defaulted_ s) (W_flux_ s) (coeff_ s).

Definition set_W_flux_ (w : Eval) (s : t) : t :=
  mk (aquiferID_ s) (inftableID_ s) (pvttableID_ s) (num_components_ s)
     (cell_idx_ s) (faceArea_connected_ s) (cell_depth_ s)
     (pressure_previous_ s) (pressure_current_ s) (Qai_ s) (rhow_ s) (alphai_ s)
     (mu_w_ s) (phi_aq_ s) (d0_ s) (C_t_ s) (r_o_ s) (k_a_ s)
     (c1_ s) (h_ s) (theta_ s) (c2_ s) (aqutab_td_ s) (aqutab_pi_ s)
     (dt_ s) (pa0_ s) (gravity_ s) (p0_defaulted_ s) w (coeff_ s).

Definition set_connections (cells : list nat) (areas depths alphas : list Q) (s : t) : t :=
  mk (aquiferID_ s) (inftableID_ s) (pvttableID_ s) (num_components_ s)
     cells areas depths
     (pressure_previous_ s) (pressure_current_ s) (Qai_ s) (rhow_ s) alphas
     (mu_w_ s) (phi_aq_ s) (d0_ s) (C_t_ s) (r_o_ s) (k_a_ s)
     (c1_ s) (h_ s) (theta_ s) (c2_ s) (aqutab_td_ s) (aqutab_pi_ s)
     (dt_ s) (pa0_ s) (gravity_ s) (p0_defaulted_ s) (W_flux_ s) (coeff_ s).

(** *** after_time_step *)

Definition after_time_step (timer : SimulatorTimerInterface) (s : t) : t :=
  set_W_flux_
    (fold_left (fun W Qai => add W (mul_scalar Qai (currentStepLength timer)))
               (Qai_ s) (W_flux_ s))
    s.

Definition area_fraction (s : t) (i : nat) : outcome Q := at_ (alphai_ s) i.

(** *** The influx constants and the inflow rate *)

Definition time_constant (s : t) : Q :=
  mu_w_ s * phi_aq_ s * C_t_ s * r_o_ s * r_o_ s / (k_a_ s * c1_ s).

Definition aquifer_influx_constant (s : t) : Q :=
  c2_ s * h_ s * theta_ s * phi_aq_ s * C_t_ s * r_o_ s * r_o_ s.

Definition dpai (s : t) (idx : nat) : outcome Q :=
  rho ← at_ (rhow_ s) idx;
  depth ← at_ (cell_depth_ s) idx;
  pprev ← at_ (pressure_previous_ s) idx;
  mret (pa0_ s + value rho * gravity_ s * (depth - d0_ s) - value pprev).

Definition calculate_a_b_constants (s : t) (idx : nat)
    (timer : SimulatorTimerInterface) : outcome (Q * Q) :=
  let beta := aquifer_influx_constant s in
  let Tc := time_constant s in
  let td_plus_dt := (currentStepLength timer + simulationTimeElapsed timer) / Tc in
  let td := simulationTimeElapsed timer / Tc in
  PItdprime ← at_ (coeff_ s) 1;
  c0 ← at_ (coeff_ s) 0;
  c1 ← at_ (coeff_ s) 1;
  let PItd := c0 + c1 * td_plus_dt in
  dp ← dpai s idx;
  let a := 1 / Tc * ((beta * dp) - (value (W_flux_ s) * PItdprime))
           / (PItd - td * PItdprime) in
  let b := beta / (Tc * (PItd - td * PItdprime)) in
  mret (a, b).

Definition calculate_inflow_rate (idx : nat) (timer : SimulatorTimerInterface)
    (s : t) : outcome t :=
  ab ← calculate_a_b_constants s idx timer;
  let '(a, b) := ab in
  alpha ← area_fraction s idx;
  pcur ← at_ (pressure_current_ s) idx;
  pprev ← at_ (pressure_previous_ s) idx;
  Qai' ← at_put (Qai_ s) idx
           (scalar_mul alpha
              (scalar_sub a (scalar_mul b (sub_scalar pcur (value pprev)))));
  mret (set_Qai_ Qai' s).

(** *** initialize_connections *)

(** The translation of the face tag; a tag outside 0..5 leaves
    [faceDirection] as the previous face left it.  The variable is
    declared without an initial value: [None] is that state, and it
    matches no direction. *)
Definition faceTag_direction (faceTag : Z) (faceDirection : option DirEnum)
    : option DirEnum :=
  if (faceTag =? 0)%Z then Some XMinus
  else if (faceTag =? 1)%Z then Some XPlus
  else if (faceTag =? 2)%Z then Some YMinus
  else if (faceTag =? 3)%Z then Some YPlus
  else if (faceTag =? 4)%Z then Some ZMinus
  else if (faceTag =? 5)%Z then Some ZPlus
  else faceDirection.

(** The state of the two nested loops: [faceDirection],
    [faceArea_connected_], [denom_face_areas] and [cell_depth_]. *)
Record conn_loop : Type := mkLoop {
  faceDirection : option DirEnum;
  areas : list Q;
  denom_face_areas : Q;
  depths : list Q
}.

(** The loop over the faces of the cell of connection [idx]. *)
Fixpoint faces_loop (grid : Grid) (connection : AquanconOutput) (idx : nat)
    (cellFaces : list (nat * Z)) (st : conn_loop) : outcome conn_loop :=
  match cellFaces with
  | [] => Ret st
  | (faceIdx, faceTag) :: rest =>
      let fd := faceTag_direction faceTag (faceDirection st) in
      dir ← at_ (reservoir_face_dir connection) idx;
      if decide (fd = Some dir) then
        areas' ← at_put (areas st) idx (faceArea grid faceIdx);
        a ← at_ areas' idx;
        faces_loop grid connection idx rest
          (mkLoop fd areas' (denom_face_areas st + a) (depths st))
      else
        faces_loop grid connection idx rest
          (mkLoop fd (areas st) (denom_face_areas st) (depths st))
  end.

(** The loop over the connections, [idx] running through [idxs]. *)
Fixpoint cells_loop (grid : Grid) (connection : AquanconOutput)
    (cells : list nat) (idxs : list nat) (st : conn_loop) : outcome conn_loop :=
  match idxs with
  | [] => Ret st
  | idx :: rest =>
      cell ← at_ cells idx;
      st1 ← faces_loop grid connection idx (cell2Faces grid cell) st;
      cell' ← at_ cells idx;
      depths' ← at_put (depths st1) idx (getCellCenter grid cell').2;
      cells_loop grid connection cells rest
        (mkLoop (faceDirection st1) (areas st1) (denom_face_areas st1) depths')
  end.

(** The closing loop, [alphai_.at(idx) = faceArea_connected_.at(idx)/denom_face_areas]. *)
Fixpoint alpha_loop (areas : list Q) (denom : Q) (idxs : list nat)
    (alphai : list Q) : outcome (list Q) :=
  match idxs with
  | [] => Ret alphai
  | idx :: rest =>
      a ← at_ areas idx;
      alphai' ← at_put alphai idx (a / denom);
      alpha_loop areas denom rest alphai'
  end.

Definition initialize_connections (grid : Grid) (connection : AquanconOutput)
    (s : t) : outcome t :=
  let cells := global_index connection in
  let n := length cells in
  _ ← assert_ (Nat.eqb n (length (influx_coeff connection)))
        "cell_idx_.size() == connection.influx_coeff.size()";
  _ ← assert_ (Nat.eqb (length (influx_coeff connection))
                       (length (influx_multiplier connection)))
        "connection.influx_coeff.size() == connection.influx_multiplier.size()";
  _ ← assert_ (Nat.eqb (length (influx_multiplier connection))
                       (length (reservoir_face_dir connection)))
        "connection.influx_multiplier.size() == connection.reservoir_face_dir.size()";
  let depths0 := resize n (d0_ s) (cell_depth_ s) in
  let alphai0 := resize n 1 (alphai_ s) in
  let areas0 := resize n 0 (faceArea_connected_ s) in
  st ← cells_loop grid connection cells (seq 0 n) (mkLoop None areas0 0 depths0);
  alphai ← alpha_loop (areas st) (denom_face_areas st) (seq 0 n) alphai0;
  mret (set_connections cells (areas st) (depths st) alphai s).

(** *** polynomial_fit *)

(** The matrix of the fit and Eigen's solver.  [Eigen::MatrixXd] is a
    list of rows; [householderQr().solve] belongs to Eigen and is a
    parameter of the fit. *)
Definition Matrix : Type := list (list Q).

Definition fit_matrix (X : list Q) (colNum : nat) (bias : bool) : Matrix :=
  map (fun xi =>
         map (fun j => if bias then Qpower xi (Z.of_nat j)
                       else Qpower xi (Z.of_nat (j + 1)))
             (seq 0 colNum))
      X.

(** [order] is an [int] in the source; every call passes a nonnegative
    one, and it is a natural number here. *)
Definition polynomial_fit (householderQr_solve : Matrix -> list Q -> list Q)
    (X y : list Q) (order : nat) (bias : bool) : outcome (list Q) :=
  let colNum := if bias then (order + 1)%nat else order in
  _ ← assert_ (Nat.eqb (length X) (length y)) "X.size() == y.size()";
  _ ← assert_ (Nat.leb colNum (length X)) "X.size() >= colNum";
  let A := fit_matrix X colNum bias in
  let result := householderQr_solve A y in
  mret (map (fun i => nth i result 0) (seq 0 colNum)).

(** *** The simulator as the aquifer reads it *)

Definition set_pressure_previous_ (v : list Eval) (s : t) : t :=
  mk (aquiferID_ s) (inftableID_ s) (pvttableID_ s) (num_components_ s)
     (cell_idx_ s) (faceArea_connected_ s) (cell_depth_ s)
     v (pressure_current_ s) (Qai_ s) (rhow_ s) (alphai_ s)
     (mu_w_ s) (phi_aq_ s) (d0_ s) (C_t_ s) (r_o_ s) (k_a_ s)
     (c1_ s) (h_ s) (theta_ s) (c2_ s) (aqutab_td_ s) (aqutab_pi_ s)
     (dt_ s) (pa0_ s) (gravity_ s) (p0_defaulted_ s) (W_flux_ s) (coeff_ s).

Definition set_pressure_current_ (v : list Eval) (s : t) : t :=
  mk (aquiferID_ s) (inftableID_ s) (pvttableID_ s) (num_components_ s)
     (cell_idx_ s) (faceArea_connected_ s) (cell_depth_ s)
     (pressure_previous_ s) v (Qai_ s) (rhow_ s) (alphai_ s)
     (mu_w_ s) (phi_aq_ s) (d0_ s) (C_t_ s) (r_o_ s) (k_a_ s)
     (c1_ s) (h_ s) (theta_ s) (c2_ s) (aqutab_td_ s) (aqutab_pi_ s)
     (dt_ s) (pa0_ s) (gravity_ s) (p0_defaulted_ s) (W_flux_ s) (coeff_ s).

Definition set_rhow_ (v : list Eval) (s : t) : t :=
  mk (aquiferID_ s) (inftableID_ s) (pvttableID_ s) (num_components_ s)
     (cell_idx_ s) (faceArea_connected_ s) (cell_depth_ s)
     (pressure_previous_ s) (pressure_current_ s) (Qai_ s) v (alphai_ s)
     (mu_w_ s) (phi_aq_ s) (d0_ s) (C_t_ s) (r_o_ s) (k_a_ s)
     (c1_ s) (h_ s) (theta_ s) (c2_ s) (aqutab_td_ s) (aqutab_pi_ s)
     (dt_ s) (pa0_ s) (gravity_ s) (p0_defaulted_ s) (W_flux_ s) (coeff_ s).

Definition set_mu_w_ (v : Q) (s : t) : t :=
  mk (aquiferID_ s) (inftableID_ s) (pvttableID_ s) (num_components_ s)
     (cell_idx_ s) (faceArea_connected_ s) (cell_depth_ s)
     (pressure_previous_ s) (pressure_current_ s) (Qai_ s) (rhow_ s) (alphai_ s)
     v (phi_aq_ s) (d0_ s) (C_t_ s) (r_o_ s) (k_a_ s)
     (c1_ s) (h_ s) (theta_ s) (c2_ s) (aqutab_td_ s) (aqutab_pi_ s)
     (dt_ s) (pa0_ s) (gravity_ s) (p0_defaulted_ s) (W_flux_ s) (coeff_ s).

Definition set_dt_ (v : Q) (s : t) : t :=
  mk (aquiferID_ s) (inftableID_ s) (pvttableID_ s) (num_components_ s)
     (cell_idx_ s) (faceArea_connected_ s) (cell_depth_ s)
     (pressure_previous_ s) (pressure_current_ s) (Qai_ s) (rhow_ s) (alphai_ s)
     (mu_w_ s) (phi_aq_ s) (d0_ s) (C_t_ s) (r_o_ s) (k_a_ s)
     (c1_ s) (h_ s) (theta_ s) (c2_ s) (aqutab_td_ s) (aqutab_pi_ s)
     v (pa0_ s) (gravity_ s) (p0_defaulted_ s) (W_flux_ s) (coeff_ s).

Definition set_pa0_ (v : Q) (s : t) : t :=
  mk (aquiferID_ s) (inftableID_ s) (pvttableID_ s) (num_components_ s)
     (cell_idx_ s) (faceArea_connected_ s) (cell_depth_ s)
     (pressure_previous_ s) (pressure_current_ s) (Qai_ s) (rhow_ s) (alphai_ s)
     (mu_w_ s) (phi_aq_ s) (d0_ s) (C_t_ s) (r_o_ s) (k_a_ s)
     (c1_ s) (h_ s) (theta_ s) (c2_ s) (aqutab_td_ s) (aqutab_pi_ s)
     (dt_ s) v (gravity_ s) (p0_defaulted_ s) (W_flux_ s) (coeff_ s).

Definition set_coeff_ (v : list Q) (s : t) : t :=
  mk (aquiferID_ s) (inftableID_ s) (pvttableID_ s) (num_components_ s)
     (cell_idx_ s) (faceArea_connected_ s) (cell_depth_ s)
     (pressure_previous_ s) (pressure_current_ s) (Qai_ s) (rhow_ s) (alphai_ s)
     (mu_w_ s) (phi_aq_ s) (d0_ s) (C_t_ s) (r_o_ s) (k_a_ s)
     (c1_ s) (h_ s) (theta_ s) (c2_ s) (aqutab_td_ s) (aqutab_pi_ s)
     (dt_ s) (pa0_ s) (gravity_ s) (p0_defaulted_ s) (W_flux_ s) v.

(** Modelled from the spec: the fluid state of a cell
    ([BlackOilFluidState] of opm-material, not among the sources).  For
    a phase index it gives the pressure, the density and the temperature,
    each with its derivatives. *)
Record FluidState : Type := {
  pressure : nat -> Eval;
  density : nat -> Eval;
  temperature : nat -> Eval
}.

(** Modelled from the spec: the simulator, as far as the aquifer reads
    it.  [cachedIntensiveQuantities(cell, 0)->fluidState()] is the fluid
    state of a cell (the cache is taken to hold every cell), the vanguard
    gives the grid, and [FluidSystem::waterPvt().viscosity] is the water
    viscosity for a table index, a temperature and a pressure. *)
Record Simulator : Type := {
  cachedIntensiveQuantities : nat -> FluidState;
  vanguard_grid : Grid;
  waterPvt_viscosity : Z -> Eval -> Eval -> Eval
}.

(** The linearizer of the simulator: [matrix()[row][col][eq][pv]] and
    [residual()[cell][eq]].  An index outside the system is undefined in
    the source; the system has an entry for every index here. *)
Record Linearizer : Type := mkLinearizer {
  ebosJac : nat -> nat -> nat -> nat -> Q;
  ebosResid : nat -> nat -> Q
}.

Section TypeTag.
(** The constants the type tag fixes at compile time. *)
Variables numEq waterPhaseIdx waterCompIdx : nat.

Definition get_current_Pressure_cell (pressure_water : list Eval) (idx : nat)
    (intQuants : FluidState) : outcome (list Eval) :=
  at_put pressure_water idx (pressure intQuants waterPhaseIdx).

Definition get_current_density_cell (rho_water : list Eval) (idx : nat)
    (intQuants : FluidState) : outcome (list Eval) :=
  at_put rho_water idx (density intQuants waterPhaseIdx).

(** *** before_time_step *)

(** The loop over [cell_idx_], at position [idx]. *)
Fixpoint previous_loop (ebosSimulator : Simulator) (cells : list nat) (idx : nat)
    (pressure_previous : list Eval) : outcome (list Eval) :=
  match cells with
  | [] => Ret pressure_previous
  | cellID :: rest =>
      let intQuants := cachedIntensiveQuantities ebosSimulator cellID in
      p ← get_current_Pressure_cell pressure_previous idx intQuants;
      previous_loop ebosSimulator rest (S idx) p
  end.

Definition before_time_step (ebosSimulator : Simulator)
    (timer : SimulatorTimerInterface) (s : t) : outcome t :=
  p ← previous_loop ebosSimulator (cell_idx_ s) 0 (pressure_previous_ s);
  mret (set_pressure_previous_ p s).

(** *** assembleAquiferEq *)

(** [ebosResid[cellID][waterCompIdx] -= qinflow.value()] *)
Definition sub_value (cellID : nat) (qinflow : Eval) (R : nat -> nat -> Q)
    : nat -> nat -> Q :=
  fun cell eq =>
    if Nat.eqb cell cellID && Nat.eqb eq waterCompIdx
    then R cell eq - value qinflow else R cell eq.

(** [ebosJac[cellID][cellID][waterCompIdx][pvIdx] -= qinflow.derivative(pvIdx)]
    for [pvIdx < numEq]. *)
Definition sub_derivatives (cellID : nat) (qinflow : Eval)
    (J : nat -> nat -> nat -> nat -> Q) : nat -> nat -> nat -> nat -> Q :=
  fold_left
    (fun J pvIdx =>
       fun row col eq pv =>
         if Nat.eqb row cellID && Nat.eqb col cellID
            && Nat.eqb eq waterCompIdx && Nat.eqb pv pvIdx
         then J row col eq pv - derivative qinflow pvIdx else J row col eq pv)
    (seq 0 numEq) J.

(** The loop over [cell_idx_], at position [idx]. *)
Fixpoint assemble_loop (ebosSimulator : Simulator)
    (timer : SimulatorTimerInterface) (cells : list nat) (idx : nat)
    (s : t) (lin : Linearizer) : outcome (t * Linearizer) :=
  match cells with
  | [] => Ret (s, lin)
  | cellID :: rest =>
      let intQuants := cachedIntensiveQuantities ebosSimulator cellID in
      pc ← get_current_Pressure_cell (pressure_current_ s) idx intQuants;
      let s1 := set_pressure_current_ pc s in
      rho ← get_current_density_cell (rhow_ s1) idx intQuants;
      let s2 := set_rhow_ rho s1 in
      s3 ← calculate_inflow_rate idx timer s2;
      qinflow ← at_ (Qai_ s3) idx;
      assemble_loop ebosSimulator timer rest (S idx) s3
        (mkLinearizer (sub_derivatives cellID qinflow (ebosJac lin))
                      (sub_value cellID qinflow (ebosResid lin)))
  end.

Definition assembleAquiferEq (ebosSimulator : Simulator)
    (timer : SimulatorTimerInterface) (s : t) (lin : Linearizer)
    : outcome (t * Linearizer) :=
  let s0 := set_dt_ (currentStepLength timer) s in
  assemble_loop ebosSimulator timer (cell_idx_ s0) 0 s0 lin.

(** *** The initial condition of the aquifer *)

(** The state of the loop of [calculate_reservoir_equilibrium]: the two
    local vectors and [rho_water_reservoir]. *)
Record equilibrium_loop : Type := mkEquilibrium {
  water_pressure_reservoir : list Q;
  pw_aquifer : list Q;
  rho_water_reservoir : list Eval
}.

Fixpoint equilibrium_cells (ebos_simulator_ : Simulator) (s : t)
    (idxs : list nat) (st : equilibrium_loop) : outcome equilibrium_loop :=
  match idxs with
  | [] => Ret st
  | idx :: rest =>
      cellIDx ← at_ (cell_idx_ s) idx;
      let fs := cachedIntensiveQuantities ebos_simulator_ cellIDx in
      let wp := water_pressure_reservoir st ++ [value (pressure fs waterPhaseIdx)] in
      rho ← at_put (rho_water_reservoir st) idx (density fs waterPhaseIdx);
      p ← at_ wp idx;
      r ← at_ rho idx;
      depth ← at_ (cell_depth_ s) idx;
      alpha ← area_fraction s idx;
      equilibrium_cells ebos_simulator_ s rest
        (mkEquilibrium wp
           (pw_aquifer st ++ [(p - value r * gravity_ s * (depth - d0_ s)) * alpha])
           rho)
  end.

(** The result is the average and, through the reference argument, the
    densities; the call is made on [rhow_]. *)
Definition calculate_reservoir_equilibrium (ebos_simulator_ : Simulator) (s : t)
    : outcome (Q * list Eval) :=
  st ← equilibrium_cells ebos_simulator_ s (seq 0 (length (cell_idx_ s)))
         (mkEquilibrium [] [] (rhow_ s));
  let aquifer_pres_avg :=
    fold_left Qplus (pw_aquifer st) 0
    / inject_Z (Z.of_nat (length (pw_aquifer st))) in
  mret (aquifer_pres_avg, rho_water_reservoir st).

(** What is written to [std::cout] is not modelled. *)
Definition calculate_aquifer_condition (ebos_simulator_ : Simulator) (s : t)
    : outcome t :=
  let pvttableIdx := (pvttableID_ s - 1)%Z in
  let s1 := set_rhow_ (resize (length (cell_idx_ s)) (constant 0) (rhow_ s)) s in
  s2 ← (if p0_defaulted_ s1 then
          r ← calculate_reservoir_equilibrium ebos_simulator_ s1;
          mret (set_pa0_ r.1 (set_rhow_ r.2 s1))
        else mret s1);
  cell0 ← at_ (cell_idx_ s2) 0;
  let fs_aquifer := cachedIntensiveQuantities ebos_simulator_ cell0 in
  let temperature_aq := temperature fs_aquifer 0 in
  let pa0_mean := constant (pa0_ s2) in
  let mu_w_aquifer :=
    waterPvt_viscosity ebos_simulator_ pvttableIdx temperature_aq pa0_mean in
  mret (set_mu_w_ (value mu_w_aquifer) s2).

Definition init_quantities (householderQr_solve : Matrix -> list Q -> list Q)
    (ebos_simulator_ : Simulator) (connection : AquanconOutput) (s : t)
    : outcome t :=
  let s0 := set_W_flux_ (constant 0) s in
  s1 ← initialize_connections (vanguard_grid ebos_simulator_) connection s0;
  s2 ← calculate_aquifer_condition ebos_simulator_ s1;
  let n := length (cell_idx_ s2) in
  let s3 := set_pressure_previous_ (resize n (constant 0) (pressure_previous_ s2)) s2 in
  let s4 := set_pressure_current_ (resize n (constant 0) (pressure_current_ s3)) s3 in
  let s5 := set_Qai_ (resize n (constant 0) (Qai_ s4)) s4 in
  coeff ← polynomial_fit householderQr_solve (aqutab_td_ s5) (aqutab_pi_ s5) 1 true;
  mret (set_coeff_ coeff s5).

End TypeTag.

End AquiferCarterTracy.

(** ** The wells structure and its controls (opm/core/wells.h, well_controls.h) *)

Module well_controls.

Inductive WellControlType : Type := BHP | THP | RESERVOIR_RATE | SURFACE_RATE.
Inductive WellType : Type := INJECTOR | PRODUCER.

#[global] Instance WellType_eq_dec : EqDecision WellType.
Proof. solve_decision. Defined.

(** Modelled from the spec: one control slot of a well, with its type,
    target, artificial-lift quantity, VFP table number and phase
    distribution, the arguments of [append_well_controls]. *)
Record control : Type := mkControl {
  type : WellControlType;
  target : Q;
  alq : Q;
  vfp : Z;
  distr : list Q
}.

(** Modelled from the spec: the C structure [WellControls] and its
    accessors are declared in [opm/core/well_controls.h], which is not
    among the sources.  A well has a list of control slots, the index of
    the current one, and is open or stopped ("disable the well", "open the
    well"); a slot is appended or overwritten in place, and one slot is
    selected as current. *)
Record WellControls : Type := mkWellControls {
  current : Z;
  open : bool;
  controls : list control
}.

(** Modelled from the spec: the number of control slots. *)
Definition well_controls_get_num (c : WellControls) : Z :=
  Z.of_nat (length (controls c)).

(** Modelled from the spec: the slot selected as current. *)
Definition well_controls_get_current (c : WellControls) : Z := current c.

(** Modelled from the spec: "disable the well". *)
Definition well_controls_stop_well (c : WellControls) : WellControls :=
  mkWellControls (current c) false (controls c).

(** Modelled from the spec: "open the well". *)
Definition well_controls_open_well (c : WellControls) : WellControls :=
  mkWellControls (current c) true (controls c).

(** Modelled from the spec: "selects that slot as current". *)
Definition well_controls_set_current (c : WellControls) (i : Z) : WellControls :=
  mkWellControls i (open c) (controls c).

(** Modelled from the spec: "appending if absent". *)
Definition well_controls_add_new (k : control) (c : WellControls) : WellControls :=
  mkWellControls (current c) (open c) (controls c ++ [k]).

(** Modelled from the spec: "overwriting the slot recorded as the
    group-control slot", that is [well_controls_iset_type], [_iset_target],
    [_iset_alq] and [_iset_distr] on slot [i], one after the other. *)
Definition well_controls_iset (c : WellControls) (i : Z)
    (ty : WellControlType) (tg al : Q) (di : list Q) : outcome WellControls :=
  old ← iget (controls c) i;
  cs ← iset (controls c) i (mkControl ty tg al (vfp old) di);
  mret (mkWellControls (current c) (open c) cs).

(** Modelled from the spec: [struct Wells] of [opm/core/wells.h], the flat
    wells array a leaf indexes, as far as the group tree reads and writes
    it: the type of every well and its controls. *)
Record Wells : Type := mkWells {
  wells_type : list WellType;
  ctrls : list WellControls
}.

(** [W->ctrls[w]] *)
Definition get_ctrls (W : Wells) (w : nat) : outcome WellControls :=
  iget (ctrls W) (Z.of_nat w).

Definition put_ctrls (W : Wells) (w : nat) (c : WellControls) : outcome Wells :=
  cs ← iset (ctrls W) (Z.of_nat w) c;
  mret (mkWells (wells_type W) cs).

(** Modelled from the spec: a new control slot at the end of the
    controls of well [well_index]. *)
Definition append_well_controls (ty : WellControlType) (tg al : Q) (vf : Z)
    (di : list Q) (well_index : nat) (W : Wells) : outcome Wells :=
  c ← get_ctrls W well_index;
  put_ctrls W well_index (well_controls_add_new (mkControl ty tg al vf di) c).

(** Modelled from the spec: the slot [current_control] of well
    [well_index] becomes the current one. *)
Definition set_current_control (well_index : nat) (current_control : Z)
    (W : Wells) : outcome Wells :=
  c ← get_ctrls W well_index;
  put_ctrls W well_index (well_controls_set_current c current_control).

End well_controls.

Import well_controls.

(** ** WellsGroup.cpp: the specifications of a node *)

Module BlackoilPhases.
Inductive PhaseIndex : Type := Aqua | Liquid | Vapour.
End BlackoilPhases.

(** Modelled from the spec: [PhaseUsage] is declared in
    [opm/core/props/BlackoilPhases.hpp], which is not among the sources.
    It holds the number of active phases, and for each phase whether it is
    used and its position among the active ones. *)
Record PhaseUsage : Type := mkPhaseUsage {
  num_phases : nat;
  phase_used : BlackoilPhases.PhaseIndex -> bool;
  phase_pos : BlackoilPhases.PhaseIndex -> nat
}.

(** Modelled from the spec: the class is declared in
    [ProductionSpecification.hpp], which is not among the sources.  The
    enumerations are those of the specification; the members are the ones
    [WellsGroup.cpp] reads and writes, a limit that is not set being
    negative. *)
Module ProductionSpecification.

Inductive ControlMode : Type :=
| NONE | ORAT | WRAT | GRAT | LRAT | CRAT | RESV | PRBL | BHP | THP | GRUP | FLD.
Inductive Procedure : Type := NONE_P | RATE | WELL.

#[global] Instance ControlMode_eq_dec : EqDecision ControlMode.
Proof. solve_decision. Defined.

Record t : Type := mk {
  control_mode_ : ControlMode;
  procedure_ : Procedure;
  oil_max_rate_ : Q;
  water_max_rate_ : Q;
  gas_max_rate_ : Q;
  liquid_max_rate_ : Q;
  reservoir_flow_max_rate_ : Q;
  BHP_limit_ : Q;
  guide_rate_ : Q
}.

Definition set_control_mode_ (m : ControlMode) (p : t) : t :=
  mk m (procedure_ p) (oil_max_rate_ p) (water_max_rate_ p) (gas_max_rate_ p)
     (liquid_max_rate_ p) (reservoir_flow_max_rate_ p) (BHP_limit_ p) (guide_rate_ p).

End ProductionSpecification.

(** Modelled from the spec: the class is declared in
    [InjectionSpecification.hpp], which is not among the sources.  The
    enumerations are those of the specification; the members are the ones
    [WellsGroup.cpp] reads and writes. *)
Module InjectionSpecification.

Inductive ControlMode : Type :=
| NONE | RATE | RESV | BHP | THP | REIN | VREP | GRUP | FLD.
Inductive InjectorType : Type := WATER | OIL | GAS.

#[global] Instance ControlMode_eq_dec : EqDecision ControlMode.
Proof. solve_decision. Defined.

Record t : Type := mk {
  injector_type_ : InjectorType;
  control_mode_ : ControlMode;
  surface_flow_max_rate_ : Q;
  reservoir_flow_max_rate_ : Q;
  BHP_limit_ : Q;
  reinjection_fraction_target_ : Q;
  voidage_replacment_fraction_ : Q;
  guide_rate_ : Q
}.

Definition set_control_mode_ (m : ControlMode) (p : t) : t :=
  mk (injector_type_ p) m (surface_flow_max_rate_ p) (reservoir_flow_max_rate_ p)
     (BHP_limit_ p) (reinjection_fraction_target_ p)
     (voidage_replacment_fraction_ p) (guide_rate_ p).

End InjectionSpecification.

(** ** WellPhasesSummed *)

Module WellPhasesSummed.

(** Four arrays of three rates, one entry per phase position (the
    members the constructor and [operator+=] run through). *)
Record t : Type := mk {
  res_inj_rates : list Q;
  res_prod_rates : list Q;
  surf_inj_rates : list Q;
  surf_prod_rates : list Q
}.

(** [WellPhasesSummed::WellPhasesSummed()] *)
Definition zero : t := mk [0; 0; 0] [0; 0; 0] [0; 0; 0] [0; 0; 0].

(** [a[i] += b[i]] for [i] in 0, 1, 2. *)
Definition add3 (a b : list Q) : list Q :=
  map (fun i => nth i a 0 + nth i b 0) [0; 1; 2]%nat.

(** [operator+=] *)
Definition plus_eq (s other : t) : t :=
  mk (add3 (res_inj_rates s) (res_inj_rates other))
     (add3 (res_prod_rates s) (res_prod_rates other))
     (add3 (surf_inj_rates s) (surf_inj_rates other))
     (add3 (surf_prod_rates s) (surf_prod_rates other)).

End WellPhasesSummed.

(** ** WellsGroup.cpp: the tree of groups and wells *)

#[local] Set Warnings "-register-all".

Module WellsGroups.

Import BlackoilPhases.
Module PS := ProductionSpecification.
Module IS := InjectionSpecification.

(** The members of [WellsGroupInterface], as its constructor
    initialises them.  The parent pointer is a back-reference into the
    same tree and is not stored: the functions below only walk
    downwards. *)
Record Base : Type := mkBase {
  name_ : string;
  efficicency_factor_ : Q;
  production_specification_ : PS.t;
  injection_specification_ : IS.t;
  phase_usage_ : PhaseUsage;
  should_update_well_targets_ : bool;
  individual_control_ : bool
}.

(** A [WellNode] refers to its well in the shared [Wells] structure by
    [self_index_]; a [WellsGroup] owns its children. *)
Inductive WellsGroupInterface : Type :=
| WellNode (base : Base) (self_index_ : nat) (group_control_index_ : Z)
           (shut_well_ : bool)
| WellsGroup (base : Base) (children_ : list WellsGroupInterface).

Definition base_of (n : WellsGroupInterface) : Base :=
  match n with
  | WellNode b _ _ _ => b
  | WellsGroup b _ => b
  end.

Definition children_of (n : WellsGroupInterface) : list WellsGroupInterface :=
  match n with
  | WellNode _ _ _ _ => []
  | WellsGroup _ cs => cs
  end.

Definition name (n : WellsGroupInterface) : string := name_ (base_of n).
Definition prodSpec (n : WellsGroupInterface) : PS.t :=
  production_specification_ (base_of n).
Definition injSpec (n : WellsGroupInterface) : IS.t :=
  injection_specification_ (base_of n).
Definition phaseUsage (n : WellsGroupInterface) : PhaseUsage :=
  phase_usage_ (base_of n).
Definition efficicencyFactor (n : WellsGroupInterface) : Q :=
  efficicency_factor_ (base_of n).
Definition individualControl (n : WellsGroupInterface) : bool :=
  individual_control_ (base_of n).

Definition set_prodSpec (p : PS.t) (b : Base) : Base :=
  mkBase (name_ b) (efficicency_factor_ b) p (injection_specification_ b)
         (phase_usage_ b) (should_update_well_targets_ b) (individual_control_ b).
Definition set_injSpec (p : IS.t) (b : Base) : Base :=
  mkBase (name_ b) (efficicency_factor_ b) (production_specification_ b) p
         (phase_usage_ b) (should_update_well_targets_ b) (individual_control_ b).
Definition setIndividualControl (c : bool) (b : Base) : Base :=
  mkBase (name_ b) (efficicency_factor_ b) (production_specification_ b)
         (injection_specification_ b) (phase_usage_ b)
         (should_update_well_targets_ b) c.

(** [v[i]] on a vector of rates. *)
Definition vget (v : list Q) (i : nat) : Q := nth i v 0.

(** [tot_rate += rates[phase]] for [phase < num_phases]. *)
Definition sum_phases (np : nat) (rates : nat -> Q) : Q :=
  fold_left (fun tot phase => tot + rates phase) (seq 0 np) 0.

(** [rateByMode] for a production mode; the rate arrays are passed as
    pointers in the source and as readers here. *)
Definition rateByMode_prod (pu : PhaseUsage) (res_rates surf_rates : nat -> Q)
    (mode : PS.ControlMode) : outcome Q :=
  match mode with
  | PS.ORAT => Ret (surf_rates (phase_pos pu Liquid))
  | PS.WRAT => Ret (surf_rates (phase_pos pu Aqua))
  | PS.GRAT => Ret (surf_rates (phase_pos pu Vapour))
  | PS.LRAT => Ret (surf_rates (phase_pos pu Liquid) + surf_rates (phase_pos pu Aqua))
  | PS.RESV => Ret (sum_phases (num_phases pu) res_rates)
  | _ => Raise (runtime_error "No rate associated with production control mode")
  end.

(** [rateByMode] for an injection mode. *)
Definition rateByMode_inj (pu : PhaseUsage) (res_rates surf_rates : nat -> Q)
    (mode : IS.ControlMode) : outcome Q :=
  match mode with
  | IS.RATE => Ret (sum_phases (num_phases pu) surf_rates)
  | IS.RESV => Ret (sum_phases (num_phases pu) res_rates)
  | _ => Raise (runtime_error "No rate associated with injection control mode")
  end.

Definition getTarget_prod (n : WellsGroupInterface) (mode : PS.ControlMode)
    : outcome Q :=
  match mode with
  | PS.GRAT => Ret (PS.gas_max_rate_ (prodSpec n))
  | PS.WRAT => Ret (PS.water_max_rate_ (prodSpec n))
  | PS.ORAT => Ret (PS.oil_max_rate_ (prodSpec n))
  | PS.RESV => Ret (PS.reservoir_flow_max_rate_ (prodSpec n))
  | PS.LRAT => Ret (PS.liquid_max_rate_ (prodSpec n))
  | PS.GRUP =>
      Raise (runtime_error "Can't query target production rate for GRUP control keyword")
  | _ => Raise (runtime_error "Unsupported control mode to query target")
  end.

Definition getTarget_inj (n : WellsGroupInterface) (mode : IS.ControlMode)
    : outcome Q :=
  match mode with
  | IS.RATE => Ret (IS.surface_flow_max_rate_ (injSpec n))
  | IS.RESV => Ret (IS.reservoir_flow_max_rate_ (injSpec n))
  | IS.GRUP =>
      Raise (runtime_error "Can't query target production rate for GRUP control keyword")
  | _ => Raise (runtime_error "Unsupported control mode to query target")
  end.

(** [WellNode::type], [isProducer], [isInjector]; a group is neither. *)
Definition type_of (W : Wells) (self_index : nat) : outcome WellType :=
  iget (wells_type W) (Z.of_nat self_index).

Definition isProducer (n : WellsGroupInterface) (W : Wells) : outcome bool :=
  match n with
  | WellNode _ self _ _ => ty ← type_of W self; mret (bool_decide (ty = PRODUCER))
  | WellsGroup _ _ => Ret false
  end.

Definition isInjector (n : WellsGroupInterface) (W : Wells) : outcome bool :=
  match n with
  | WellNode _ self _ _ => ty ← type_of W self; mret (bool_decide (ty = INJECTOR))
  | WellsGroup _ _ => Ret false
  end.

(** *** Guide rates *)

Fixpoint productionGuideRate (n : WellsGroupInterface) (only_group : bool) : Q :=
  match n with
  | WellNode b _ _ _ =>
      if negb only_group || negb (individual_control_ b)
      then PS.guide_rate_ (production_specification_ b) else 0
  | WellsGroup _ cs =>
      fold_left
        (fun sum c =>
           if only_group then
             if negb (individualControl c)
             then sum + productionGuideRate c only_group else sum
           else sum + productionGuideRate c only_group)
        cs 0
  end.

Fixpoint injectionGuideRate (n : WellsGroupInterface) (only_group : bool) : Q :=
  match n with
  | WellNode b _ _ _ =>
      if negb only_group || negb (individual_control_ b)
      then IS.guide_rate_ (injection_specification_ b) else 0
  | WellsGroup _ cs =>
      fold_left (fun sum c => sum + injectionGuideRate c only_group) cs 0
  end.

(** *** Installing the group control at a well *)

Definition invalid_alq : Q := - (10 ^ 100).
Definition invalid_vfp : Z := (-2147483647)%Z.

(** The tail shared by [applyInjGroupControl], [applyProdGroupControl] and
    [shutWell] at a well: append the control when the well has no
    group-control slot, overwrite that slot otherwise.  The result is the
    new [group_control_index_] and the new wells structure. *)
Definition install_group_control (self : nat) (gci : Z) (wct : WellControlType)
    (tg alq_overwrite : Q) (di : list Q) (W : Wells) : outcome (Z * Wells) :=
  if (gci <? 0)%Z then
    W1 ← append_well_controls wct tg invalid_alq invalid_vfp di self W;
    c ← get_ctrls W1 self;
    mret ((well_controls_get_num c - 1)%Z, W1)
  else
    c ← get_ctrls W self;
    c' ← well_controls_iset c gci wct tg alq_overwrite di;
    W1 ← put_ctrls W self c';
    mret (gci, W1).

(** The children of a group, one after the other, each on the wells
    structure the previous one left. *)
Section children.
Variable apply : WellsGroupInterface -> Wells ->
                 outcome (WellsGroupInterface * Wells).

Fixpoint apply_children (cs : list WellsGroupInterface) (W : Wells)
    : outcome (list WellsGroupInterface * Wells) :=
  match cs with
  | [] => Ret ([], W)
  | c :: rest =>
      r ← apply c W;
      r' ← apply_children rest r.2;
      mret (r.1 :: r'.1, r'.2)
  end.
End children.

Fixpoint applyInjGroupControl (n : WellsGroupInterface)
    (control_mode : IS.ControlMode) (target : Q) (only_group : bool)
    (W : Wells) {struct n} : outcome (WellsGroupInterface * Wells) :=
  match n with
  | WellNode b self gci shut =>
      inj ← isInjector n W;
      if negb inj then
        _ ← assert_ (Qeq_bool target 0) "target == 0.0";
        mret (n, W)
      else if only_group && individual_control_ b then mret (n, W)
      else
        let effective_target := target / efficicency_factor_ b in
        let distr := [1; 1; 1] in
        wct ← match control_mode with
              | IS.RATE => Ret SURFACE_RATE
              | IS.RESV => Ret RESERVOIR_RATE
              | _ => Raise (runtime_error "Group injection control mode not handled")
              end;
        r ← install_group_control self gci wct effective_target (- (10 ^ 100)) distr W;
        W2 ← set_current_control self r.1 r.2;
        mret (WellNode (setIndividualControl false b) self r.1 shut, W2)
  | WellsGroup b cs =>
      if decide (IS.control_mode_ (injection_specification_ b) = IS.NONE)
      then mret (n, W)
      else if negb only_group
              || bool_decide (IS.control_mode_ (injection_specification_ b) = IS.FLD)
      then
        let my_guide_rate := injectionGuideRate n only_group in
        if Qeq_bool my_guide_rate 0 then mret (n, W)
        else
          r ← apply_children
                (fun c W' =>
                   applyInjGroupControl c control_mode
                     (target / efficicency_factor_ b
                      * injectionGuideRate c only_group / my_guide_rate)
                     false W')
                cs W;
          mret (WellsGroup
                  (set_injSpec (IS.set_control_mode_ IS.FLD (injection_specification_ b)) b)
                  r.1,
                r.2)
      else mret (n, W)
  end.

(** [applyInjGroupControl] on a target that is NaN or an infinity, as a
    division by a zero guide rate leaves it.  Such a target is not
    [0.0], so the assertion of a well that is not an injector fails; a
    multiple or a quotient of it by a finite number is again NaN or an
    infinity, so the children of a group get such a target too; and a
    well that would store it ends the run in [not_finite]. *)
Fixpoint applyInjGroupControl_not_finite (n : WellsGroupInterface)
    (control_mode : IS.ControlMode) (only_group : bool)
    (W : Wells) {struct n} : outcome (WellsGroupInterface * Wells) :=
  match n with
  | WellNode b self gci shut =>
      inj ← isInjector n W;
      if negb inj then
        _ ← assert_ false "target == 0.0";
        mret (n, W)
      else if only_group && individual_control_ b then mret (n, W)
      else
        wct ← match control_mode with
              | IS.RATE => Ret SURFACE_RATE
              | IS.RESV => Ret RESERVOIR_RATE
              | _ => Raise (runtime_error "Group injection control mode not handled")
              end;
        Raise not_finite
  | WellsGroup b cs =>
      if decide (IS.control_mode_ (injection_specification_ b) = IS.NONE)
      then mret (n, W)
      else if negb only_group
              || bool_decide (IS.control_mode_ (injection_specification_ b) = IS.FLD)
      then
        let my_guide_rate := injectionGuideRate n only_group in
        if Qeq_bool my_guide_rate 0 then mret (n, W)
        else
          r ← apply_children
                (fun c W' => applyInjGroupControl_not_finite c control_mode false W')
                cs W;
          mret (WellsGroup
                  (set_injSpec (IS.set_control_mode_ IS.FLD (injection_specification_ b)) b)
                  r.1,
                r.2)
      else mret (n, W)
  end.

(** The distribution and control type a production mode installs at a
    well. *)
Definition prod_distr (pu : PhaseUsage) (control_mode : PS.ControlMode)
    : outcome (WellControlType * list Q) :=
  let distr := [0; 0; 0] in
  match control_mode with
  | PS.ORAT =>
      if negb (phase_used pu Liquid)
      then Raise (runtime_error "Oil phase not active and ORAT control specified.")
      else Ret (SURFACE_RATE, <[phase_pos pu Liquid := 1]> distr)
  | PS.WRAT =>
      if negb (phase_used pu Aqua)
      then Raise (runtime_error "Water phase not active and WRAT control specified.")
      else Ret (SURFACE_RATE, <[phase_pos pu Aqua := 1]> distr)
  | PS.GRAT =>
      if negb (phase_used pu Vapour)
      then Raise (runtime_error "Gas phase not active and GRAT control specified.")
      else Ret (SURFACE_RATE, <[phase_pos pu Vapour := 1]> distr)
  | PS.LRAT =>
      if negb (phase_used pu Liquid)
      then Raise (runtime_error "Oil phase not active and LRAT control specified.")
      else if negb (phase_used pu Aqua)
      then Raise (runtime_error "Water phase not active and LRAT control specified.")
      else Ret (SURFACE_RATE,
                <[phase_pos pu Aqua := 1]> (<[phase_pos pu Liquid := 1]> distr))
  | PS.RESV => Ret (RESERVOIR_RATE, [1; 1; 1])
  | _ => Raise (runtime_error "Group production control mode not handled")
  end.

Fixpoint applyProdGroupControl (n : WellsGroupInterface)
    (control_mode : PS.ControlMode) (target : Q) (only_group : bool)
    (W : Wells) {struct n} : outcome (WellsGroupInterface * Wells) :=
  match n with
  | WellNode b self gci shut =>
      prod ← isProducer n W;
      if negb prod then
        _ ← assert_ (Qeq_bool target 0) "target == 0.0";
        mret (n, W)
      else if only_group && individual_control_ b then mret (n, W)
      else
        let ntarget := - target / efficicency_factor_ b in
        wd ← prod_distr (phase_usage_ b) control_mode;
        r ← install_group_control self gci wd.1 ntarget (- (10 ^ 100)) wd.2 W;
        W2 ← set_current_control self r.1 r.2;
        mret (WellNode b self r.1 shut, W2)
  | WellsGroup b cs =>
      if decide (PS.control_mode_ (production_specification_ b) = PS.NONE)
      then mret (n, W)
      else if negb only_group
              || bool_decide (PS.control_mode_ (production_specification_ b) = PS.FLD)
      then
        let my_guide_rate := productionGuideRate n false in
        if Qeq_bool my_guide_rate 0 then mret (n, W)
        else
          r ← apply_children
                (fun c W' =>
                   applyProdGroupControl c control_mode
                     (target / efficicency_factor_ b
                      * productionGuideRate c only_group / my_guide_rate)
                     false W')
                cs W;
          mret (WellsGroup
                  (set_prodSpec (PS.set_control_mode_ PS.FLD (production_specification_ b)) b)
                  r.1,
                r.2)
      else mret (n, W)
  end.

(** *** shutWell and getWorstOffending *)

Definition shutWell (n : WellsGroupInterface) (W : Wells)
    : outcome (WellsGroupInterface * Wells) :=
  match n with
  | WellNode b self gci shut =>
      if shut then
        c ← get_ctrls W self;
        W1 ← put_ctrls W self (well_controls_stop_well c);
        mret (n, W1)
      else
        r ← install_group_control self gci SURFACE_RATE 0 0 [1; 1; 1] W;
        c ← get_ctrls r.2 self;
        W2 ← put_ctrls r.2 self (well_controls_open_well c);
        mret (WellNode b self r.1 shut, W2)
  | WellsGroup _ _ => Raise invalid_access
  end.

(** A [WellNode*] into the tree is the list of child positions that lead
    to the well; [None] is the null pointer. *)
Definition WellNodePtr : Type := option (list nat).

Section worst.
Variable child_worst : WellsGroupInterface -> outcome (WellNodePtr * Q).

(** The loop of [WellsGroup::getWorstOffending], at child [i] with the
    running [max]. *)
Fixpoint worst_loop (cs : list WellsGroupInterface) (i : nat)
    (max : WellNodePtr * Q) : outcome (WellNodePtr * Q) :=
  match cs with
  | [] => Ret max
  | c :: rest =>
      child_max ← child_worst c;
      let here := (option_map (cons i) child_max.1, child_max.2) in
      worst_loop rest (S i)
        (if Nat.eqb i 0 || Qltb max.2 child_max.2 then here else max)
  end.
End worst.

Fixpoint getWorstOffending (n : WellsGroupInterface)
    (well_reservoirrates_phase well_surfacerates_phase : list Q)
    (mode : PS.ControlMode) {struct n} : outcome (WellNodePtr * Q) :=
  match n with
  | WellNode b self _ _ =>
      let np := num_phases (phase_usage_ b) in
      let index := (self * np)%nat in
      rate ← rateByMode_prod (phase_usage_ b)
               (fun i => vget well_reservoirrates_phase (index + i))
               (fun i => vget well_surfacerates_phase (index + i))
               mode;
      mret (Some [], rate)
  | WellsGroup _ cs =>
      worst_loop
        (fun c => getWorstOffending c well_reservoirrates_phase
                    well_surfacerates_phase mode)
        cs 0%nat (None, 0)
  end.

(** [p->shutWell()] for a pointer [p] into the tree under [n]. *)
Fixpoint shutWell_at (path : list nat) (n : WellsGroupInterface) (W : Wells)
    : outcome (WellsGroupInterface * Wells) :=
  match path with
  | [] => shutWell n W
  | i :: rest =>
      match n with
      | WellsGroup b cs =>
          match cs !! i with
          | Some c =>
              r ← shutWell_at rest c W;
              mret (WellsGroup b (<[i := r.1]> cs), r.2)
          | None => Raise invalid_access
          end
      | WellNode _ _ _ _ => Raise invalid_access
      end
  end.

(** *** conditionsMet *)

(** The rates a well reports, phase by phase. *)
Fixpoint report_rates (n : WellsGroupInterface) (W : Wells) (np self : nat)
    (well_reservoirrates_phase well_surfacerates_phase : list Q)
    (phases : list nat) (s : WellPhasesSummed.t) : outcome WellPhasesSummed.t :=
  match phases with
  | [] => Ret s
  | phase :: rest =>
      inj ← isInjector n W;
      let r := vget well_reservoirrates_phase (np * self + phase) in
      let f := vget well_surfacerates_phase (np * self + phase) in
      report_rates n W np self well_reservoirrates_phase well_surfacerates_phase rest
        (if (inj : bool) then
           WellPhasesSummed.mk
             (<[phase := r]> (WellPhasesSummed.res_inj_rates s))
             (WellPhasesSummed.res_prod_rates s)
             (<[phase := f]> (WellPhasesSummed.surf_inj_rates s))
             (WellPhasesSummed.surf_prod_rates s)
         else
           WellPhasesSummed.mk
             (WellPhasesSummed.res_inj_rates s)
             (<[phase := r]> (WellPhasesSummed.res_prod_rates s))
             (WellPhasesSummed.surf_inj_rates s)
             (<[phase := f]> (WellPhasesSummed.surf_prod_rates s)))
  end.

(** [my_rate += ctrls_distr[phase] * rates[np*self_index_ + phase]] *)
Definition distr_rate (np self : nat) (ctrls_distr rates : list Q) : Q :=
  fold_left (fun my_rate phase =>
               my_rate + vget ctrls_distr phase * vget rates (np * self + phase))
            (seq 0 np) 0.

Definition Qmax (a b : Q) : Q := if Qltb a b then b else a.

(** Whether control [c] of the well is violated. *)
Definition ctrl_violated (n : WellsGroupInterface) (W : Wells) (np self : nat)
    (well_bhp well_reservoirrates_phase well_surfacerates_phase : list Q)
    (c : control) : outcome bool :=
  match type c with
  | BHP =>
      let my_well_bhp := vget well_bhp self in
      let my_target_bhp := target c in
      prod ← isProducer n W;
      mret (if (prod : bool) then Qltb my_well_bhp my_target_bhp
            else Qltb my_target_bhp my_well_bhp)
  | THP => Raise (invalid_argument "THP not implemented in WellNode::conditionsMet.")
  | RESERVOIR_RATE =>
      let my_rate := distr_rate np self (distr c) well_reservoirrates_phase in
      let my_rate_target := target c in
      mret (Qltb (Qmax (Qabs my_rate) (Qabs my_rate_target) * (1 # 1000000))
                 (Qabs my_rate - Qabs my_rate_target))
  | SURFACE_RATE =>
      let my_rate := distr_rate np self (distr c) well_surfacerates_phase in
      let my_rate_target := target c in
      mret (Qltb (Qabs my_rate_target) (Qabs my_rate))
  end.

(** The loop over the controls of a well: the index of the first
    violated control that is neither the current one nor the group's. *)
Fixpoint ctrl_loop (n : WellsGroupInterface) (W : Wells) (np self : nat)
    (gci : Z) (ctrls : WellControls)
    (well_bhp well_reservoirrates_phase well_surfacerates_phase : list Q)
    (idxs : list nat) : outcome (option nat) :=
  match idxs with
  | [] => Ret None
  | ctrl_index :: rest =>
      if (Z.of_nat ctrl_index =? well_controls_get_current ctrls)%Z
         || (Z.of_nat ctrl_index =? gci)%Z
      then ctrl_loop n W np self gci ctrls well_bhp well_reservoirrates_phase
             well_surfacerates_phase rest
      else
        c ← iget (controls ctrls) (Z.of_nat ctrl_index);
        v ← ctrl_violated n W np self well_bhp well_reservoirrates_phase
              well_surfacerates_phase c;
        if (v : bool) then Ret (Some ctrl_index)
        else ctrl_loop n W np self gci ctrls well_bhp well_reservoirrates_phase
               well_surfacerates_phase rest
  end.

(** What [conditionsMet] gives back: its result, the node and the wells
    structure as the call left them, and [summed_phases]. *)
Definition met : Type := bool * WellsGroupInterface * Wells * WellPhasesSummed.t.

Section children_met.
Variable check : WellsGroupInterface -> Wells -> outcome met.

(** The loop over the children of a group: it stops at the first child
    that reports not met. *)
Fixpoint conditionsMet_children (cs : list WellsGroupInterface) (W : Wells)
    (child_phases_summed : WellPhasesSummed.t)
    : outcome (bool * list WellsGroupInterface * Wells * WellPhasesSummed.t) :=
  match cs with
  | [] => Ret (true, [], W, child_phases_summed)
  | c :: rest =>
      r ← check c W;
      let '(ok, c', W', current_child_phases_summed) := r in
      if negb ok then Ret (false, c' :: rest, W', child_phases_summed)
      else
        r' ← conditionsMet_children rest W'
               (WellPhasesSummed.plus_eq child_phases_summed
                                         current_child_phases_summed);
        let '(ok', rest', W'', sum') := r' in
        mret (ok', c' :: rest', W'', sum')
  end.
End children_met.

(** The injection modes of a group in the order they are checked: the
    first mode, other than the active one, whose target is set and
    exceeded, with that target. *)
Fixpoint injection_violated (n : WellsGroupInterface)
    (child_phases_summed : WellPhasesSummed.t) (modes : list IS.ControlMode)
    : outcome (option (IS.ControlMode * Q)) :=
  match modes with
  | [] => Ret None
  | mode :: rest =>
      if decide (IS.control_mode_ (injSpec n) = mode)
      then injection_violated n child_phases_summed rest
      else
        target_rate ← getTarget_inj n mode;
        if Qle_bool 0 target_rate then
          my_rate ← rateByMode_inj (phaseUsage n)
                      (vget (WellPhasesSummed.res_inj_rates child_phases_summed))
                      (vget (WellPhasesSummed.surf_inj_rates child_phases_summed))
                      mode;
          if Qltb target_rate my_rate then Ret (Some (mode, target_rate))
          else injection_violated n child_phases_summed rest
        else injection_violated n child_phases_summed rest
  end.

(** The same for the production modes, on the absolute rate. *)
Fixpoint production_violated (n : WellsGroupInterface)
    (child_phases_summed : WellPhasesSummed.t) (modes : list PS.ControlMode)
    : outcome (option PS.ControlMode) :=
  match modes with
  | [] => Ret None
  | mode :: rest =>
      if decide (PS.control_mode_ (prodSpec n) = mode)
      then production_violated n child_phases_summed rest
      else
        target_rate ← getTarget_prod n mode;
        if Qle_bool 0 target_rate then
          my_rate ← rateByMode_prod (phaseUsage n)
                      (vget (WellPhasesSummed.res_prod_rates child_phases_summed))
                      (vget (WellPhasesSummed.surf_prod_rates child_phases_summed))
                      mode;
          if Qltb target_rate (Qabs my_rate) then Ret (Some mode)
          else production_violated n child_phases_summed rest
        else production_violated n child_phases_summed rest
  end.

Definition injection_modes : list IS.ControlMode := [IS.RATE; IS.RESV].
Definition production_modes : list PS.ControlMode :=
  [PS.ORAT; PS.WRAT; PS.GRAT; PS.LRAT; PS.RESV].

(** The part of [WellsGroup::conditionsMet] after the children: the
    group [g] holds the children as the loop left them. *)
Definition group_checks (g : WellsGroupInterface) (W : Wells)
    (well_reservoirrates_phase well_surfacerates_phase : list Q)
    (child_phases_summed summed_phases : WellPhasesSummed.t) : outcome met :=
  iv ← injection_violated g child_phases_summed injection_modes;
  match iv : option (IS.ControlMode * Q) with
  | Some (mode, target_rate) =>
      r ← applyInjGroupControl g mode target_rate false W;
      let g' := match r.1 with
                | WellsGroup b cs =>
                    WellsGroup (set_injSpec
                                  (IS.set_control_mode_ mode (injection_specification_ b)) b)
                               cs
                | other => other
                end in
      mret (false, g', r.2, summed_phases)
  | None =>
      pv ← production_violated g child_phases_summed production_modes;
      match pv : option PS.ControlMode with
      | Some production_mode_violated =>
          match PS.procedure_ (prodSpec g) with
          | PS.WELL =>
              worst ← getWorstOffending g well_reservoirrates_phase
                        well_surfacerates_phase production_mode_violated;
              match worst.1 : WellNodePtr with
              | Some path =>
                  r ← shutWell_at path g W;
                  mret (false, r.1, r.2, summed_phases)
              | None => Raise invalid_access
              end
          | PS.RATE =>
              tg ← getTarget_prod g production_mode_violated;
              r ← applyProdGroupControl g production_mode_violated tg false W;
              mret (false, r.1, r.2, summed_phases)
          | PS.NONE_P => mret (false, g, W, summed_phases)
          end
      | None =>
          mret (true, g, W, WellPhasesSummed.plus_eq summed_phases child_phases_summed)
      end
  end.

Fixpoint conditionsMet (n : WellsGroupInterface) (W : Wells)
    (well_bhp well_reservoirrates_phase well_surfacerates_phase : list Q)
    (summed_phases : WellPhasesSummed.t) {struct n} : outcome met :=
  match n with
  | WellNode b self gci shut =>
      let np := num_phases (phase_usage_ b) in
      s ← report_rates n W np self well_reservoirrates_phase
            well_surfacerates_phase (seq 0 np) summed_phases;
      ctrls ← get_ctrls W self;
      v ← ctrl_loop n W np self gci ctrls well_bhp well_reservoirrates_phase
            well_surfacerates_phase
            (seq 0 (Z.to_nat (well_controls_get_num ctrls)));
      match v : option nat with
      | Some ctrl_index =>
          W1 ← set_current_control self (Z.of_nat ctrl_index) W;
          mret (false, n, W1, s)
      | None => mret (true, n, W, s)
      end
  | WellsGroup b cs =>
      r ← conditionsMet_children
            (fun c W' =>
               conditionsMet c W' well_bhp well_reservoirrates_phase
                 well_surfacerates_phase WellPhasesSummed.zero)
            cs W WellPhasesSummed.zero;
      let '(ok, cs', W', child_phases_summed) := r in
      if negb ok then mret (false, WellsGroup b cs', W', summed_phases)
      else group_checks (WellsGroup b cs') W' well_reservoirrates_phase
             well_surfacerates_phase child_phases_summed summed_phases
  end.

(** *** The tree operations *)

(** [WellsGroup::isLeafNode] is false, [WellNode::isLeafNode] is true. *)
Definition isLeafNode (n : WellsGroupInterface) : bool :=
  match n with
  | WellNode _ _ _ _ => true
  | WellsGroup _ _ => false
  end.

(** A [WellsGroupInterface*] into the tree is the list of child positions
    that lead to the node; [None] is the null pointer. *)
Definition NodePtr : Type := option (list nat).

(** [*p] for a pointer [p] into the tree under [n]. *)
Fixpoint node_at (path : list nat) (n : WellsGroupInterface)
    : option WellsGroupInterface :=
  match path with
  | [] => Some n
  | i :: rest =>
      match n with
      | WellsGroup _ cs =>
          match cs !! i with
          | Some c => node_at rest c
          | None => None
          end
      | WellNode _ _ _ _ => None
      end
  end.

Section find.
Variable find : WellsGroupInterface -> NodePtr.

(** The loop of [WellsGroup::findGroup], at child [i]. *)
Fixpoint find_loop (cs : list WellsGroupInterface) (i : nat) : NodePtr :=
  match cs with
  | [] => None
  | c :: rest =>
      match find c with
      | Some path => Some (i :: path)
      | None => find_loop rest (S i)
      end
  end.
End find.

Fixpoint findGroup (n : WellsGroupInterface) (name_of_node : string)
    {struct n} : NodePtr :=
  match n with
  | WellNode b _ _ _ =>
      if String.eqb (name_ b) name_of_node then Some [] else None
  | WellsGroup b cs =>
      if String.eqb (name_ b) name_of_node then Some []
      else find_loop (fun c => findGroup c name_of_node) cs 0
  end.

(** The count is an [int] in the source; the number of wells stays far
    below its range, and it is an integer here. *)
Fixpoint numberOfLeafNodes (n : WellsGroupInterface) : Z :=
  match n with
  | WellNode _ _ _ _ => 1%Z
  | WellsGroup _ cs =>
      fold_left (fun sum c => (sum + numberOfLeafNodes c)%Z) cs 0%Z
  end.

Section sum_children.
Variable flow : WellsGroupInterface -> outcome Q.

(** [sum += children_[i]->...] over the children. *)
Fixpoint sum_children (cs : list WellsGroupInterface) (sum : Q) : outcome Q :=
  match cs with
  | [] => Ret sum
  | c :: rest =>
      x ← flow c;
      sum_children rest (sum + x)
  end.
End sum_children.

Fixpoint getTotalProductionFlow (n : WellsGroupInterface) (W : Wells)
    (phase_flows : list Q) (phase : PhaseIndex) {struct n} : outcome Q :=
  match n with
  | WellNode b self _ _ =>
      inj ← isInjector n W;
      if (inj : bool) then Ret 0
      else Ret (vget phase_flows
                  (self * num_phases (phase_usage_ b)
                   + phase_pos (phase_usage_ b) phase))
  | WellsGroup _ cs =>
      sum_children (fun c => getTotalProductionFlow c W phase_flows phase) cs 0
  end.


(** *** applyProdGroupControls and applyInjGroupControls *)

Fixpoint applyProdGroupControls (n : WellsGroupInterface) (W : Wells)
    {struct n} : outcome (WellsGroupInterface * Wells) :=
  match n with
  | WellNode _ _ _ _ => Ret (n, W)
  | WellsGroup b cs =>
      let prod_mode := PS.control_mode_ (production_specification_ b) in
      match prod_mode with
      | PS.ORAT | PS.WRAT | PS.LRAT | PS.RESV =>
          let my_guide_rate := productionGuideRate n false in
          if Qeq_bool my_guide_rate 0 then
            Raise (runtime_error
                     "Can't apply group control as the sum of guide rates for all group controlled wells is zero.")
          else
            r ← apply_children
                  (fun c W' =>
                     let children_guide_rate := productionGuideRate c false in
                     tg ← getTarget_prod n prod_mode;
                     applyProdGroupControl c prod_mode
                       (children_guide_rate / my_guide_rate * tg) false W')
                  cs W;
            mret (WellsGroup b r.1, r.2)
      | PS.FLD | PS.NONE =>
          r ← apply_children applyProdGroupControls cs W;
          mret (WellsGroup b r.1, r.2)
      | _ => Raise (runtime_error "Unhandled group production control type")
      end
  end.

(** The guide rate of the group is not tested here: where it is zero the
    target of every child is NaN or an infinity.  What is written to
    [std::cout] is not modelled. *)
Fixpoint applyInjGroupControls (n : WellsGroupInterface) (W : Wells)
    {struct n} : outcome (WellsGroupInterface * Wells) :=
  match n with
  | WellNode _ _ _ _ => Ret (n, W)
  | WellsGroup b cs =>
      let inj_mode := IS.control_mode_ (injection_specification_ b) in
      match inj_mode with
      | IS.RATE | IS.RESV =>
          let my_guide_rate := injectionGuideRate n false in
          r ← apply_children
                (fun c W' =>
                   let children_guide_rate := injectionGuideRate c false in
                   tg ← getTarget_inj n inj_mode;
                   if Qeq_bool my_guide_rate 0
                   then applyInjGroupControl_not_finite c inj_mode true W'
                   else applyInjGroupControl c inj_mode
                          (children_guide_rate / my_guide_rate * tg
                           / efficicency_factor_ b)
                          true W')
                cs W;
          mret (WellsGroup b r.1, r.2)
      | IS.VREP | IS.REIN => Ret (n, W)
      | IS.FLD | IS.NONE =>
          r ← apply_children applyInjGroupControls cs W;
          mret (WellsGroup b r.1, r.2)
      | _ => Raise (runtime_error "Unhandled group injection control mode")
      end
  end.

(** *** applyExplicitReinjectionControls *)

(** The reservoir production of the phases in use, water, oil and gas in
    this order. *)
Fixpoint voidage_production (n : WellsGroupInterface) (W : Wells)
    (well_reservoirrates_phase : list Q) (phases : list PhaseIndex)
    (total_produced : Q) : outcome Q :=
  match phases with
  | [] => Ret total_produced
  | phase :: rest =>
      if phase_used (phaseUsage n) phase then
        x ← getTotalProductionFlow n W well_reservoirrates_phase phase;
        voidage_production n W well_reservoirrates_phase rest (total_produced + x)
      else voidage_production n W well_reservoirrates_phase rest total_produced
  end.

(** Without [DIRTY_WELLCTRL_HACK], which no source defines.  At a well
    nothing is done.  The guide rate of the group is not tested: where it
    is zero the target of every child is NaN or an infinity. *)
Definition applyExplicitReinjectionControls (n : WellsGroupInterface) (W : Wells)
    (well_reservoirrates_phase well_surfacerates_phase : list Q)
    : outcome (WellsGroupInterface * Wells) :=
  match n with
  | WellNode _ _ _ _ => Ret (n, W)
  | WellsGroup b cs =>
      let spec := injection_specification_ b in
      if decide (IS.control_mode_ spec = IS.REIN) then
        let phase := match IS.injector_type_ spec with
                     | IS.WATER => Aqua
                     | IS.GAS => Vapour
                     | IS.OIL => Liquid
                     end in
        total_produced ← getTotalProductionFlow n W well_surfacerates_phase phase;
        let total_reinjected := - total_produced in
        let my_guide_rate := injectionGuideRate n true in
        r ← apply_children
              (fun c W' =>
                 let children_guide_rate := injectionGuideRate c true in
                 if Qeq_bool my_guide_rate 0
                 then applyInjGroupControl_not_finite c IS.RATE true W'
                 else applyInjGroupControl c IS.RATE
                        (children_guide_rate / my_guide_rate * total_reinjected
                         * IS.reinjection_fraction_target_ spec)
                        true W')
              cs W;
        mret (WellsGroup b r.1, r.2)
      else if decide (IS.control_mode_ spec = IS.VREP) then
        total_produced ← voidage_production n W well_reservoirrates_phase
                           [Aqua; Liquid; Vapour] 0;
        let total_reinjected := - total_produced in
        let my_guide_rate := injectionGuideRate n true in
        r ← apply_children
              (fun c W' =>
                 let children_guide_rate := injectionGuideRate c true in
                 if Qeq_bool my_guide_rate 0
                 then applyInjGroupControl_not_finite c IS.RESV true W'
                 else applyInjGroupControl c IS.RESV
                        (children_guide_rate / my_guide_rate * total_reinjected
                         * IS.voidage_replacment_fraction_ spec)
                        true W')
              cs W;
        mret (WellsGroup b r.1, r.2)
      else Ret (n, W)
  end.

(** *** updateWellProductionTargets and updateWellInjectionTargets *)

Definition setShouldUpdateWellTargets (should_update_well_targets : bool)
    (n : WellsGroupInterface) : WellsGroupInterface :=
  let set b :=
    mkBase (name_ b) (efficicency_factor_ b) (production_specification_ b)
           (injection_specification_ b) (phase_usage_ b)
           should_update_well_targets (individual_control_ b) in
  match n with
  | WellNode b self gci shut => WellNode (set b) self gci shut
  | WellsGroup b cs => WellsGroup (set b) cs
  end.




Definition updateWellInjectionTargets (n : WellsGroupInterface) (W : Wells)
    : outcome WellsGroupInterface :=
  match n with
  | WellNode _ _ _ _ => Ret n
  | WellsGroup b cs =>
      r ← apply_children
            (fun c W' =>
               if negb (individualControl c) then
                 inj ← isInjector c W';
                 mret (if (inj : bool) then setShouldUpdateWellTargets false c else c, W')
               else mret (c, W'))
            cs W;
      mret (WellsGroup b r.1)
  end.

(** *** The names of the enumerations *)

(** [type[0]] of an empty string is the terminating null character,
    which is none of the three letters. *)
Definition toInjectorType (type : string) : outcome IS.InjectorType :=
  let unknown :=
    Raise (runtime_error "Unknown type, could not convert to SurfaceComponent") in
  match type with
  | String c _ =>
      if String.eqb (String c EmptyString) "O" then Ret IS.OIL
      else if String.eqb (String c EmptyString) "W" then Ret IS.WATER
      else if String.eqb (String c EmptyString) "G" then Ret IS.GAS
      else unknown
  | EmptyString => unknown
  end.

Definition toInjectionControlMode (type : string) : outcome IS.ControlMode :=
  if String.eqb type "NONE" then Ret IS.NONE
  else if String.eqb type "RATE" then Ret IS.RATE
  else if String.eqb type "RESV" then Ret IS.RESV
  else if String.eqb type "BHP" then Ret IS.BHP
  else if String.eqb type "THP" then Ret IS.THP
  else if String.eqb type "REIN" then Ret IS.REIN
  else if String.eqb type "VREP" then Ret IS.VREP
  else if String.eqb type "GRUP" then Ret IS.GRUP
  else if String.eqb type "FLD" then Ret IS.FLD
  else Raise (runtime_error
                "Unknown type, could not convert to InjectionSpecification::ControlMode.").

Definition toProductionControlMode (type : string) : outcome PS.ControlMode :=
  if String.eqb type "NONE" then Ret PS.NONE
  else if String.eqb type "ORAT" then Ret PS.ORAT
  else if String.eqb type "WRAT" then Ret PS.WRAT
  else if String.eqb type "GRAT" then Ret PS.GRAT
  else if String.eqb type "LRAT" then Ret PS.LRAT
  else if String.eqb type "CRAT" then Ret PS.CRAT
  else if String.eqb type "RESV" then Ret PS.RESV
  else if String.eqb type "PRBL" then Ret PS.PRBL
  else if String.eqb type "BHP" then Ret PS.BHP
  else if String.eqb type "THP" then Ret PS.THP
  else if String.eqb type "GRUP" then Ret PS.GRUP
  else if String.eqb type "FLD" then Ret PS.FLD
  else Raise (runtime_error
                "Unknown type, could not convert to ProductionSpecification::ControlMode.").

Definition toProductionProcedure (type : string) : outcome PS.Procedure :=
  if String.eqb type "NONE" then Ret PS.NONE_P
  else if String.eqb type "RATE" then Ret PS.RATE
  else if String.eqb type "WELL" then Ret PS.WELL
  else Raise (runtime_error "Unknown type, could not convert to ControlMode.").

End WellsGroups.

(** ** IEEE doubles with their special values *)

Module IEEE.

(** A finite value, an infinity of either sign, or NaN.  A finite result
    of an operation is exact unless it overflows: rounding to the nearest
    double is not modelled, the overflow to an infinity is. *)
Inductive double : Type :=
| NaN
| Inf (negative : bool)
| Fin (q : Q).

Definition isnan (d : double) : bool :=
  match d with NaN => true | _ => false end.

Definition isinf (d : double) : bool :=
  match d with Inf _ => true | _ => false end.

(** The largest finite double is [2^1024 - 2^971].  Rounded to the
    nearest double, an exact result whose magnitude reaches
    [2^1024 - 2^970], half a unit in the last place above it, is an
    infinity. *)
Definition overflow_threshold : Q := inject_Z (2 ^ 1024 - 2 ^ 970).

(** The double of an exact finite result. *)
Definition finite_or_inf (q : Q) : double :=
  if Qle_bool overflow_threshold (Qabs q) then Inf (Qltb q 0) else Fin q.

(** [std::abs] *)
Definition abs (d : double) : double :=
  match d with
  | NaN => NaN
  | Inf _ => Inf false
  | Fin q => Fin (Qabs q)
  end.

(** [a * b] *)
Definition mul (a b : double) : double :=
  match a, b with
  | NaN, _ | _, NaN => NaN
  | Inf s, Inf u => Inf (xorb s u)
  | Inf s, Fin y => if Qeq_bool y 0 then NaN else Inf (xorb s (Qltb y 0))
  | Fin x, Inf u => if Qeq_bool x 0 then NaN else Inf (xorb u (Qltb x 0))
  | Fin x, Fin y => finite_or_inf (x * y)
  end.

(** [a - b] *)
Definition sub (a b : double) : double :=
  match a, b with
  | NaN, _ | _, NaN => NaN
  | Inf s, Inf u => if eqb s u then NaN else Inf s
  | Inf s, Fin _ => Inf s
  | Fin _, Inf u => Inf (negb u)
  | Fin x, Fin y => finite_or_inf (x - y)
  end.

(** [a > b]: false as soon as one side is NaN. *)
Definition gt (a b : double) : bool :=
  match a, b with
  | NaN, _ | _, NaN => false
  | Inf false, Inf false => false
  | Inf false, _ => true
  | Inf true, _ => false
  | Fin _, Inf u => u
  | Fin x, Fin y => Qltb y x
  end.

(** [a + b] *)
Definition add (a b : double) : double :=
  match a, b with
  | NaN, _ | _, NaN => NaN
  | Inf s, Inf u => if eqb s u then Inf s else NaN
  | Inf s, Fin _ => Inf s
  | Fin _, Inf u => Inf u
  | Fin x, Fin y => finite_or_inf (x + y)
  end.

(** [a / b]; a zero is the positive zero. *)
Definition div (a b : double) : double :=
  match a, b with
  | NaN, _ | _, NaN => NaN
  | Inf _, Inf _ => NaN
  | Inf s, Fin y => Inf (xorb s (Qltb y 0))
  | Fin _, Inf _ => Fin 0
  | Fin x, Fin y =>
      if Qeq_bool y 0 then (if Qeq_bool x 0 then NaN else Inf (Qltb x 0))
      else finite_or_inf (x / y)
  end.

(** [a < b] *)
Definition lt (a b : double) : bool := gt b a.

(** [std::max(a, b)]: [b] when [a < b], and [a] otherwise. *)
Definition max (a b : double) : double := if lt a b then b else a.

End IEEE.

(** ** MultisegmentWellEval *)

Module MultisegmentWellEval.

Import IEEE.

Module Segment.
Inductive SegmentType : Type := REGULAR | SICD | AICD | VALVE.
Inductive ICDStatus : Type := OPEN | SHUT.

#[global] Instance SegmentType_eq_dec : EqDecision SegmentType.
Proof. solve_decision. Defined.
#[global] Instance ICDStatus_eq_dec : EqDecision ICDStatus.
Proof. solve_decision. Defined.

Record Valve : Type := { status : ICDStatus }.

Record t : Type := {
  segmentNumber : Z;
  outletSegment : Z;
  crossArea : double;
  segmentType : SegmentType;
  valve : Valve
}.
End Segment.

(** Modelled from the spec: [ConvergenceReport] is declared in
    [opm/simulators/timestepping/ConvergenceReport.hpp], which is not
    among the sources.  The report collects the well failures in the
    order they are set; a failure has a type, a severity, a component
    index and the name of the well. *)
Module ConvergenceReport.
Inductive Severity : Type := None_ | Normal | TooLarge | NotANumber.
Inductive Type_ : Type :=
| Invalid | MassBalance | Pressure | ControlBHP | ControlTHP | ControlRate
| Unsolvable | WrongFlowDirection.

Record WellFailure : Type := mkWellFailure {
  type : Type_;
  severity : Severity;
  phase : Z;
  well_name : string
}.

Definition t : Type := list WellFailure.

Definition setWellFailed (wf : WellFailure) (report : t) : t := report ++ [wf].
End ConvergenceReport.
Module CR := ConvergenceReport.

(** The pressure drops a well keeps per segment in the well state. *)
Record SegmentState : Type := mkSegmentState {
  pressure_drop_hydrostatic : list double;
  pressure_drop_friction : list double;
  pressure_drop_accel : list double
}.

(** What the evaluator calls and does not define: the well-equation
    scalar with derivatives, the linear system and its assembler
    ([MultisegmentWellAssemble]), the constants of the index layout, the
    pressure-drop kernels of the segments and the check of the control
    equation ([WellConvergence]). *)
Class Collaborators : Type := {
  EvalWell : Type;
  value : EvalWell -> double;
  minus : EvalWell -> EvalWell -> EvalWell;
  Equations : Type;
  residual : Equations -> nat -> nat -> double;
  assembleTrivialEq : nat -> double -> Equations -> Equations;
  assemblePressureEq :
    nat -> nat -> nat -> EvalWell -> EvalWell -> Equations -> bool -> bool -> Equations;
  numWellEq : nat;
  WQTotal : nat;
  SPres : nat;
  UnitSystem : Type;
  WellStateRest : Type;
  segmentNumberToIndex : Z -> nat;
  waterPhaseIsActive : bool;
  gasPhaseIsActive : bool;
  checkConvergenceControlEq :
    WellStateRest -> list double -> double -> CR.t -> CR.t
}.

Section Eval.
Context `{Collaborators}.

(** The state of one well in [WellState]: its segments, and the rest. *)
Record WellState : Type := mkWellState {
  segments : SegmentState;
  rest : WellStateRest
}.

(** The evaluator, as far as the functions below read it. *)
Record t : Type := mk {
  name : string;
  numComponents : nat;
  segmentSet : list Segment.t;
  linSys_ : Equations;
  eval : nat -> nat -> EvalWell;
  getSegmentPressure : nat -> EvalWell;
  pressureDropSpiralICD : nat -> EvalWell;
  pressureDropAutoICD : nat -> UnitSystem -> EvalWell;
  pressureDropValve : nat -> EvalWell;
  upwinding_segments_ : nat -> nat
}.

Definition numberOfSegments (w : t) : nat := length (segmentSet w).

Definition set_linSys_ (e : Equations) (w : t) : t :=
  mk (name w) (numComponents w) (segmentSet w) e (eval w)
     (getSegmentPressure w) (pressureDropSpiralICD w) (pressureDropAutoICD w)
     (pressureDropValve w) (upwinding_segments_ w).

Definition set_pressure_drop_friction (seg : nat) (v : double) (ws : WellState)
    : outcome WellState :=
  f ← iset (pressure_drop_friction (segments ws)) (Z.of_nat seg) v;
  mret (mkWellState
          (mkSegmentState (pressure_drop_hydrostatic (segments ws)) f
                          (pressure_drop_accel (segments ws)))
          (rest ws)).

(** *** getWellConvergence *)

Definition abs_residual (w : t) (seg eq_idx : nat) : double :=
  abs (residual (linSys_ w) seg eq_idx).

(** [B_avg[eq_idx]] *)
Definition dget (v : list double) (i : nat) : double := nth i v (Fin 0).

(** The inner loop over the segments for one equation: the entry
    [maximum_residual[eq_idx]] it leaves. *)
Definition maximum_residual (w : t) (B_avg : list double) (eq_idx : nat) : double :=
  fold_left
    (fun maximum seg =>
       if (eq_idx <? numComponents w)%nat then
         let flux_residual := mul (dget B_avg eq_idx) (abs_residual w seg eq_idx) in
         if gt flux_residual maximum then flux_residual else maximum
       else if (0 <? seg)%nat then
         let pressure_residual := abs_residual w seg eq_idx in
         if gt pressure_residual maximum then pressure_residual else maximum
       else maximum)
    (seq 0 (numberOfSegments w)) (Fin 0).

(** One round of the second loop: the failure, if any, set for
    equation [eq_idx] whose maximum is [r]. *)
Definition well_failure (w : t) (max_residual_allowed tolerance_wells
    relaxed_inner_tolerance_flow_ms_well tolerance_pressure_ms_wells
    relaxed_inner_tolerance_pressure_ms_well : double) (relax_tolerance : bool)
    (eq_idx : nat) (r : double) : option CR.WellFailure :=
  if (eq_idx <? numComponents w)%nat then
    let flux_residual := r in
    if isnan flux_residual then
      Some (CR.mkWellFailure CR.MassBalance CR.NotANumber (Z.of_nat eq_idx) (name w))
    else if gt flux_residual max_residual_allowed then
      Some (CR.mkWellFailure CR.MassBalance CR.TooLarge (Z.of_nat eq_idx) (name w))
    else if negb relax_tolerance && gt flux_residual tolerance_wells then
      Some (CR.mkWellFailure CR.MassBalance CR.Normal (Z.of_nat eq_idx) (name w))
    else if gt flux_residual relaxed_inner_tolerance_flow_ms_well then
      Some (CR.mkWellFailure CR.MassBalance CR.Normal (Z.of_nat eq_idx) (name w))
    else None
  else
    let pressure_residual := r in
    let dummy_component := (-1)%Z in
    if isnan pressure_residual then
      Some (CR.mkWellFailure CR.Pressure CR.NotANumber dummy_component (name w))
    else if isinf pressure_residual then
      Some (CR.mkWellFailure CR.Pressure CR.TooLarge dummy_component (name w))
    else if negb relax_tolerance && gt pressure_residual tolerance_pressure_ms_wells then
      Some (CR.mkWellFailure CR.Pressure CR.Normal dummy_component (name w))
    else if gt pressure_residual relaxed_inner_tolerance_pressure_ms_well then
      Some (CR.mkWellFailure CR.Pressure CR.Normal dummy_component (name w))
    else None.

(** The second loop, over the equations. *)
Definition residual_failures (w : t) (B_avg : list double)
    (max_residual_allowed tolerance_wells relaxed_inner_tolerance_flow_ms_well
     tolerance_pressure_ms_wells relaxed_inner_tolerance_pressure_ms_well : double)
    (relax_tolerance : bool) : CR.t :=
  fold_left
    (fun report eq_idx =>
       match well_failure w max_residual_allowed tolerance_wells
               relaxed_inner_tolerance_flow_ms_well tolerance_pressure_ms_wells
               relaxed_inner_tolerance_pressure_ms_well relax_tolerance
               eq_idx (maximum_residual w B_avg eq_idx) with
       | Some wf => CR.setWellFailed wf report
       | None => report
       end)
    (seq 0 numWellEq) [].

Definition getWellConvergence (w : t) (well_state : WellState)
    (B_avg : list double)
    (max_residual_allowed tolerance_wells relaxed_inner_tolerance_flow_ms_well
     tolerance_pressure_ms_wells relaxed_inner_tolerance_pressure_ms_well : double)
    (relax_tolerance : bool) : outcome CR.t :=
  _ ← assert_ (Nat.eqb (length B_avg) (numComponents w))
        "int(B_avg.size()) == baseif_.numComponents()";
  let report :=
    residual_failures w B_avg max_residual_allowed tolerance_wells
      relaxed_inner_tolerance_flow_ms_well tolerance_pressure_ms_wells
      relaxed_inner_tolerance_pressure_ms_well relax_tolerance in
  mret (checkConvergenceControlEq (rest well_state)
          [tolerance_pressure_ms_wells; tolerance_pressure_ms_wells;
           tolerance_wells; tolerance_wells; max_residual_allowed]
          (abs (residual (linSys_ w) 0 SPres))
          report).

(** *** assembleICDPressureEq *)

Definition assembleICDPressureEq (seg : nat) (unit_system : UnitSystem)
    (w : t) (well_state : WellState) : outcome (t * WellState) :=
  _ ← assert_ (negb (Nat.eqb seg 0)) "seg != 0";
  segment ← iget (segmentSet w) (Z.of_nat seg);
  if bool_decide (Segment.segmentType segment = Segment.VALVE)
     && bool_decide (Segment.status (Segment.valve segment) = Segment.SHUT)
  then
    let linSys := assembleTrivialEq seg (value (eval w seg WQTotal)) (linSys_ w) in
    ws ← set_pressure_drop_friction seg (Fin 0) well_state;
    mret (set_linSys_ linSys w, ws)
  else
    let pressure_equation := getSegmentPressure w seg in
    icd_pressure_drop ←
      match Segment.segmentType segment with
      | Segment.SICD => Ret (pressureDropSpiralICD w seg)
      | Segment.AICD => Ret (pressureDropAutoICD w seg unit_system)
      | Segment.VALVE => Ret (pressureDropValve w seg)
      | Segment.REGULAR => Raise (runtime_error "Segment is not of ICD type")
      end;
    let pressure_equation := minus pressure_equation icd_pressure_drop in
    ws ← set_pressure_drop_friction seg (value icd_pressure_drop) well_state;
    let outlet_segment_index := segmentNumberToIndex (Segment.outletSegment segment) in
    let outlet_pressure := getSegmentPressure w outlet_segment_index in
    let seg_upwind := upwinding_segments_ w seg in
    let linSys := assemblePressureEq seg seg_upwind outlet_segment_index
                    pressure_equation outlet_pressure (linSys_ w)
                    waterPhaseIsActive gasPhaseIsActive in
    mret (set_linSys_ linSys w, ws).

(** *** getFiniteWellResiduals *)

(** The value the loop names [residual], for segment [seg] and equation
    [eq_idx]. *)
Definition finite_residual (w : t) (B_avg : list double) (seg eq_idx : nat)
    : double :=
  if (eq_idx <? numComponents w)%nat
  then mul (abs (residual (linSys_ w) seg eq_idx)) (dget B_avg eq_idx)
  else if (0 <? seg)%nat then abs (residual (linSys_ w) seg eq_idx)
       else Fin 0.

(** The inner loop over the equations of one segment; [false] is the
    early return. *)
Fixpoint finite_eq_loop (w : t) (B_avg : list double) (seg : nat)
    (eqs : list nat) (residuals : list double) : bool * list double :=
  match eqs with
  | [] => (true, residuals)
  | eq_idx :: rest =>
      let residual := finite_residual w B_avg seg eq_idx in
      if isnan residual || isinf residual then (false, residuals)
      else finite_eq_loop w B_avg seg rest
             (if gt residual (dget residuals eq_idx)
              then <[eq_idx := residual]> residuals else residuals)
  end.

(** The outer loop over the segments. *)
Fixpoint finite_seg_loop (w : t) (B_avg : list double) (segs : list nat)
    (residuals : list double) : bool * list double :=
  match segs with
  | [] => (true, residuals)
  | seg :: rest =>
      let r := finite_eq_loop w B_avg seg (seq 0 numWellEq) residuals in
      if r.1 then finite_seg_loop w B_avg rest r.2 else (false, r.2)
  end.

(** What is written to the logger is not modelled. *)
Definition getFiniteWellResiduals (w : t) (B_avg : list double)
    : outcome (bool * list double) :=
  _ ← assert_ (Nat.eqb (length B_avg) (numComponents w))
        "int(B_avg.size() ) == baseif_.numComponents()";
  let residuals := replicate (numWellEq + 1) (Fin 0) in
  let r := finite_seg_loop w B_avg (seq 0 (numberOfSegments w)) residuals in
  if negb r.1 then mret (false, r.2)
  else
    let control_residual := abs (residual (linSys_ w) 0 (numWellEq - 1)) in
    if isnan control_residual || isinf control_residual then mret (false, r.2)
    else mret (true, <[numWellEq := control_residual]> r.2).

(** *** getControlTolerance and getResidualMeasureValue *)

(** Modelled from the spec: the control modes of a well
    ([Well::InjectorCMode] and [Well::ProducerCMode] of opm-common, not
    among the sources), as far as the switch names them, and one value
    for every other mode. *)
Inductive InjectorCMode : Type :=
| I_RATE | I_RESV | I_BHP | I_THP | I_GRUP | I_CMODE_UNDEFINED.

Inductive ProducerCMode : Type :=
| P_ORAT | P_WRAT | P_GRAT | P_LRAT | P_RESV | P_CRAT | P_BHP | P_THP | P_GRUP
| P_NONE | P_CMODE_UNDEFINED.

(** What the tolerance is chosen by: whether the well is an injector and
    whether it is a producer ([baseif_]), and its current control modes
    in the well state. *)
Record WellControl : Type := mkWellControl {
  isInjector : bool;
  isProducer : bool;
  injection_cmode : InjectorCMode;
  production_cmode : ProducerCMode
}.

Definition getControlTolerance (ws : WellControl)
    (tolerance_wells tolerance_pressure_ms_wells : double) : outcome double :=
  let control_tolerance := Fin 0 in
  control_tolerance ←
    (if isInjector ws then
       match injection_cmode ws with
       | I_THP => Ret tolerance_pressure_ms_wells
       | I_BHP => Ret tolerance_wells
       | I_RATE | I_RESV => Ret tolerance_wells
       | I_GRUP => Ret tolerance_wells
       | I_CMODE_UNDEFINED =>
           Raise (runtime_error "Unknown well control control types for well")
       end
     else Ret control_tolerance);
  if isProducer ws then
    match production_cmode ws with
    | P_THP => Ret tolerance_pressure_ms_wells
    | P_BHP => Ret tolerance_wells
    | P_ORAT | P_WRAT | P_GRAT | P_LRAT | P_RESV | P_CRAT => Ret tolerance_wells
    | P_GRUP => Ret tolerance_wells
    | P_NONE | P_CMODE_UNDEFINED =>
        Raise (runtime_error "Unknown well control control types for well")
    end
  else Ret control_tolerance.

(** [if (r > tolerance) { sum += r / tolerance; ++count; }] *)
Definition measure_step (r tolerance : double) (acc : double * nat)
    : double * nat :=
  if gt r tolerance then (add acc.1 (div r tolerance), S acc.2) else acc.

Definition getResidualMeasureValue (ws : WellControl) (residuals : list double)
    (tolerance_wells tolerance_pressure_ms_wells : double) : outcome double :=
  _ ← assert_ (Nat.eqb (length residuals) (numWellEq + 1))
        "int(residuals.size()) == numWellEq + 1";
  let rate_tolerance := tolerance_wells in
  let acc :=
    fold_left (fun acc eq_idx => measure_step (dget residuals eq_idx) rate_tolerance acc)
              (seq 0 (numWellEq - 1)) (Fin 0, 0%nat) in
  let pressure_tolerance := tolerance_pressure_ms_wells in
  let acc := measure_step (dget residuals SPres) pressure_tolerance acc in
  control_tolerance ← getControlTolerance ws tolerance_wells
                        tolerance_pressure_ms_wells;
  let acc := measure_step (dget residuals (SPres + 1)) control_tolerance acc in
  _ ← assert_ (negb (Nat.eqb acc.2 0)) "count != 0";
  mret acc.1.

End Eval.

(** *** The pressure equation of a segment *)

(** What [assembleDefaultPressureEq] and [handleAccelerationPressureLoss]
    call besides and do not define: the operations on the well-equation
    scalar, the velocity head ([mswellhelpers]), the assembler of the
    pressure loss, and the values the assembler of the pressure equation
    takes for its last two arguments when the call leaves them out. *)
Class PressureLossCollaborators (C : Collaborators) : Type := {
  clearDerivatives : EvalWell -> EvalWell;
  velocityHead : double -> EvalWell -> EvalWell -> EvalWell;
  negative : EvalWell -> bool;
  scale : EvalWell -> double -> EvalWell;
  assemblePressureLoss : nat -> nat -> EvalWell -> Equations -> Equations;
  waterEnabled : bool;
  gasEnabled : bool
}.

Section Pressure.
Context `{PressureLossCollaborators}.

(** What the two functions read of the well besides: the rates,
    densities and inlets of [segments_], its hydrostatic and friction
    losses, and the two switches of the well. *)
Record SegmentFlow : Type := mkSegmentFlow {
  mass_rates_ : nat -> EvalWell;
  densities_ : nat -> EvalWell;
  inlets_ : nat -> list nat;
  getHydroPressureLoss : nat -> EvalWell;
  getFrictionPressureLoss : nat -> EvalWell;
  frictionalPressureLossConsidered : bool;
  accelerationalPressureLossConsidered : bool
}.

Definition set_pressure_drop_hydrostatic (seg : nat) (v : double)
    (ws : WellState) : outcome WellState :=
  h ← iset (pressure_drop_hydrostatic (segments ws)) (Z.of_nat seg) v;
  mret (mkWellState
          (mkSegmentState h (pressure_drop_friction (segments ws))
                          (pressure_drop_accel (segments ws)))
          (rest ws)).

Definition set_pressure_drop_accel (seg : nat) (v : double) (ws : WellState)
    : outcome WellState :=
  a ← iset (pressure_drop_accel (segments ws)) (Z.of_nat seg) v;
  mret (mkWellState
          (mkSegmentState (pressure_drop_hydrostatic (segments ws))
                          (pressure_drop_friction (segments ws)) a)
          (rest ws)).

(** The loop over the inlets of the segment. *)
Fixpoint inlet_loop (fl : SegmentFlow) (w : t) (area : double)
    (inlets : list nat) (accelerationPressureLoss : EvalWell)
    : outcome EvalWell :=
  match inlets with
  | [] => mret accelerationPressureLoss
  | inlet :: more =>
      let seg_upwind_inlet := upwinding_segments_ w inlet in
      inlet_segment ← iget (segmentSet w) (Z.of_nat inlet);
      let inlet_area := Segment.crossArea inlet_segment in
      let inlet_density := densities_ fl seg_upwind_inlet in
      let inlet_density :=
        if negb (Nat.eqb inlet seg_upwind_inlet)
        then clearDerivatives inlet_density else inlet_density in
      let inlet_mass_rate := mass_rates_ fl inlet in
      inlet_loop fl w area more
        (minus accelerationPressureLoss
               (velocityHead (max inlet_area area) inlet_mass_rate inlet_density))
  end.

Definition handleAccelerationPressureLoss (seg : nat) (fl : SegmentFlow)
    (w : t) (well_state : WellState) : outcome (t * WellState) :=
  segment ← iget (segmentSet w) (Z.of_nat seg);
  let area := Segment.crossArea segment in
  let mass_rate := mass_rates_ fl seg in
  let seg_upwind := upwinding_segments_ w seg in
  let density := densities_ fl seg_upwind in
  let density :=
    if negb (Nat.eqb seg seg_upwind) then clearDerivatives density else density in
  let accelerationPressureLoss := velocityHead area mass_rate density in
  accelerationPressureLoss ←
    inlet_loop fl w area (inlets_ fl seg) accelerationPressureLoss;
  let sign := if negative mass_rate then Fin 1 else Fin (-1) in
  let accelerationPressureLoss := scale accelerationPressureLoss sign in
  ws ← set_pressure_drop_accel seg (value accelerationPressureLoss) well_state;
  let linSys := assemblePressureLoss seg seg_upwind accelerationPressureLoss
                  (linSys_ w) in
  mret (set_linSys_ linSys w, ws).

Definition assembleDefaultPressureEq (seg : nat) (fl : SegmentFlow)
    (w : t) (well_state : WellState) : outcome (t * WellState) :=
  _ ← assert_ (negb (Nat.eqb seg 0)) "seg != 0";
  let pressure_equation := getSegmentPressure w seg in
  let hydro_pressure_drop := getHydroPressureLoss fl seg in
  ws ← set_pressure_drop_hydrostatic seg (value hydro_pressure_drop) well_state;
  let pressure_equation := minus pressure_equation hydro_pressure_drop in
  r ← (if frictionalPressureLossConsidered fl then
         let friction_pressure_drop := getFrictionPressureLoss fl seg in
         let pressure_equation := minus pressure_equation friction_pressure_drop in
         ws ← set_pressure_drop_friction seg (value friction_pressure_drop) ws;
         mret (pressure_equation, ws)
       else mret (pressure_equation, ws));
  let pressure_equation := (r : EvalWell * WellState).1 in
  let ws := (r : EvalWell * WellState).2 in
  segment ← iget (segmentSet w) (Z.of_nat seg);
  let outlet_segment_index :=
    segmentNumberToIndex (Segment.outletSegment segment) in
  let outlet_pressure := getSegmentPressure w outlet_segment_index in
  let seg_upwind := upwinding_segments_ w seg in
  let linSys := assemblePressureEq seg seg_upwind outlet_segment_index
                  pressure_equation outlet_pressure (linSys_ w)
                  waterEnabled gasEnabled in
  let w := set_linSys_ linSys w in
  if accelerationalPressureLossConsidered fl
  then handleAccelerationPressureLoss seg fl w ws
  else mret (w, ws).

(** The dispatch on the type of the segment; named after the member of
    the evaluator, next to the assembler's function of the same name. *)
Definition evalAssemblePressureEq (seg : nat) (unit_system : UnitSystem)
    (fl : SegmentFlow) (w : t) (well_state : WellState)
    : outcome (t * WellState) :=
  segment ← iget (segmentSet w) (Z.of_nat seg);
  match Segment.segmentType segment with
  | Segment.SICD | Segment.AICD | Segment.VALVE =>
      assembleICDPressureEq seg unit_system w well_state
  | Segment.REGULAR => assembleDefaultPressureEq seg fl w well_state
  end.

End Pressure.

End MultisegmentWellEval.

(** ** Least squares, for the statement of the fit *)

Module LeastSquares.

Import AquiferCarterTracy.

Definition dot (u v : list Q) : Q := Qsum (zip_with Qmult u v).

Definition column (A : Matrix) (j : nat) : list Q :=
  map (fun row => nth j row 0) A.

(** [A x - y] *)
Definition residuals (A : Matrix) (x y : list Q) : list Q :=
  zip_with Qminus (map (fun row => dot row x) A) y.

(** [x] has [cols] entries and solves the least-squares problem
    [min |A x - y|]: the residual is orthogonal to every column of [A]
    (the normal equations). *)
Definition least_squares_solution (A : Matrix) (y : list Q) (cols : nat)
    (x : list Q) : Prop :=
  length x = cols
  /\ Forall (fun j => dot (column A j) (residuals A x y) == 0) (seq 0 cols).

(** The Vandermonde matrix of the samples [X] with [n] columns:
    row [i] is [1, X_i, X_i^2, ...]. *)
Definition vandermonde (X : list Q) (n : nat) : Matrix :=
  map (fun x => map (fun j => Qpower x (Z.of_nat j)) (seq 0 n)) X.

(** A reference solver for the examples: Gauss-Jordan elimination on the
    normal equations [A^T A x = A^T y]. *)
Definition scale (c : Q) (row : list Q) : list Q := map (Qmult c) row.
Definition sub_row (c : Q) (r p : list Q) : list Q :=
  zip_with (fun a b => a - c * b) r p.

Fixpoint eliminate (ks : list nat) (done todo : list (list Q)) : list (list Q) :=
  match ks with
  | [] => done
  | k :: ks' =>
      match List.partition (fun row => negb (Qeq_bool (nth k row 0) 0)) todo with
      | (p :: others, zeros) =>
          let p' := scale (/ nth k p 0) p in
          let f row := sub_row (nth k row 0) row p' in
          eliminate ks' (map f done ++ [p']) (map f (others ++ zeros))
      | ([], _) => eliminate ks' (done ++ [[]]) todo
      end
  end.

Definition normal_equations_solve (A : Matrix) (y : list Q) : list Q :=
  let cols := match A with [] => 0%nat | row :: _ => length row end in
  let augmented :=
    map (fun j => map (fun k => dot (column A j) (column A k)) (seq 0 cols)
                  ++ [dot (column A j) y])
        (seq 0 cols) in
  map (fun row => Qred (nth cols row 0)) (eliminate (seq 0 cols) [] augmented).

End LeastSquares.

(** ** The aquifer: what a step leaves alone, and connections with one
    boundary face each *)

Module Connected.

Import AquiferCarterTracy AquiferCarterTracy.FaceDir.

(** Two aquifers that agree on every member except [W_flux_]. *)
Definition same_but_W_flux_ (s s' : AquiferCarterTracy.t) : Prop :=
  s' = set_W_flux_ (W_flux_ s') s.

(** Two aquifers that agree on every member except [Qai_]. *)
Definition same_but_Qai_ (s s' : AquiferCarterTracy.t) : Prop :=
  s' = set_Qai_ (Qai_ s') s.

(** A face whose tag is one of the six directions. *)
Definition valid_tag (face : nat * Z) : Prop := (0 <= face.2 <= 5)%Z.

(** A face whose tag translates to the direction [dir]. *)
Definition matches (dir : DirEnum) (face : nat * Z) : bool :=
  bool_decide (faceTag_direction face.2 None = Some dir).

Definition matching_faces (grid : Grid) (cell : nat) (dir : DirEnum)
    : list (nat * Z) :=
  List.filter (matches dir) (cell2Faces grid cell).

(** Every connected cell has valid tags and at most one face in the
    direction of its connection record. *)
Definition single_faced (grid : Grid) (connection : AquanconOutput) : Prop :=
  forall idx cell dir,
    global_index connection !! idx = Some cell ->
    reservoir_face_dir connection !! idx = Some dir ->
    Forall valid_tag (cell2Faces grid cell)
    /\ (length (matching_faces grid cell dir) <= 1)%nat.

(** The state of the loop over the connections before connection [k]: the
    denominator is the sum of the areas stored so far, and nothing is
    stored yet from [k] on. *)
Definition before_cell (n k : nat) (st : conn_loop) : Prop :=
  length (areas st) = n /\ length (depths st) = n
  /\ denom_face_areas st == Qsum (take k (areas st))
  /\ (forall i, (k <= i < n)%nat -> areas st !! i = Some 0).

End Connected.

(** ** The aquifer: the inflow into a cell *)

Module Inflow.

Import AquiferCarterTracy.

(** The inflow into [cell]: the values of [Qai] added up over the
    connections whose cell it is. *)
Definition inflow_into (cell : nat) (cells : list nat) (Qai : list Eval) : Q :=
  Qsum (zip_with (fun c q => if Nat.eqb c cell then value q else 0) cells Qai).

(** The same for the derivative with respect to variable [pv]. *)
Definition inflow_derivative (pv cell : nat) (cells : list nat) (Qai : list Eval)
    : Q :=
  Qsum (zip_with (fun c q => if Nat.eqb c cell then derivative q pv else 0)
                 cells Qai).

(** The vectors with one entry per connection all have [n] entries, and
    the fit has two coefficients. *)
Definition sized (n : nat) (s : AquiferCarterTracy.t) : Prop :=
  length (cell_idx_ s) = n /\ length (faceArea_connected_ s) = n
  /\ length (cell_depth_ s) = n /\ length (alphai_ s) = n
  /\ length (rhow_ s) = n /\ length (pressure_previous_ s) = n
  /\ length (pressure_current_ s) = n /\ length (Qai_ s) = n
  /\ length (coeff_ s) = 2%nat.

(** What the loop of [assembleAquiferEq] leaves alone in the aquifer. *)
Definition same_connections (s s' : AquiferCarterTracy.t) : Prop :=
  cell_idx_ s' = cell_idx_ s /\ alphai_ s' = alphai_ s
  /\ cell_depth_ s' = cell_depth_ s /\ faceArea_connected_ s' = faceArea_connected_ s
  /\ pressure_previous_ s' = pressure_previous_ s /\ W_flux_ s' = W_flux_ s
  /\ coeff_ s' = coeff_ s /\ dt_ s' = dt_ s /\ pa0_ s' = pa0_ s.

End Inflow.

(** ** The rules of the group engine as the specification words them *)

Module Specified.

Import WellsGroups.
Module PS := ProductionSpecification.

(** [applyProdGroupControl] on a group, in the words of the
    specification: nothing when [only_group] holds and the group is not
    under [FLD]; otherwise, with [G] the sum over the children of
    [guideRate(only_group)], nothing when [G = 0], and else every child
    with [target' = (target / efficiency) * guideRate_c / G] and
    [only_group = false], and [FLD] afterwards. *)
Definition applyProdGroupControl_group (b : Base) (cs : list WellsGroupInterface)
    (control_mode : PS.ControlMode) (target : Q) (only_group : bool)
    (W : Wells) : outcome (WellsGroupInterface * Wells) :=
  if only_group
     && negb (bool_decide (PS.control_mode_ (production_specification_ b) = PS.FLD))
  then Ret (WellsGroup b cs, W)
  else
    let G := Qsum (map (fun c => productionGuideRate c only_group) cs) in
    if Qeq_bool G 0 then Ret (WellsGroup b cs, W)
    else
      r ← apply_children
            (fun c W' =>
               applyProdGroupControl c control_mode
                 (target / efficicency_factor_ b
                  * productionGuideRate c only_group / G)
                 false W')
            cs W;
      mret (WellsGroup
              (set_prodSpec (PS.set_control_mode_ PS.FLD (production_specification_ b)) b)
              r.1,
            r.2).

(** The children of a group taken one after the other by [apply], each
    on the wells structure the previous one left. *)
Inductive children_applied
    (apply : WellsGroupInterface -> Wells -> outcome (WellsGroupInterface * Wells))
    : list WellsGroupInterface -> Wells -> list WellsGroupInterface -> Wells -> Prop :=
| applied_nil (W : Wells) : children_applied apply [] W [] W
| applied_cons (c c' : WellsGroupInterface) (cs cs' : list WellsGroupInterface)
               (W W1 W2 : Wells) :
    apply c W = Ret (c', W1) ->
    children_applied apply cs W1 cs' W2 ->
    children_applied apply (c :: cs) W (c' :: cs') W2.

(** The nodes of a tree, the root first. *)
Fixpoint subnodes (n : WellsGroupInterface) : list WellsGroupInterface :=
  n :: match n with
       | WellNode _ _ _ _ => []
       | WellsGroup _ cs => flat_map subnodes cs
       end.

Section totals.
Variable report : WellsGroupInterface -> outcome WellPhasesSummed.t.

(** The reports of the children added up, from [acc] on. *)
Fixpoint totals_from (cs : list WellsGroupInterface) (acc : WellPhasesSummed.t)
    : outcome WellPhasesSummed.t :=
  match cs with
  | [] => Ret acc
  | c :: rest =>
      cur ← report c;
      totals_from rest (WellPhasesSummed.plus_eq acc cur)
  end.
End totals.

(** The rates a node reports to its parent: a well its own rates, as
    injector or as producer; a group the rates its children report,
    added up. *)
Fixpoint reported (W : Wells) (reservoirrates surfacerates : list Q)
    (n : WellsGroupInterface) : outcome WellPhasesSummed.t :=
  match n with
  | WellNode b self _ _ =>
      report_rates n W (num_phases (phase_usage_ b)) self reservoirrates surfacerates
        (seq 0 (num_phases (phase_usage_ b))) WellPhasesSummed.zero
  | WellsGroup _ cs =>
      tot ← totals_from (reported W reservoirrates surfacerates) cs
              WellPhasesSummed.zero;
      mret (WellPhasesSummed.plus_eq WellPhasesSummed.zero tot)
  end.

(** The aggregated rates of the children of a node. *)
Definition child_totals (W : Wells) (reservoirrates surfacerates : list Q)
    (n : WellsGroupInterface) : outcome WellPhasesSummed.t :=
  totals_from (reported W reservoirrates surfacerates) (children_of n)
    WellPhasesSummed.zero.

(** No mode of the node other than its active one has a set target that
    the aggregated rate of the children exceeds: an injection rate is
    compared as it is, a production rate by its absolute value. *)
Definition within_targets (W : Wells) (reservoirrates surfacerates : list Q)
    (n : WellsGroupInterface) : Prop :=
  exists tot,
    child_totals W reservoirrates surfacerates n = Ret tot
    /\ (forall mode target_rate my_rate,
          In mode injection_modes ->
          InjectionSpecification.control_mode_ (injSpec n) <> mode ->
          getTarget_inj n mode = Ret target_rate ->
          0 <= target_rate ->
          rateByMode_inj (phaseUsage n)
            (vget (WellPhasesSummed.res_inj_rates tot))
            (vget (WellPhasesSummed.surf_inj_rates tot)) mode = Ret my_rate ->
          my_rate <= target_rate)
    /\ (forall mode target_rate my_rate,
          In mode production_modes ->
          PS.control_mode_ (prodSpec n) <> mode ->
          getTarget_prod n mode = Ret target_rate ->
          0 <= target_rate ->
          rateByMode_prod (phaseUsage n)
            (vget (WellPhasesSummed.res_prod_rates tot))
            (vget (WellPhasesSummed.surf_prod_rates tot)) mode = Ret my_rate ->
          Qabs my_rate <= target_rate /\ my_rate <= target_rate).

(** What a call of [conditionsMet] that returns true has done: nothing
    to the tree and to the wells; what it reports from a fresh
    [summed_phases] is [reported]; and every node is within its targets. *)
Definition met_unchanged (well_bhp reservoirrates surfacerates : list Q)
    (n : WellsGroupInterface) : Prop :=
  forall W s n' W' s',
    conditionsMet n W well_bhp reservoirrates surfacerates s = Ret (true, n', W', s') ->
    n' = n /\ W' = W
    /\ (s = WellPhasesSummed.zero -> reported W reservoirrates surfacerates n = Ret s')
    /\ Forall (within_targets W reservoirrates surfacerates) (subnodes n).

End Specified.

(** ** The rules of the convergence report *)

Module Classified.

Import IEEE MultisegmentWellEval.

Section rule.
Context `{Collaborators}.

(** The residual of segment [seg] that competes for the maximum of
    equation [eq_idx]: scaled by [B_avg] for a mass equation, as it is
    for the pressure equation of a segment other than the top one. *)
Definition candidate (w : t) (B_avg : list double) (eq_idx seg : nat)
    : option double :=
  if (eq_idx <? numComponents w)%nat
  then Some (mul (dget B_avg eq_idx) (abs_residual w seg eq_idx))
  else if (0 <? seg)%nat then Some (abs_residual w seg eq_idx) else None.

(** The failure of equation [eq_idx] with severity [sev]: a mass
    balance failure of that component, or a pressure failure. *)
Definition failure (w : t) (eq_idx : nat) (sev : CR.Severity) : CR.WellFailure :=
  if (eq_idx <? numComponents w)%nat
  then CR.mkWellFailure CR.MassBalance sev (Z.of_nat eq_idx) (name w)
  else CR.mkWellFailure CR.Pressure sev (-1) (name w).

(** The failure set for equation [eq_idx] whose maximum [r] is not NaN.
    Too large is, for a mass equation, a value above
    [max_residual_allowed], and for the pressure equation an infinite
    value.  Below that, a value above the tolerance is [Normal] when the
    tolerances are not relaxed, and a value above the relaxed tolerance
    is [Normal] whether they are or not; any other value sets no
    failure. *)
Definition classified (w : t)
    (max_residual_allowed tolerance_wells relaxed_inner_tolerance_flow_ms_well
     tolerance_pressure_ms_wells relaxed_inner_tolerance_pressure_ms_well : double)
    (relax_tolerance : bool) (eq_idx : nat) (r : double)
    (set : option CR.WellFailure) : Prop :=
  let mass := (eq_idx <? numComponents w)%nat in
  let tolerance := if mass then tolerance_wells else tolerance_pressure_ms_wells in
  let relaxed := if mass then relaxed_inner_tolerance_flow_ms_well
                 else relaxed_inner_tolerance_pressure_ms_well in
  let too_large := if mass then gt r max_residual_allowed else isinf r in
  (isnan r = false -> too_large = true ->
   set = Some (failure w eq_idx CR.TooLarge))
  /\ (isnan r = false -> too_large = false -> relax_tolerance = false ->
      gt r tolerance = true -> set = Some (failure w eq_idx CR.Normal))
  /\ (isnan r = false -> too_large = false ->
      gt r relaxed = true -> set = Some (failure w eq_idx CR.Normal))
  /\ (isnan r = false -> too_large = false ->
      relax_tolerance = true \/ gt r tolerance = false ->
      gt r relaxed = false -> set = None).

(** None of the residuals that compete for a maximum is NaN. *)
Definition no_nan_residual (w : t) (B_avg : list double) : Prop :=
  forall eq_idx seg x,
    (eq_idx < numWellEq)%nat -> (seg < numberOfSegments w)%nat ->
    candidate w B_avg eq_idx seg = Some x -> isnan x = false.
End rule.

End Classified.

(** ** The finite residuals and their measure *)

Module Measured.
Import IEEE MultisegmentWellEval.

(** Neither NaN nor an infinity. *)
Definition isfinite (d : double) : bool := negb (isnan d || isinf d).

(** The same double: the same special value, or equal finite values. *)
Definition same_value (a b : double) : Prop :=
  match a, b with
  | NaN, NaN => True
  | Inf s, Inf u => s = u
  | Fin x, Fin y => x == y
  | _, _ => False
  end.

Section rule.
Context `{Collaborators}.

(** One comparison of the loop of [getFiniteWellResiduals]. *)
Definition kept (w : t) (B_avg : list double) (eq_idx : nat) (m : double)
    (seg : nat) : double :=
  if gt (finite_residual w B_avg seg eq_idx) m
  then finite_residual w B_avg seg eq_idx else m.
End rule.

(** Plus infinity, or a finite value above one. *)
Definition above_one (d : double) : Prop :=
  d = Inf false \/ exists q, d = Fin q /\ 1 < q.

(** Nothing counted and the sum zero, or something counted and the sum
    above one. *)
Definition measured (acc : double * nat) : Prop :=
  (acc.2 = 0%nat /\ acc.1 = Fin 0) \/ (acc.2 <> 0%nat /\ above_one acc.1).

End Measured.

(** ** What assembling a pressure equation leaves alone *)

Module Framed.
Import IEEE MultisegmentWellEval.

Section rule.
Context `{Collaborators}.

(** Two states of a well that agree but for the pressure drops of
    segment [seg]. *)
Definition differ_at (seg : nat) (ws ws' : WellState) : Prop :=
  rest ws' = rest ws
  /\ length (pressure_drop_hydrostatic (segments ws'))
     = length (pressure_drop_hydrostatic (segments ws))
  /\ length (pressure_drop_friction (segments ws'))
     = length (pressure_drop_friction (segments ws))
  /\ length (pressure_drop_accel (segments ws'))
     = length (pressure_drop_accel (segments ws))
  /\ forall j, j <> seg ->
       pressure_drop_hydrostatic (segments ws') !! j
       = pressure_drop_hydrostatic (segments ws) !! j
       /\ pressure_drop_friction (segments ws') !! j
          = pressure_drop_friction (segments ws) !! j
       /\ pressure_drop_accel (segments ws') !! j
          = pressure_drop_accel (segments ws) !! j.

(** The evaluator [w'] is [w] with another linear system. *)
Definition relinked (w w' : t) : Prop := w' = set_linSys_ (linSys_ w') w.
End rule.

End Framed.

(** ** The wells of a tree and the names of the modes *)

Module Tree.

Import WellsGroups.
Module PS := ProductionSpecification.
Module IS := InjectionSpecification.

(** The wells below a node, from left to right; a well is its own. *)
Fixpoint wells (n : WellsGroupInterface) : list WellsGroupInterface :=
  match n with
  | WellNode _ _ _ _ => [n]
  | WellsGroup _ cs => flat_map wells cs
  end.

(** A node that [applyProdGroupControls] passes through: a well, or a
    group under [FLD] or [NONE]. *)
Definition passes_production (m : WellsGroupInterface) : Prop :=
  isLeafNode m = true
  \/ PS.control_mode_ (prodSpec m) = PS.FLD
  \/ PS.control_mode_ (prodSpec m) = PS.NONE.

(** A node that [applyInjGroupControls] passes through or stops at
    without a change: a well, or a group under [FLD], [NONE], [VREP] or
    [REIN]. *)
Definition passes_injection (m : WellsGroupInterface) : Prop :=
  isLeafNode m = true
  \/ IS.control_mode_ (injSpec m) = IS.FLD
  \/ IS.control_mode_ (injSpec m) = IS.NONE
  \/ IS.control_mode_ (injSpec m) = IS.VREP
  \/ IS.control_mode_ (injSpec m) = IS.REIN.

Import well_controls.

(** The slot the group control of a well goes to, and the controls of
    the well afterwards: a new last slot when the well has none for the
    group, the slot of the group overwritten otherwise. *)
Definition group_slot (gci : Z) (c : WellControls) : Z :=
  if (gci <? 0)%Z then Z.of_nat (length (controls c)) else gci.

Definition with_group_control (gci : Z) (k : control) (alq_overwrite : Q)
    (c : WellControls) : list control :=
  if (gci <? 0)%Z then controls c ++ [k]
  else <[Z.to_nat gci :=
           mkControl (well_controls.type k) (target k) alq_overwrite
                     (match controls c !! Z.to_nat gci with
                      | Some old => vfp old
                      | None => vfp k
                      end)
                     (distr k)]> (controls c).


(** The name of a production control mode, of an injection control mode
    and of a procedure, as the schedule writes them. *)
Definition production_mode_name (m : PS.ControlMode) : string :=
  match m with
  | PS.NONE => "NONE" | PS.ORAT => "ORAT" | PS.WRAT => "WRAT"
  | PS.GRAT => "GRAT" | PS.LRAT => "LRAT" | PS.CRAT => "CRAT"
  | PS.RESV => "RESV" | PS.PRBL => "PRBL" | PS.BHP => "BHP"
  | PS.THP => "THP" | PS.GRUP => "GRUP" | PS.FLD => "FLD"
  end.

Definition injection_mode_name (m : IS.ControlMode) : string :=
  match m with
  | IS.NONE => "NONE" | IS.RATE => "RATE" | IS.RESV => "RESV"
  | IS.BHP => "BHP" | IS.THP => "THP" | IS.REIN => "REIN"
  | IS.VREP => "VREP" | IS.GRUP => "GRUP" | IS.FLD => "FLD"
  end.

Definition procedure_name (p : PS.Procedure) : string :=
  match p with
  | PS.NONE_P => "NONE" | PS.RATE => "RATE" | PS.WELL => "WELL"
  end.


(** The index of the well of a leaf in the wells structure. *)
Definition self_index (n : WellsGroupInterface) : nat :=
  match n with
  | WellNode _ self _ _ => self
  | WellsGroup _ _ => 0%nat
  end.




(** The current control of well [self]. *)
Definition current_control (W : Wells) (self : nat) : option control :=
  match ctrls W !! self with
  | Some c => controls c !! Z.to_nat (current c)
  | None => None
  end.

(** A child that a reinjection target can be handed to: a well whose
    controls are there, and either an injector whose group slot, if it
    has one, is one of its controls, or a producer whose injection guide
    rate is zero. *)
Definition accepts_injection (W : Wells) (n : WellsGroupInterface) : Prop :=
  exists b self gci shut c,
    n = WellNode b self gci shut
    /\ ctrls W !! self = Some c
    /\ ((wells_type W !! self = Some INJECTOR
         /\ (gci < Z.of_nat (length (controls c)))%Z)
        \/ (wells_type W !! self = Some PRODUCER
            /\ injectionGuideRate n true == 0)).

(** A well that is an injector under group control. *)
Definition group_injector (W : Wells) (n : WellsGroupInterface) : bool :=
  negb (individualControl n)
  && bool_decide (wells_type W !! self_index n = Some INJECTOR).

End Tree.

(** ** Inputs of the examples *)

Module Examples.

Import AquiferCarterTracy AquiferCarterTracy.FaceDir.

(** The pressure of a cell as a primary variable: its derivative with
    respect to variable 0 is one. *)
Definition pressure_variable (p : Q) : Eval :=
  mkEval p (fun k => if Nat.eqb k 0 then 1 else 0).

(** An aquifer with one connection, [beta = 1], [Tc = 100], the fitted
    line [pD = 0 + 0.5 tD], no cumulative flux yet, and [Δp_ai = 1]. *)
Definition pulse_aquifer : AquiferCarterTracy.t :=
  AquiferCarterTracy.mk 1 1 1 3
    [0%nat] [4] [1000]
    [pressure_variable 1] [pressure_variable 1] [constant 0] [constant 1000] [1]
    100 1 1000 1 1 1 1 1 1 1
    [0; 10] [0; 5]
    10 2 (981 # 100) false (constant 0) [0; 1 # 2].

Definition pulse_timer : SimulatorTimerInterface :=
  Build_SimulatorTimerInterface 10 0.

(** An aquifer as the constructor has it before [initialize_connections]:
    the vectors are empty. *)
Definition fresh_aquifer : AquiferCarterTracy.t :=
  AquiferCarterTracy.mk 1 1 1 3
    [] [] [] [] [] [] [] []
    100 1 1000 1 1 1 1 1 1 1
    [0; 10] [0; 5]
    0 2 (981 # 100) false (constant 0) [].

(** Two cells on the X- boundary.  The X- side of cell 0 lies on a fault
    and is split in two faces (faces 0 and 1, areas 1 and 3); cell 1 has
    one X- face (face 7, area 4).  Every other face has area 2. *)
Definition faulted_grid : Grid :=
  Build_Grid
    (fun cell =>
       match cell with
       | 0%nat => [(0%nat, 0%Z); (1%nat, 0%Z); (2%nat, 1%Z); (3%nat, 2%Z);
                   (4%nat, 3%Z); (5%nat, 4%Z); (6%nat, 5%Z)]
       | 1%nat => [(7%nat, 0%Z); (2%nat, 1%Z); (8%nat, 2%Z); (9%nat, 3%Z);
                   (10%nat, 4%Z); (11%nat, 5%Z)]
       | _ => []
       end)
    (fun face =>
       match face with
       | 0%nat => 1
       | 1%nat => 3
       | 7%nat => 4
       | _ => 2
       end)
    (fun _ => (0, 0, 1000)).

Definition faulted_connection : AquanconOutput :=
  Build_AquanconOutput [0; 1]%nat [1; 1] [1; 1] [XMinus; XMinus].

(** The same two cells away from the fault: each has one X- face (face 0
    of area 1 and face 7 of area 4). *)
Definition boundary_grid : Grid :=
  Build_Grid
    (fun cell =>
       match cell with
       | 0%nat => [(0%nat, 0%Z); (2%nat, 1%Z); (3%nat, 2%Z);
                   (4%nat, 3%Z); (5%nat, 4%Z); (6%nat, 5%Z)]
       | 1%nat => [(7%nat, 0%Z); (2%nat, 1%Z); (8%nat, 2%Z); (9%nat, 3%Z);
                   (10%nat, 4%Z); (11%nat, 5%Z)]
       | _ => []
       end)
    (faceArea faulted_grid)
    (fun _ => (0, 0, 1000)).

(** A simulator in which every cell has the water pressure 1, as a
    primary variable, the water density 1000 and the temperature 300,
    on the grid with the fault; the water viscosity is 100. *)
Definition pulse_simulator : Simulator :=
  Build_Simulator
    (fun _ => Build_FluidState (fun _ => pressure_variable 1)
                               (fun _ => constant 1000)
                               (fun _ => constant 300))
    faulted_grid
    (fun _ _ _ => constant 100).

(** A linear system whose entries are all zero. *)
Definition empty_system : Linearizer :=
  mkLinearizer (fun _ _ _ _ => 0) (fun _ _ => 0).

(** An aquifer with two connections of equal area fractions, both cells
    at the datum depth. *)
Definition two_cell_aquifer : AquiferCarterTracy.t :=
  AquiferCarterTracy.mk 1 1 1 3
    [0%nat; 1%nat] [4; 4] [1000; 1000]
    [constant 0; constant 0] [constant 0; constant 0] [constant 0; constant 0]
    [constant 0; constant 0] [1 # 2; 1 # 2]
    100 1 1000 1 1 1 1 1 1 1
    [0; 10] [0; 5]
    10 2 (981 # 100) true (constant 0) [0; 1 # 2].

(** *** A group of two producers *)

Import WellsGroups.
Module PS := ProductionSpecification.
Module IS := InjectionSpecification.

(** Water, oil and gas, at positions 0, 1 and 2. *)
Definition three_phases : PhaseUsage :=
  mkPhaseUsage 3 (fun _ => true)
    (fun p => match p with
              | BlackoilPhases.Aqua => 0
              | BlackoilPhases.Liquid => 1
              | BlackoilPhases.Vapour => 2
              end)%nat.

(** No limit is set: every rate limit is [-1]. *)
Definition no_production (mode : PS.ControlMode) (guide : Q) : PS.t :=
  PS.mk mode PS.NONE_P (-1) (-1) (-1) (-1) (-1) (-1) guide.
Definition no_injection : IS.t :=
  IS.mk IS.WATER IS.NONE (-1) (-1) (-1) (-1) (-1) 0.

Definition producer (name : string) (self_index : nat) (guide : Q)
    (individual_control : bool) : WellsGroupInterface :=
  WellNode (mkBase name 1 (no_production PS.BHP guide) no_injection three_phases
                   false individual_control)
           self_index (-1) false.

(** A group of the two producers [P1] and [P2] with equal guide rates,
    an oil-rate limit of 100, and the given control mode and procedure. *)
Definition field (mode : PS.ControlMode) (procedure : PS.Procedure)
    : WellsGroupInterface :=
  WellsGroup
    (mkBase "FIELD" 1
            (PS.mk mode procedure 100 (-1) (-1) (-1) (-1) (-1) (-1))
            no_injection three_phases false true)
    [producer "P1" 0 1 true; producer "P2" 1 1 true].

(** The same group under [FLD] control, with [P1] under group control and
    [P2] under individual control. *)
Definition field_mixed : WellsGroupInterface :=
  WellsGroup
    (mkBase "FIELD" 1
            (PS.mk PS.FLD PS.RATE 100 (-1) (-1) (-1) (-1) (-1) (-1))
            no_injection three_phases false true)
    [producer "P1" 0 1 false; producer "P2" 1 1 true].

(** Both wells are open producers on a bottom-hole-pressure control with
    target 100. *)
Definition two_producers : Wells :=
  mkWells [PRODUCER; PRODUCER]
    [mkWellControls 0 true [mkControl well_controls.BHP 100 0 0 [0; 0; 0]];
     mkWellControls 0 true [mkControl well_controls.BHP 100 0 0 [0; 0; 0]]].

Definition bhp_150 : list Q := [150; 150].

(** The target of the last control of every well. *)
Definition last_targets (W : Wells) : list Q :=
  map (fun c => match last (controls c) with
                | Some k => target k
                | None => 0
                end)
      (ctrls W).


(** A water injector without a group slot. *)
Definition injector (name : string) (self_index : nat) (guide : Q)
    (individual_control : bool) : WellsGroupInterface :=
  WellNode (mkBase name 1 (no_production PS.NONE 0)
                   (IS.mk IS.WATER IS.GRUP (-1) (-1) (-1) (-1) (-1) guide)
                   three_phases false individual_control)
           self_index (-1) false.

(** A group that replaces the voidage in full, with the injector [I1]
    under group control and the producer [P1]. *)
Definition voidage_group : WellsGroupInterface :=
  WellsGroup
    (mkBase "FIELD" 1 (no_production PS.NONE 0)
            (IS.mk IS.WATER IS.VREP (-1) (-1) (-1) 0 1 0)
            three_phases false true)
    [injector "I1" 0 1 false; producer "P1" 1 1 true].

Definition injector_and_producer : Wells :=
  mkWells [INJECTOR; PRODUCER]
    [mkWellControls 0 true [mkControl well_controls.BHP 100 0 0 [0; 0; 0]];
     mkWellControls 0 true [mkControl well_controls.BHP 100 0 0 [0; 0; 0]]].

(** [I1] injects 40 of water; [P1] produces 10, 30 and 10 of the three
    phases: 50 in all. *)
Definition rates_voidage : list Q := [40; 0; 0; -10; -30; -10].

(** Rates per well and phase; production is negative.  [P1] produces 80
    of oil and [P2] 30. *)
Definition rates_80_30 : list Q := [0; -80; 0; 0; -30; 0].
(** [P1] produces 50 of oil and [P2] 30. *)
Definition rates_50_30 : list Q := [0; -50; 0; 0; -30; 0].

(** *** A multi-segment well whose assembler keeps a log *)

Import IEEE MultisegmentWellEval.

(** The calls of the assembler, in the order they were made, next to
    the residual the convergence check reads. *)
Inductive AssembleCall : Type :=
| TrivialEq (seg : nat) (value : double)
| PressureEq (seg seg_upwind outlet_segment_index : nat)
             (pressure_equation outlet_pressure : double)
             (wat gas : bool).

Record LoggedEquations : Type := mkLogged {
  logged_residual : nat -> nat -> double;
  calls : list AssembleCall
}.

(** Three components and the pressure; scalars without derivatives; no
    failure of the control equation. *)
Definition logged : Collaborators := {|
  EvalWell := double;
  value := fun e => e;
  minus := sub;
  Equations := LoggedEquations;
  residual := logged_residual;
  assembleTrivialEq := fun seg v e =>
    mkLogged (logged_residual e) (calls e ++ [TrivialEq seg v]);
  assemblePressureEq := fun seg up out pe po e wat gas =>
    mkLogged (logged_residual e) (calls e ++ [PressureEq seg up out pe po wat gas]);
  numWellEq := 4;
  WQTotal := 0;
  SPres := 3;
  UnitSystem := unit;
  WellStateRest := unit;
  segmentNumberToIndex := fun n => Z.to_nat (n - 1);
  waterPhaseIsActive := true;
  gasPhaseIsActive := true;
  checkConvergenceControlEq := fun _ _ _ report => report
|}.

Definition regular (number outlet : Z) : Segment.t :=
  Segment.Build_t number outlet (Fin 1) Segment.REGULAR
    (Segment.Build_Valve Segment.OPEN).

(** Four segments in a row; segment 3 (number 4) is a valve, shut. *)
Definition valve_segments : list Segment.t :=
  [regular 1 0; regular 2 1; regular 3 2;
   Segment.Build_t 4 3 (Fin 1) Segment.VALVE (Segment.Build_Valve Segment.SHUT)].

(** The well: the total rate of every segment is 5 and its pressure
    200; the residual is zero but for the pressure equation of
    segment 1, which is [10^10]. *)
Definition valve_well : @MultisegmentWellEval.t logged :=
  @MultisegmentWellEval.mk logged "W1" 3 valve_segments
    (mkLogged (fun seg eq_idx =>
                 if Nat.eqb seg 1 && Nat.eqb eq_idx 3 then Fin (10 ^ 10) else Fin 0)
              [])
    (fun seg var => Fin 5)
    (fun seg => Fin 200)
    (fun seg => Fin 7) (fun seg _ => Fin 8) (fun seg => Fin 9)
    (fun seg => seg).

Definition drops_1 : list double := [Fin 1; Fin 1; Fin 1; Fin 1].

Definition valve_well_state : @WellState logged :=
  @mkWellState logged (mkSegmentState drops_1 drops_1 drops_1) tt.

(** *** Residuals that are not finite, and their measure *)

(** The well of [valve_well] with a residual that is NaN: the first
    mass equation of segment 1. *)
Definition nan_well : @MultisegmentWellEval.t logged :=
  @MultisegmentWellEval.mk logged "W1" 3 valve_segments
    (mkLogged (fun seg eq_idx =>
                 if Nat.eqb seg 1 && Nat.eqb eq_idx 0 then NaN else Fin 0)
              [])
    (fun seg var => Fin 5)
    (fun seg => Fin 200)
    (fun seg => Fin 7) (fun seg _ => Fin 8) (fun seg => Fin 9)
    (fun seg => seg).

(** A producer on an oil rate. *)
Definition producer_on_rate : WellControl :=
  mkWellControl false true I_CMODE_UNDEFINED P_ORAT.

(** The residuals of [valve_well]: the pressure residual is [10^10]. *)
Definition residuals_high : list double :=
  [Fin 0; Fin 0; Fin 0; Fin (10 ^ 10); Fin 0].

Definition residuals_zero : list double :=
  [Fin 0; Fin 0; Fin 0; Fin 0; Fin 0].

(** *** The pressure loss of the logged well *)

(** Scalars without derivatives; the velocity head of a rate [m] at
    density [rho] through the area [a] is [m^2 / (2 a^2 rho)]; the log
    does not keep the pressure loss. *)
Definition logged_loss : PressureLossCollaborators logged :=
  @Build_PressureLossCollaborators logged
    (fun e : double => e)
    (fun area m rho : double =>
       div (mul (Fin (1 # 2)) (mul m m)) (mul (mul area area) rho))
    (fun m : double => lt m (Fin 0))
    mul
    (fun seg up (loss : double) (e : LoggedEquations) => e)
    true true.

(** A producing well: every segment carries the rate [-5] at density
    800 and has the next segment as its inlet; the hydrostatic loss of a
    segment is 2 and its friction loss 3, and both the friction and the
    acceleration are considered. *)
Definition producing_flow : @SegmentFlow logged :=
  @mkSegmentFlow logged
    (fun seg => Fin (-5)) (fun seg => Fin 800)
    (fun seg => if (seg <? 3)%nat then [S seg] else [])
    (fun seg => Fin 2) (fun seg => Fin 3) true true.

End Examples.

(** * Properties *)

(** ** Outcomes, comparisons and sums *)

Lemma bind_Ret {A B : Type} (f : A -> outcome B) (a : A) : (Ret a ≫= f) = f a.
Proof. reflexivity. Qed.

Lemma bind_Ret_inv {A B : Type} (c : outcome A) (f : A -> outcome B) (b : B) :
  (c ≫= f) = Ret b -> exists a, c = Ret a /\ f a = Ret b.
Proof. destruct c as [a | e]; [eauto | discriminate]. Qed.

Ltac simpl_ret H := cbv [mret outcome_ret mbind outcome_bind] in H.

Lemma at_Some {A : Type} (v : list A) (i : nat) (x : A) :
  v !! i = Some x -> at_ v i = Ret x.
Proof. unfold at_. intros ->. reflexivity. Qed.

Lemma at_put_lt {A : Type} (v : list A) (i : nat) (x : A) :
  (i < length v)%nat -> at_put v i x = Ret (<[i := x]> v).
Proof. unfold at_put. intros Hi. destruct (decide (i < length v)%nat); [reflexivity | lia]. Qed.

Lemma Qltb_lt (a b : Q) : Qltb a b = true <-> a < b.
Proof.
  unfold Qltb. rewrite negb_true_iff.
  destruct (Qle_bool b a) eqn:E.
  - apply Qle_bool_iff in E. split; [discriminate | intros; lra].
  - split; [intros _ | reflexivity].
    destruct (Qlt_le_dec a b) as [Hlt | Hle]; [exact Hlt |].
    apply Qle_bool_iff in Hle. congruence.
Qed.

Lemma Qltb_ge (a b : Q) : Qltb a b = false <-> b <= a.
Proof.
  unfold Qltb. rewrite negb_false_iff. apply Qle_bool_iff.
Qed.

Lemma nth_map_seq {A : Type} (f : nat -> A) (n i : nat) (d : A) :
  (i < n)%nat -> nth i (map f (seq 0 n)) d = f i.
Proof.
  intros Hi. rewrite nth_lookup, list_lookup_fmap, lookup_seq_lt by exact Hi.
  reflexivity.
Qed.

Lemma fold_left_pointwise {A B : Type} (f g : A -> B -> A) (l : list B) (a : A) :
  (forall x y, f x y = g x y) -> fold_left f l a = fold_left g l a.
Proof.
  intros Hfg. revert a. induction l as [| y l IH]; intros a; cbn.
  - reflexivity.
  - rewrite Hfg. apply IH.
Qed.

Lemma Qsum_app (l1 l2 : list Q) : Qsum (l1 ++ l2) == Qsum l1 + Qsum l2.
Proof.
  induction l1 as [| x l1 IH]; simpl.
  - ring.
  - rewrite IH. ring.
Qed.

Lemma Qsum_scale (c : Q) (l : list Q) :
  Qsum (map (fun x => x * c) l) == Qsum l * c.
Proof.
  induction l as [| x l IH]; simpl.
  - ring.
  - rewrite IH. ring.
Qed.

Lemma Qsum_cons (x : Q) (l : list Q) : Qsum (x :: l) = x + Qsum l.
Proof. reflexivity. Qed.

Lemma Qsum_take_S (l : list Q) (k : nat) (x : Q) :
  l !! k = Some x -> Qsum (take (S k) l) == Qsum (take k l) + x.
Proof.
  intros Hk. rewrite (take_S_r _ _ _ Hk), Qsum_app. cbn. ring.
Qed.

Lemma length_resize {A : Type} (n : nat) (x : A) (v : list A) :
  length (resize n x v) = n.
Proof.
  unfold resize. rewrite length_app, length_take, length_replicate. lia.
Qed.

Lemma Qsum_map_div (d : Q) (l : list Q) :
  Qsum (map (fun a => a / d) l) == Qsum l / d.
Proof.
  induction l as [| a l IH].
  - cbn. unfold Qdiv. ring.
  - cbn [map]. rewrite !Qsum_cons, IH. unfold Qdiv. ring.
Qed.

Lemma Forall2_map_div (d total : Q) (l : list Q) :
  d == total ->
  Forall2 (fun alpha a => alpha == a / total) (map (fun a => a / d) l) l.
Proof.
  intros Hd. induction l as [| a l IH]; cbn [map]; constructor.
  - rewrite Hd. reflexivity.
  - exact IH.
Qed.

(** ** AquiferCarterTracy *)

Module AquiferCarterTracyFacts.

Import AquiferCarterTracy.
Import AquiferCarterTracy.FaceDir.
Import Connected.

Lemma same_but_W_flux_fields (s s' : t) :
  same_but_W_flux_ s s' ->
  cell_idx_ s' = cell_idx_ s /\ faceArea_connected_ s' = faceArea_connected_ s /\
  cell_depth_ s' = cell_depth_ s /\ pressure_previous_ s' = pressure_previous_ s /\
  pressure_current_ s' = pressure_current_ s /\ Qai_ s' = Qai_ s /\
  rhow_ s' = rhow_ s /\ alphai_ s' = alphai_ s /\ coeff_ s' = coeff_ s /\
  pa0_ s' = pa0_ s /\ dt_ s' = dt_ s /\ mu_w_ s' = mu_w_ s.
Proof. unfold same_but_W_flux_. intros ->. repeat split. Qed.

Section after_step.
Variable dt : Q.

Let step (W Qai : Eval) : Eval := add W (mul_scalar Qai dt).

Lemma fold_step_value (Qai : list Eval) (W : Eval) :
  value (fold_left step Qai W)
  == value W + Qsum (map (fun q => value q * dt) Qai).
Proof.
  revert W. induction Qai as [| q Qai IH]; intros W; simpl.
  - ring.
  - rewrite IH. simpl. ring.
Qed.

Lemma fold_step_derivative (k : nat) (Qai : list Eval) (W : Eval) :
  derivative (fold_left step Qai W) k
  == derivative W k + Qsum (map (fun q => derivative q k * dt) Qai).
Proof.
  revert W. induction Qai as [| q Qai IH]; intros W; simpl.
  - ring.
  - rewrite IH. simpl. ring.
Qed.
End after_step.

(** C9. [after_time_step] adds to the cumulative flux the sum over the
    connections of [Qai_[i]] times the current step length, in the value
    and in every derivative, and leaves every other member of the aquifer
    as it was. *)
Theorem after_time_step_accumulates (timer : SimulatorTimerInterface) (s : t) :
  let dt := currentStepLength timer in
  let s' := after_time_step timer s in
  value (W_flux_ s')
    == value (W_flux_ s) + Qsum (map (fun Qai => value Qai * dt) (Qai_ s))
  /\ value (W_flux_ s')
    == value (W_flux_ s) + Qsum (map value (Qai_ s)) * dt
  /\ (forall k,
        derivative (W_flux_ s') k
        == derivative (W_flux_ s) k
           + Qsum (map (fun Qai => derivative Qai k * dt) (Qai_ s)))
  /\ same_but_W_flux_ s s'.
Proof.
  intros dt s'. subst s'. unfold after_time_step. simpl.
  split; [apply fold_step_value |].
  split.
  - rewrite fold_step_value. fold dt.
    rewrite <- (Qsum_scale dt (map value (Qai_ s))).
    rewrite map_map. reflexivity.
  - split; [intros k; apply fold_step_derivative | reflexivity].
Qed.

(** C1. At a connection index that is in range, [calculate_inflow_rate]
    stores in [Qai_[i]] the value [alpha_i * (a - b * (p_cur - p_prev))]
    with the [a] and [b] of the Carter-Tracy formulas, its derivatives are
    those of the current pressure scaled by [- alpha_i * b], and nothing
    else of the aquifer changes. *)
Theorem calculate_inflow_rate_spec (s : t) (timer : SimulatorTimerInterface)
    (i : nat) (alpha depth c0 c1 : Q) (pcur pprev rho : Eval) :
  alphai_ s !! i = Some alpha ->
  pressure_current_ s !! i = Some pcur ->
  pressure_previous_ s !! i = Some pprev ->
  rhow_ s !! i = Some rho ->
  cell_depth_ s !! i = Some depth ->
  coeff_ s !! 0%nat = Some c0 ->
  coeff_ s !! 1%nat = Some c1 ->
  (i < length (Qai_ s))%nat ->
  let Tc := time_constant s in
  let beta := aquifer_influx_constant s in
  let t := simulationTimeElapsed timer in
  let dt := currentStepLength timer in
  let tD := t / Tc in
  let PItd := c0 + c1 * ((t + dt) / Tc) in
  let PItd' := c1 in
  let dpai_i := pa0_ s + value rho * gravity_ s * (depth - d0_ s) - value pprev in
  let a := (1 / Tc) * (beta * dpai_i - value (W_flux_ s) * PItd') / (PItd - tD * PItd') in
  let b := beta / (Tc * (PItd - tD * PItd')) in
  exists s' q,
    calculate_inflow_rate i timer s = Ret s'
    /\ Qai_ s' !! i = Some q
    /\ value q == alpha * (a - b * (value pcur - value pprev))
    /\ (forall k, derivative q k == - (alpha * b) * derivative pcur k)
    /\ (forall j, j <> i -> Qai_ s' !! j = Qai_ s !! j)
    /\ same_but_Qai_ s s'.
Proof.
  intros Ha Hc Hp Hr Hd H0 H1 Hi Tc beta t dt tD PItd PItd' dpai_i a b.
  unfold calculate_inflow_rate, calculate_a_b_constants, dpai, area_fraction.
  rewrite (at_Some _ _ _ H1), (at_Some _ _ _ H0).
  rewrite (at_Some _ _ _ Hr), (at_Some _ _ _ Hd), (at_Some _ _ _ Hp).
  rewrite (at_Some _ _ _ Ha), (at_Some _ _ _ Hc).
  cbn [mbind outcome_bind mret outcome_ret].
  rewrite (at_put_lt _ _ _ Hi).
  cbn [mbind outcome_bind mret outcome_ret].
  eexists _, _. split; [reflexivity |].
  split; [cbn [Qai_ set_Qai_]; apply list_lookup_insert_eq; exact Hi |].
  cbn [value derivative scalar_mul scalar_sub sub_scalar Qai_ set_Qai_].
  subst Tc beta t dt tD PItd PItd' dpai_i a b. cbv zeta.
  split.
  { rewrite (Qplus_comm (currentStepLength timer)). reflexivity. }
  split.
  { intros k. rewrite (Qplus_comm (currentStepLength timer)). ring. }
  split; [| reflexivity].
  intros j Hj. apply list_lookup_insert_ne. congruence.
Qed.

Lemma calculate_inflow_rate_spec_witness :
  exists s' q,
    calculate_inflow_rate 0 Examples.pulse_timer Examples.pulse_aquifer = Ret s'
    /\ Qai_ s' !! 0%nat = Some q
    /\ value q == 1 # 5
    /\ derivative q 0 == - (1 # 5).
Proof.
  destruct (calculate_inflow_rate_spec Examples.pulse_aquifer Examples.pulse_timer
              0 1 1000 0 (1 # 2)
              (Examples.pressure_variable 1) (Examples.pressure_variable 1)
              (constant 1000))
    as (s' & q & Hrun & Hq & Hv & Hd & _); try reflexivity.
  - simpl. lia.
  - exists s', q. split; [exact Hrun |]. split; [exact Hq |].
    split.
    + rewrite Hv. vm_compute. reflexivity.
    + rewrite (Hd 0%nat). vm_compute. reflexivity.
Defined.

(** *** polynomial_fit *)

Import LeastSquares.

Lemma fit_matrix_vandermonde (X : list Q) (n : nat) :
  fit_matrix X n true = vandermonde X n.
Proof. reflexivity. Qed.

Lemma map_nth_seq (l : list Q) :
  map (fun i => nth i l 0) (seq 0 (length l)) = l.
Proof.
  apply (nth_ext _ _ 0 0).
  - rewrite length_map, length_seq. reflexivity.
  - intros i Hi. rewrite length_map, length_seq in Hi.
    apply (nth_map_seq (fun i => nth i l 0)). exact Hi.
Qed.

(** C8. With bias, on [N] sample pairs: when [N < order + 1] the fit
    stops at its assertion [X.size() >= colNum]; otherwise it returns
    [order + 1] coefficients, which are what Eigen's QR solver gives for
    the Vandermonde matrix of the samples, hence a least-squares solution
    of that system whenever the solver's answer is one. *)
Theorem polynomial_fit_spec (householderQr_solve : Matrix -> list Q -> list Q)
    (X y : list Q) (order : nat) :
  length X = length y ->
  ((length X < order + 1)%nat ->
     polynomial_fit householderQr_solve X y order true
     = Raise (assertion_failed "X.size() >= colNum"))
  /\ ((order + 1 <= length X)%nat ->
        let A := vandermonde X (order + 1) in
        exists coeff,
          polynomial_fit householderQr_solve X y order true = Ret coeff
          /\ length coeff = (order + 1)%nat
          /\ (forall i, (i < order + 1)%nat ->
                nth i coeff 0 = nth i (householderQr_solve A y) 0)
          /\ (least_squares_solution A y (order + 1) (householderQr_solve A y) ->
                least_squares_solution A y (order + 1) coeff)).
Proof.
  intros Hlen. unfold polynomial_fit, assert_.
  rewrite Hlen, Nat.eqb_refl. cbn [mbind outcome_bind mret outcome_ret].
  split.
  - intros Hlt. destruct (Nat.leb_spec (order + 1) (length y)); [lia | reflexivity].
  - intros Hge. destruct (Nat.leb_spec (order + 1) (length y)); [| lia].
    cbn [mbind outcome_bind mret outcome_ret].
    rewrite fit_matrix_vandermonde. set (A := vandermonde X (order + 1)).
    eexists. split; [reflexivity |].
    split; [rewrite length_map, length_seq; reflexivity |].
    split.
    + intros i Hi.
      apply (nth_map_seq (fun i => nth i (householderQr_solve A y) 0)). exact Hi.
    + intros [Hl Hn].
      assert (Heq : map (fun i => nth i (householderQr_solve A y) 0)
                        (seq 0 (order + 1)) = householderQr_solve A y).
      { rewrite <- Hl. apply map_nth_seq. }
      rewrite Heq. split; assumption.
Qed.

Lemma polynomial_fit_spec_witness :
  exists coeff,
    polynomial_fit normal_equations_solve [0; 1; 2] [0; 1; 1] 1 true = Ret coeff
    /\ coeff = [1 # 6; 1 # 2]
    /\ least_squares_solution (vandermonde [0; 1; 2] 2) [0; 1; 1] 2 coeff.
Proof.
  destruct (polynomial_fit_spec normal_equations_solve [0; 1; 2] [0; 1; 1] 1
              eq_refl) as [_ Hfit].
  destruct (Hfit ltac:(simpl; lia)) as (coeff & Hrun & _ & _ & Hls).
  exists coeff. split; [exact Hrun |].
  split.
  - vm_compute in Hrun. injection Hrun as <-. reflexivity.
  - apply Hls. split; [reflexivity |].
    repeat constructor; vm_compute; reflexivity.
Defined.

(** *** initialize_connections *)

Import Connected.

Lemma faceTag_direction_valid (tag : Z) (fd : option DirEnum) :
  (0 <= tag <= 5)%Z -> faceTag_direction tag fd = faceTag_direction tag None.
Proof.
  intros Htag. unfold faceTag_direction.
  repeat match goal with
         | |- context [(?a =? ?b)%Z] => destruct (Z.eqb_spec a b); [reflexivity |]
         end.
  lia.
Qed.

Lemma faces_loop_spec (grid : Grid) (connection : AquanconOutput) (idx : nat)
    (dir : DirEnum) (faces : list (nat * Z)) :
  reservoir_face_dir connection !! idx = Some dir ->
  Forall valid_tag faces ->
  forall st, (idx < length (areas st))%nat ->
  exists st',
    faces_loop grid connection idx faces st = Ret st'
    /\ depths st' = depths st
    /\ denom_face_areas st'
       == denom_face_areas st
          + Qsum (map (fun face => faceArea grid face.1) (List.filter (matches dir) faces))
    /\ areas st'
       = match last (List.filter (matches dir) faces) with
         | Some face => <[idx := faceArea grid face.1]> (areas st)
         | None => areas st
         end.
Proof.
  intros Hdir Hvalid. induction Hvalid as [| [faceIdx faceTag] faces Htag _ IH];
    intros st Hidx.
  - exists st. cbn [faces_loop List.filter map Qsum fold_right last]. repeat split. ring.
  - cbn [faces_loop]. rewrite (at_Some _ _ _ Hdir). cbn [mbind outcome_bind].
    rewrite (faceTag_direction_valid faceTag _ Htag).
    cbn [List.filter]. unfold matches at 1 3 4. cbn [snd fst].
    destruct (decide (faceTag_direction faceTag None = Some dir)) as [Hm | Hm].
    + rewrite (bool_decide_eq_true_2 _ Hm).
      rewrite (at_put_lt _ _ _ Hidx). cbn [mbind outcome_bind].
      rewrite (at_Some _ _ (faceArea grid faceIdx))
        by (apply list_lookup_insert_eq; exact Hidx).
      cbn [mbind outcome_bind].
      destruct (IH (mkLoop (faceTag_direction faceTag None)
                           (<[idx := faceArea grid faceIdx]> (areas st))
                           (denom_face_areas st + faceArea grid faceIdx) (depths st)))
        as (st' & Hrun & Hdep & Hden & Har).
      { cbn. rewrite length_insert. exact Hidx. }
      exists st'. split; [exact Hrun |]. split; [exact Hdep |]. split.
      * rewrite Hden. cbn [denom_face_areas map fst]. rewrite Qsum_cons. ring.
      * rewrite Har. cbn [areas]. rewrite last_cons.
        destruct (last (List.filter (matches dir) faces));
          [apply list_insert_insert_eq | reflexivity].
    + rewrite (bool_decide_eq_false_2 _ Hm).
      destruct (IH (mkLoop (faceTag_direction faceTag None) (areas st)
                           (denom_face_areas st) (depths st)))
        as (st' & Hrun & Hdep & Hden & Har); [exact Hidx |].
      exists st'. repeat split; assumption.
Qed.

Lemma cells_loop_spec (grid : Grid) (connection : AquanconOutput) (n m : nat) :
  length (global_index connection) = n ->
  length (reservoir_face_dir connection) = n ->
  single_faced grid connection ->
  forall k st, (k + m = n)%nat -> before_cell n k st ->
  exists st',
    cells_loop grid connection (global_index connection) (seq k m) st = Ret st'
    /\ before_cell n n st'.
Proof.
  intros Hcells Hdirs Hsingle. induction m as [| m IH]; intros k st Hkm Hst.
  - exists st. split; [reflexivity |]. assert (k = n) as -> by lia. exact Hst.
  - cbn [seq cells_loop].
    destruct Hst as (Hla & Hld & Hden & Hzero).
    destruct (lookup_lt_is_Some_2 (global_index connection) k ltac:(lia)) as [cell Hcell].
    destruct (lookup_lt_is_Some_2 (reservoir_face_dir connection) k ltac:(lia))
      as [dir Hdir].
    destruct (Hsingle k cell dir Hcell Hdir) as [Hvalid Hone].
    rewrite (at_Some _ _ _ Hcell). cbn [mbind outcome_bind].
    destruct (faces_loop_spec grid connection k dir _ Hdir Hvalid st ltac:(lia))
      as (st1 & Hrun & Hdep & Hden1 & Har).
    rewrite Hrun. cbn [mbind outcome_bind].
    rewrite (at_put_lt (depths st1) k) by (rewrite Hdep; lia).
    cbn [mbind outcome_bind].
    apply IH; [lia |].
    unfold before_cell. cbn [areas depths denom_face_areas].
    fold (matching_faces grid cell dir) in Hden1, Har.
    assert (Hk0 : areas st !! k = Some 0) by (apply Hzero; lia).
    destruct (matching_faces grid cell dir) as [| face [| face2 faces]];
      cbn [length] in Hone; [| | lia].
    + cbn [last] in Har. cbn [map] in Hden1. rewrite Har.
      repeat split.
      * exact Hla.
      * rewrite length_insert, Hdep. exact Hld.
      * rewrite Hden1, (Qsum_take_S _ _ _ Hk0), Hden. cbn. ring.
      * intros i Hi. apply Hzero. lia.
    + cbn [last] in Har. cbn [map] in Hden1. rewrite Har.
      repeat split.
      * rewrite length_insert. exact Hla.
      * rewrite length_insert, Hdep. exact Hld.
      * rewrite Hden1.
        rewrite (Qsum_take_S _ _ (faceArea grid face.1))
          by (apply list_lookup_insert_eq; lia).
        rewrite take_insert_ge by lia. rewrite Hden. cbn. ring.
      * intros i Hi. rewrite list_lookup_insert_ne by lia. apply Hzero. lia.
Qed.

Lemma alpha_loop_spec (areas : list Q) (denom : Q) (m : nat) :
  forall k alphai,
    (k + m <= length areas)%nat -> length alphai = length areas ->
    exists alphai',
      alpha_loop areas denom (seq k m) alphai = Ret alphai'
      /\ length alphai' = length alphai
      /\ forall i,
           alphai' !! i
           = if decide (k <= i < k + m)%nat
             then (fun a => a / denom) <$> areas !! i
             else alphai !! i.
Proof.
  induction m as [| m IH]; intros k alphai Hkm Hlen.
  - exists alphai. split; [reflexivity |]. split; [reflexivity |].
    intros i. destruct (decide (k <= i < k + 0)%nat); [lia | reflexivity].
  - cbn [seq alpha_loop].
    destruct (lookup_lt_is_Some_2 areas k ltac:(lia)) as [a Ha].
    rewrite (at_Some _ _ _ Ha). cbn [mbind outcome_bind].
    rewrite (at_put_lt alphai k) by lia. cbn [mbind outcome_bind].
    destruct (IH (S k) (<[k := a / denom]> alphai))
      as (alphai' & Hrun & Hlen' & Hlook).
    { lia. }
    { rewrite length_insert. exact Hlen. }
    exists alphai'. split; [exact Hrun |].
    split; [rewrite Hlen', length_insert; reflexivity |].
    intros i. rewrite Hlook.
    destruct (decide (S k <= i < S k + m)%nat), (decide (k <= i < k + S m)%nat);
      try reflexivity; try lia.
    destruct (decide (i = k)) as [-> | Hne].
    + rewrite list_lookup_insert_eq by lia. rewrite Ha. reflexivity.
    + lia.
    + destruct (decide (i = k)) as [-> | Hne]; [lia |].
      apply list_lookup_insert_ne. congruence.
Qed.

(** X7. On a freshly constructed aquifer and a connection record whose
    four vectors have the same length, [initialize_connections] returns
    when every connected cell has valid face tags and at most one face in
    the direction of its connection; the fraction of a connection is
    then its connected area over the sum of these areas, and the
    fractions sum to one when that sum is not zero. *)
Theorem initialize_connections_sum_one (grid : Grid) (connection : AquanconOutput)
    (s : AquiferCarterTracy.t) :
  faceArea_connected_ s = [] ->
  length (influx_coeff connection) = length (global_index connection) ->
  length (influx_multiplier connection) = length (global_index connection) ->
  length (reservoir_face_dir connection) = length (global_index connection) ->
  single_faced grid connection ->
  exists s',
    initialize_connections grid connection s = Ret s'
    /\ length (alphai_ s') = length (global_index connection)
    /\ Forall2 (fun alpha a => alpha == a / Qsum (faceArea_connected_ s'))
               (alphai_ s') (faceArea_connected_ s')
    /\ (~ Qsum (faceArea_connected_ s') == 0 -> Qsum (alphai_ s') == 1).
Proof.
  intros Hfresh Hc Hm Hd Hsingle.
  unfold initialize_connections, assert_.
  rewrite Hc, Hm, Hd, !Nat.eqb_refl. cbn [mbind outcome_bind].
  set (n := length (global_index connection)).
  destruct (cells_loop_spec grid connection n n eq_refl Hd Hsingle 0%nat
              (mkLoop None (resize n 0 (faceArea_connected_ s)) 0
                      (resize n (d0_ s) (cell_depth_ s))))
    as (st & Hrun & Hla & Hld & Hden & _).
  { reflexivity. }
  { unfold before_cell. cbn [areas depths denom_face_areas].
    split; [apply length_resize |]. split; [apply length_resize |].
    split; [reflexivity |].
    intros i Hi. rewrite Hfresh. unfold resize. rewrite take_nil. cbn [length app].
    apply lookup_replicate_2. lia. }
  rewrite Hrun. cbn [mbind outcome_bind].
  destruct (alpha_loop_spec (areas st) (denom_face_areas st) n 0%nat
              (resize n 1 (alphai_ s)))
    as (alphai & Hal & Hlen & Hlook).
  { lia. }
  { rewrite length_resize. symmetry. exact Hla. }
  rewrite Hal. cbn [mbind outcome_bind mret outcome_ret].
  eexists. split; [reflexivity |].
  cbn [alphai_ faceArea_connected_ set_connections].
  rewrite take_ge in Hden by lia.
  assert (Heq : alphai = map (fun a => a / denom_face_areas st) (areas st)).
  { apply list_eq. intros i. rewrite Hlook, list_lookup_fmap.
    destruct (decide (0 <= i < 0 + n)%nat) as [| Hout]; [reflexivity |].
    rewrite (lookup_ge_None_2 (areas st)) by lia.
    apply lookup_ge_None_2. rewrite length_resize. lia. }
  split; [rewrite Hlen, length_resize; reflexivity |].
  split.
  - rewrite Heq. apply Forall2_map_div. exact Hden.
  - intros Hnz. rewrite Heq, Qsum_map_div, Hden. field. exact Hnz.
Qed.

(** C4, at a cell whose boundary side is split in two faces.  Both faces
    are added to the denominator, and only the second stays in
    [faceArea_connected_]: the fractions are 3/8 and 4/8, they sum to 7/8,
    and the first is not 3/7, its share of the connected areas. *)
Theorem initialize_connections_split_face :
  exists s',
    initialize_connections Examples.faulted_grid Examples.faulted_connection
      Examples.fresh_aquifer = Ret s'
    /\ Forall2 Qeq (faceArea_connected_ s') [3; 4]
    /\ Forall2 Qeq (alphai_ s') [3 # 8; 1 # 2]
    /\ Qsum (alphai_ s') == 7 # 8
    /\ ~ Qsum (alphai_ s') == 1
    /\ ~ Forall2 Qeq (alphai_ s')
           (map (fun a => a / Qsum (faceArea_connected_ s')) (faceArea_connected_ s')).
Proof.
  eexists. split; [vm_compute; reflexivity |].
  cbn [faceArea_connected_ alphai_ set_connections].
  split; [repeat constructor |].
  split; [repeat constructor |].
  split; [vm_compute; reflexivity |].
  split; [vm_compute; discriminate |].
  intros Hall. inversion Hall as [| ? ? ? ? Hhd _]. subst.
  vm_compute in Hhd. discriminate.
Qed.

End AquiferCarterTracyFacts.

(** ** The aquifer and the simulator *)

Module AquiferSimulatorFacts.

Import DenseAd AquiferCarterTracy Inflow.

Lemma at_Ret_inv {A : Type} (v : list A) (i : nat) (x : A) :
  at_ v i = Ret x -> v !! i = Some x.
Proof. unfold at_. destruct (v !! i); [congruence | discriminate]. Qed.

Lemma at_put_Ret_inv {A : Type} (v v' : list A) (i : nat) (x : A) :
  at_put v i x = Ret v' -> (i < length v)%nat /\ v' = <[i := x]> v.
Proof.
  unfold at_put. destruct (decide (i < length v)%nat); [| discriminate].
  intros [= <-]. auto.
Qed.

Lemma take_take_below {A : Type} (l : list A) (n m : nat) :
  (n <= m)%nat -> take n (take m l) = take n l.
Proof. intros Hnm. rewrite take_take, Nat.min_l by exact Hnm. reflexivity. Qed.

Lemma calculate_inflow_rate_inv (idx : nat) (timer : SimulatorTimerInterface)
    (s s' : t) :
  calculate_inflow_rate idx timer s = Ret s' ->
  (idx < length (Qai_ s))%nat
  /\ exists q, s' = set_Qai_ (<[idx := q]> (Qai_ s)) s.
Proof.
  unfold calculate_inflow_rate. intros Hrun.
  apply bind_Ret_inv in Hrun as ([a b] & _ & Hrun).
  apply bind_Ret_inv in Hrun as (alpha & _ & Hrun).
  apply bind_Ret_inv in Hrun as (pcur & _ & Hrun).
  apply bind_Ret_inv in Hrun as (pprev & _ & Hrun).
  apply bind_Ret_inv in Hrun as (Qai' & Hput & Hrun).
  apply at_put_Ret_inv in Hput as [Hlt ->].
  simpl_ret Hrun. injection Hrun as <-.
  split; [exact Hlt | eexists; reflexivity].
Qed.

Section TypeTag.
Variables numEq waterPhaseIdx waterCompIdx : nat.

Lemma sub_derivatives_entry (cellID : nat) (qinflow : Eval)
    (J : nat -> nat -> nat -> nat -> Q) (row col eq pv : nat) :
  sub_derivatives numEq waterCompIdx cellID qinflow J row col eq pv
  = if Nat.eqb row cellID && Nat.eqb col cellID && Nat.eqb eq waterCompIdx
       && (pv <? numEq)%nat
    then J row col eq pv - derivative qinflow pv else J row col eq pv.
Proof.
  unfold sub_derivatives. induction numEq as [| n IH].
  - cbn. rewrite andb_false_r. reflexivity.
  - rewrite seq_S, fold_left_app. cbn [fold_left Nat.add].
    rewrite IH.
    destruct (Nat.eqb row cellID && Nat.eqb col cellID && Nat.eqb eq waterCompIdx);
      cbn [andb]; [| reflexivity].
    destruct (Nat.eqb_spec pv n) as [-> | Hne].
    + rewrite Nat.ltb_irrefl. destruct (Nat.ltb_spec n (S n)); [reflexivity | lia].
    + destruct (Nat.ltb_spec pv n), (Nat.ltb_spec pv (S n)); try reflexivity; lia.
Qed.

Lemma inflow_into_cons (cell c : nat) (cells : list nat) (q : Eval) (Qai : list Eval) :
  inflow_into cell (c :: cells) (q :: Qai)
  = (if Nat.eqb c cell then value q else 0) + inflow_into cell cells Qai.
Proof. reflexivity. Qed.

Lemma inflow_derivative_cons (pv cell c : nat) (cells : list nat) (q : Eval)
    (Qai : list Eval) :
  inflow_derivative pv cell (c :: cells) (q :: Qai)
  = (if Nat.eqb c cell then derivative q pv else 0)
    + inflow_derivative pv cell cells Qai.
Proof. reflexivity. Qed.

Lemma assemble_loop_spec (sim : Simulator) (timer : SimulatorTimerInterface)
    (cells : list nat) :
  forall idx s lin s' lin',
    assemble_loop numEq waterPhaseIdx waterCompIdx sim timer cells idx s lin
    = Ret (s', lin') ->
    same_connections s s'
    /\ length (Qai_ s') = length (Qai_ s)
    /\ take idx (Qai_ s') = take idx (Qai_ s)
    /\ (length cells = 0 \/ idx + length cells <= length (Qai_ s))%nat
    /\ (forall cell,
          ebosResid lin' cell waterCompIdx
          == ebosResid lin cell waterCompIdx
             - inflow_into cell cells (drop idx (Qai_ s')))
    /\ (forall cell eq, eq <> waterCompIdx ->
          ebosResid lin' cell eq = ebosResid lin cell eq)
    /\ (forall cell pv, (pv < numEq)%nat ->
          ebosJac lin' cell cell waterCompIdx pv
          == ebosJac lin cell cell waterCompIdx pv
             - inflow_derivative pv cell cells (drop idx (Qai_ s')))
    /\ (forall row col eq pv,
          row <> col \/ eq <> waterCompIdx \/ (numEq <= pv)%nat ->
          ebosJac lin' row col eq pv = ebosJac lin row col eq pv).
Proof.
  induction cells as [| c cells IH]; intros idx s lin s' lin' Hrun.
  - cbn in Hrun. injection Hrun as <- <-.
    split; [repeat split |]. split; [reflexivity |]. split; [reflexivity |].
    split; [left; reflexivity |].
    split; [intros cell; unfold inflow_into; cbn; ring |].
    split; [reflexivity |].
    split; [intros cell pv _; unfold inflow_derivative; cbn; ring | reflexivity].
  - cbn [assemble_loop] in Hrun.
    apply bind_Ret_inv in Hrun as (pc & _ & Hrun).
    apply bind_Ret_inv in Hrun as (rho & _ & Hrun).
    apply bind_Ret_inv in Hrun as (s3 & Hrate & Hrun).
    apply bind_Ret_inv in Hrun as (qinflow & Hq & Hrun).
    apply calculate_inflow_rate_inv in Hrate as (Hlt & q & ->).
    cbn [Qai_ set_Qai_ set_rhow_ set_pressure_current_] in Hq, Hlt.
    apply at_Ret_inv in Hq. rewrite list_lookup_insert_eq in Hq by exact Hlt.
    injection Hq as ->.
    apply IH in Hrun
      as (Hsame & Hlen & Htake & Hbound & Hres & Hres' & Hjac & Hjac').
    cbn [Qai_ set_Qai_ set_rhow_ set_pressure_current_ ebosResid ebosJac]
      in Hlen, Htake, Hbound, Hres, Hres', Hjac, Hjac'.
    rewrite length_insert in Hlen, Hbound.
    assert (Hat : Qai_ s' !! idx = Some qinflow).
    { rewrite <- (lookup_take_lt _ (S idx)) by lia. rewrite Htake.
      rewrite lookup_take_lt by lia. apply list_lookup_insert_eq. exact Hlt. }
    split.
    { destruct Hsame as (H1 & H2 & H3 & H4 & H5 & H6 & H7 & H8 & H9).
      repeat split; assumption. }
    split; [exact Hlen |].
    split.
    { rewrite <- (take_take_below (Qai_ s') idx (S idx)) by lia.
      rewrite Htake. rewrite take_take_below by lia.
      apply take_insert_ge. lia. }
    split; [right; cbn [length]; lia |].
    rewrite (drop_S _ _ _ Hat).
    split.
    { intros cell. rewrite inflow_into_cons, Hres. unfold sub_value.
      rewrite Nat.eqb_refl, andb_true_r, (Nat.eqb_sym cell c).
      destruct (Nat.eqb c cell); ring. }
    split.
    { intros cell eq Heq. rewrite Hres' by exact Heq. unfold sub_value.
      destruct (Nat.eqb_spec eq waterCompIdx); [contradiction |].
      rewrite andb_false_r. reflexivity. }
    split.
    { intros cell pv Hpv. rewrite inflow_derivative_cons, Hjac by exact Hpv.
      rewrite sub_derivatives_entry.
      rewrite Nat.eqb_refl, andb_true_r, andb_diag, (Nat.eqb_sym cell c).
      destruct (Nat.ltb_spec pv numEq); [| lia].
      rewrite andb_true_r. destruct (Nat.eqb c cell); ring. }
    { intros row col eq pv Hout. rewrite Hjac' by exact Hout.
      rewrite sub_derivatives_entry.
      destruct (Nat.eqb_spec row c) as [-> |]; [| reflexivity].
      destruct (Nat.eqb_spec col c) as [-> |]; [| reflexivity].
      destruct (Nat.eqb_spec eq waterCompIdx) as [-> |]; [| reflexivity].
      destruct (Nat.ltb_spec pv numEq); [| reflexivity].
      destruct Hout as [Hout | [Hout | Hout]]; [congruence | congruence | lia]. }
Qed.

(** X1. [assembleAquiferEq] takes from the water residual of every cell the
    inflow of the connections of that cell, and from the diagonal block of
    the Jacobian their derivatives; it touches no other equation, no
    off-diagonal block and no derivative from [numEq] on; it sets [dt_] to
    the step length and leaves the connections, the previous pressures and
    the cumulative flux as they were. *)
Theorem assembleAquiferEq_takes_inflow (sim : Simulator)
    (timer : SimulatorTimerInterface) (s s' : t) (lin lin' : Linearizer) :
  assembleAquiferEq numEq waterPhaseIdx waterCompIdx sim timer s lin
  = Ret (s', lin') ->
  dt_ s' = currentStepLength timer
  /\ cell_idx_ s' = cell_idx_ s
  /\ pressure_previous_ s' = pressure_previous_ s
  /\ W_flux_ s' = W_flux_ s
  /\ (length (cell_idx_ s) <= length (Qai_ s'))%nat
  /\ (forall cell,
        ebosResid lin' cell waterCompIdx
        == ebosResid lin cell waterCompIdx
           - inflow_into cell (cell_idx_ s) (Qai_ s'))
  /\ (forall cell eq, eq <> waterCompIdx ->
        ebosResid lin' cell eq = ebosResid lin cell eq)
  /\ (forall cell pv, (pv < numEq)%nat ->
        ebosJac lin' cell cell waterCompIdx pv
        == ebosJac lin cell cell waterCompIdx pv
           - inflow_derivative pv cell (cell_idx_ s) (Qai_ s'))
  /\ (forall row col eq pv,
        row <> col \/ eq <> waterCompIdx \/ (numEq <= pv)%nat ->
        ebosJac lin' row col eq pv = ebosJac lin row col eq pv).
Proof.
  unfold assembleAquiferEq. intros Hrun.
  apply assemble_loop_spec in Hrun
    as (Hsame & Hlen & _ & Hbound & Hres & Hres' & Hjac & Hjac').
  destruct Hsame as (H1 & _ & _ & _ & H5 & H6 & _ & H8 & _).
  cbn [cell_idx_ set_dt_ dt_ Qai_ pressure_previous_ W_flux_] in *.
  rewrite drop_0 in Hres, Hjac.
  repeat split; try assumption. lia.
Qed.

(** *** before_time_step *)

Lemma previous_loop_spec (sim : Simulator) (cells : list nat) :
  forall idx pp,
    let p cell := pressure (cachedIntensiveQuantities sim cell) waterPhaseIdx in
    ((idx + length cells <= length pp)%nat ->
       previous_loop waterPhaseIdx sim cells idx pp
       = Ret (take idx pp ++ map p cells ++ drop (idx + length cells) pp))
    /\ (cells <> [] -> (length pp < idx + length cells)%nat ->
          previous_loop waterPhaseIdx sim cells idx pp = Raise out_of_range).
Proof.
  induction cells as [| c cells IH]; intros idx pp p.
  - split; [| congruence]. intros _. cbn [previous_loop map length app].
    rewrite Nat.add_0_r, take_drop. reflexivity.
  - cbn [previous_loop length]. unfold get_current_Pressure_cell, at_put.
    destruct (IH (S idx) (<[idx := p c]> pp)) as [Hok Herr].
    rewrite length_insert in Hok, Herr.
    split.
    + intros Hlen. destruct (decide (idx < length pp)%nat); [| lia].
      cbn [mbind outcome_bind]. fold (p c). rewrite Hok by lia.
      f_equal. cbn [map].
      rewrite (take_S_r (<[idx := p c]> pp) idx (p c))
        by (apply list_lookup_insert_eq; lia).
      rewrite take_insert_ge by lia. rewrite <- app_assoc. cbn [app].
      rewrite drop_insert_lt by lia.
      replace (S idx + length cells)%nat with (idx + S (length cells))%nat by lia.
      reflexivity.
    + intros _ Hlen. destruct (decide (idx < length pp)%nat); [| reflexivity].
      cbn [mbind outcome_bind]. apply Herr; [| lia].
      destruct cells; [cbn [length] in Hlen; lia | discriminate].
Qed.

(** X2. [before_time_step] stores the current water pressure of every
    connected cell as the previous pressure of its connection, and
    changes nothing else; it needs a previous-pressure vector with an
    entry for every connection, and raises [out_of_range] on a shorter
    one. *)
Theorem before_time_step_snapshot (sim : Simulator)
    (timer : SimulatorTimerInterface) (s : t) :
  let n := length (cell_idx_ s) in
  let p cell := pressure (cachedIntensiveQuantities sim cell) waterPhaseIdx in
  ((n <= length (pressure_previous_ s))%nat ->
     before_time_step waterPhaseIdx sim timer s
     = Ret (set_pressure_previous_
              (map p (cell_idx_ s) ++ drop n (pressure_previous_ s)) s))
  /\ ((length (pressure_previous_ s) < n)%nat ->
        before_time_step waterPhaseIdx sim timer s = Raise out_of_range).
Proof.
  intros n p. unfold before_time_step.
  destruct (previous_loop_spec sim (cell_idx_ s) 0 (pressure_previous_ s))
    as [Hok Herr].
  split; intros Hlen.
  - rewrite Hok by (cbn; exact Hlen). reflexivity.
  - rewrite Herr; [reflexivity | | cbn; exact Hlen].
    intros Hnil. subst n. rewrite Hnil in Hlen. cbn in Hlen. lia.
Qed.

End TypeTag.

(** *** The first step *)

(** X3. While the cumulative flux is zero, as it is after the
    initialisation, the inflow that [calculate_inflow_rate] stores does
    not depend on the previous pressure: it is [alpha_i * b] times the
    difference between the aquifer pressure, corrected for the depth of
    the cell, and the current pressure of the cell. *)
Theorem calculate_inflow_rate_first_step (s s' : t)
    (timer : SimulatorTimerInterface) (idx : nat) (a b : Q) :
  value (W_flux_ s) == 0 ->
  calculate_a_b_constants s idx timer = Ret (a, b) ->
  calculate_inflow_rate idx timer s = Ret s' ->
  exists q alpha pcur rho depth,
    Qai_ s' !! idx = Some q
    /\ alphai_ s !! idx = Some alpha
    /\ pressure_current_ s !! idx = Some pcur
    /\ rhow_ s !! idx = Some rho
    /\ cell_depth_ s !! idx = Some depth
    /\ value q
       == alpha * b
          * (pa0_ s + value rho * gravity_ s * (depth - d0_ s) - value pcur).
Proof.
  intros HW Hab Hrun. unfold calculate_inflow_rate in Hrun.
  rewrite Hab in Hrun. cbn [mbind outcome_bind] in Hrun.
  apply bind_Ret_inv in Hrun as (alpha & Halpha & Hrun).
  apply bind_Ret_inv in Hrun as (pcur & Hpcur & Hrun).
  apply bind_Ret_inv in Hrun as (pprev & Hpprev & Hrun).
  apply bind_Ret_inv in Hrun as (Qai' & Hput & Hrun).
  apply at_put_Ret_inv in Hput as [Hlt ->].
  simpl_ret Hrun. injection Hrun as <-.
  unfold calculate_a_b_constants, dpai in Hab.
  apply bind_Ret_inv in Hab as (PItdprime & H1 & Hab).
  apply bind_Ret_inv in Hab as (c0 & H0 & Hab).
  apply bind_Ret_inv in Hab as (c1 & H1' & Hab).
  apply bind_Ret_inv in Hab as (dp & Hdp & Hab).
  apply bind_Ret_inv in Hdp as (rho & Hrho & Hdp).
  apply bind_Ret_inv in Hdp as (depth & Hdepth & Hdp).
  apply bind_Ret_inv in Hdp as (pprev' & Hpprev' & Hdp).
  rewrite Hpprev in Hpprev'. injection Hpprev' as <-.
  simpl_ret Hdp. injection Hdp as <-.
  simpl_ret Hab. injection Hab as <- <-.
  unfold area_fraction in Halpha.
  apply at_Ret_inv in Halpha, Hpcur, Hrho, Hdepth.
  eexists _, alpha, pcur, rho, depth.
  split; [cbn [Qai_ set_Qai_]; apply list_lookup_insert_eq; exact Hlt |].
  repeat (split; [assumption |]).
  cbn [value scalar_mul scalar_sub sub_scalar].
  unfold Qdiv. rewrite Qinv_mult_distr, HW. ring.
Qed.

(** *** The initialisation *)

Lemma faces_loop_lengths (grid : Grid) (connection : AquanconOutput) (idx : nat)
    (faces : list (nat * Z)) :
  forall st st',
    faces_loop grid connection idx faces st = Ret st' ->
    length (areas st') = length (areas st) /\ depths st' = depths st.
Proof.
  induction faces as [| [faceIdx faceTag] faces IH]; intros st st' Hrun.
  - cbn in Hrun. injection Hrun as <-. auto.
  - cbn [faces_loop] in Hrun.
    apply bind_Ret_inv in Hrun as (dir & _ & Hrun).
    destruct (decide (faceTag_direction faceTag (faceDirection st) = Some dir)).
    + apply bind_Ret_inv in Hrun as (areas' & Hput & Hrun).
      apply bind_Ret_inv in Hrun as (a & _ & Hrun).
      apply at_put_Ret_inv in Hput as [_ ->].
      apply IH in Hrun as [Hl Hd]. cbn [areas depths] in Hl, Hd.
      rewrite length_insert in Hl. auto.
    + apply IH in Hrun as [Hl Hd]. auto.
Qed.

Lemma cells_loop_lengths (grid : Grid) (connection : AquanconOutput)
    (cells idxs : list nat) :
  forall st st',
    cells_loop grid connection cells idxs st = Ret st' ->
    length (areas st') = length (areas st)
    /\ length (depths st') = length (depths st).
Proof.
  induction idxs as [| idx idxs IH]; intros st st' Hrun.
  - cbn in Hrun. injection Hrun as <-. auto.
  - cbn [cells_loop] in Hrun.
    apply bind_Ret_inv in Hrun as (cell & _ & Hrun).
    apply bind_Ret_inv in Hrun as (st1 & Hfaces & Hrun).
    apply bind_Ret_inv in Hrun as (cell' & _ & Hrun).
    apply bind_Ret_inv in Hrun as (depths' & Hput & Hrun).
    apply at_put_Ret_inv in Hput as [_ ->].
    apply faces_loop_lengths in Hfaces as [Hl Hd].
    apply IH in Hrun as [Hl' Hd']. cbn [areas depths] in Hl', Hd'.
    rewrite length_insert in Hd'. rewrite Hl', Hd', Hl, Hd. auto.
Qed.

Lemma alpha_loop_length (areas : list Q) (denom : Q) (idxs : list nat) :
  forall alphai alphai',
    alpha_loop areas denom idxs alphai = Ret alphai' ->
    length alphai' = length alphai.
Proof.
  induction idxs as [| idx idxs IH]; intros alphai alphai' Hrun.
  - cbn in Hrun. injection Hrun as <-. reflexivity.
  - cbn [alpha_loop] in Hrun.
    apply bind_Ret_inv in Hrun as (a & _ & Hrun).
    apply bind_Ret_inv in Hrun as (alphai1 & Hput & Hrun).
    apply at_put_Ret_inv in Hput as [_ ->].
    apply IH in Hrun. rewrite length_insert in Hrun. exact Hrun.
Qed.

Lemma assert_Ret_inv (c : bool) (what : string) (u : unit) :
  assert_ c what = Ret u -> c = true.
Proof. unfold assert_. destruct c; [reflexivity | discriminate]. Qed.

Lemma initialize_connections_inv (grid : Grid) (connection : AquanconOutput)
    (s s' : t) :
  initialize_connections grid connection s = Ret s' ->
  let n := length (global_index connection) in
  length (influx_coeff connection) = n
  /\ length (influx_multiplier connection) = n
  /\ length (reservoir_face_dir connection) = n
  /\ exists areas depths alphas,
       s' = set_connections (global_index connection) areas depths alphas s
       /\ length areas = n /\ length depths = n /\ length alphas = n.
Proof.
  intros Hrun n. unfold initialize_connections in Hrun.
  apply bind_Ret_inv in Hrun as (u1 & H1 & Hrun).
  apply bind_Ret_inv in Hrun as (u2 & H2 & Hrun).
  apply bind_Ret_inv in Hrun as (u3 & H3 & Hrun).
  apply bind_Ret_inv in Hrun as (st & Hcells & Hrun).
  apply bind_Ret_inv in Hrun as (alphai & Halpha & Hrun).
  simpl_ret Hrun. injection Hrun as <-.
  apply assert_Ret_inv, Nat.eqb_eq in H1, H2, H3.
  apply cells_loop_lengths in Hcells as [Hl Hd]. cbn [areas depths] in Hl, Hd.
  apply alpha_loop_length in Halpha.
  rewrite length_resize in Hl, Hd, Halpha.
  fold n in H1, Hl, Hd, Halpha.
  split; [lia |]. split; [lia |]. split; [lia |].
  eexists _, _, _. split; [reflexivity |]. auto.
Qed.

Lemma polynomial_fit_inv (solve : Matrix -> list Q -> list Q) (X y coeff : list Q)
    (order : nat) :
  polynomial_fit solve X y order true = Ret coeff ->
  length coeff = (order + 1)%nat /\ length X = length y
  /\ (order + 1 <= length X)%nat.
Proof.
  unfold polynomial_fit. intros Hrun.
  apply bind_Ret_inv in Hrun as (u1 & H1 & Hrun).
  apply bind_Ret_inv in Hrun as (u2 & H2 & Hrun).
  simpl_ret Hrun. injection Hrun as <-.
  apply assert_Ret_inv in H1, H2.
  apply Nat.eqb_eq in H1. apply Nat.leb_le in H2.
  rewrite length_map, length_seq. auto.
Qed.

Section Initial.
Variable waterPhaseIdx : nat.

Lemma equilibrium_cells_length (sim : Simulator) (s : t) (idxs : list nat) :
  forall st st',
    equilibrium_cells waterPhaseIdx sim s idxs st = Ret st' ->
    length (rho_water_reservoir st') = length (rho_water_reservoir st).
Proof.
  induction idxs as [| idx idxs IH]; intros st st' Hrun.
  - cbn in Hrun. injection Hrun as <-. reflexivity.
  - cbn [equilibrium_cells] in Hrun.
    apply bind_Ret_inv in Hrun as (cell & _ & Hrun).
    apply bind_Ret_inv in Hrun as (rho & Hput & Hrun).
    apply bind_Ret_inv in Hrun as (p & _ & Hrun).
    apply bind_Ret_inv in Hrun as (r & _ & Hrun).
    apply bind_Ret_inv in Hrun as (depth & _ & Hrun).
    apply bind_Ret_inv in Hrun as (alpha & _ & Hrun).
    apply at_put_Ret_inv in Hput as [_ ->].
    apply IH in Hrun. cbn [rho_water_reservoir] in Hrun.
    rewrite length_insert in Hrun. exact Hrun.
Qed.

Lemma calculate_aquifer_condition_inv (sim : Simulator) (s s' : t) :
  calculate_aquifer_condition waterPhaseIdx sim s = Ret s' ->
  (1 <= length (cell_idx_ s))%nat
  /\ exists rho pa0 mu,
       s' = set_mu_w_ mu (set_pa0_ pa0 (set_rhow_ rho s))
       /\ length rho = length (cell_idx_ s).
Proof.
  unfold calculate_aquifer_condition. intros Hrun.
  apply bind_Ret_inv in Hrun as (s2 & Hs2 & Hrun).
  apply bind_Ret_inv in Hrun as (cell0 & Hcell & Hrun).
  simpl_ret Hrun. injection Hrun as <-.
  assert (Hshape : exists rho pa0,
             s2 = set_pa0_ pa0 (set_rhow_ rho s)
             /\ length rho = length (cell_idx_ s)).
  { cbn [p0_defaulted_ set_rhow_] in Hs2. destruct (p0_defaulted_ s).
    - apply bind_Ret_inv in Hs2 as ([avg rho] & Heq & Hs2).
      simpl_ret Hs2. injection Hs2 as <-.
      unfold calculate_reservoir_equilibrium in Heq.
      apply bind_Ret_inv in Heq as (st & Hloop & Heq).
      simpl_ret Heq. injection Heq as _ <-.
      apply equilibrium_cells_length in Hloop.
      cbn [rho_water_reservoir rhow_ set_rhow_] in Hloop.
      rewrite length_resize in Hloop.
      exists (rho_water_reservoir st), avg. split; [reflexivity | exact Hloop].
    - simpl_ret Hs2. injection Hs2 as <-.
      exists (resize (length (cell_idx_ s)) (constant 0) (rhow_ s)), (pa0_ s).
      split; [destruct s; reflexivity | apply length_resize]. }
  destruct Hshape as (rho & pa0 & -> & Hrho).
  split.
  - apply at_Ret_inv in Hcell. cbn [cell_idx_ set_pa0_ set_rhow_] in Hcell.
    apply lookup_lt_Some in Hcell. lia.
  - eexists _, _, _. split; [reflexivity | exact Hrho].
Qed.

(** X4. [init_quantities] succeeds only for a connection record whose
    four vectors have the same length, with at least one connection, and
    for an influence table of at least two rows, as many times as
    pressures.  When it succeeds the connected cells are those of the
    record, the cumulative flux is zero, every vector with one entry per
    connection has exactly that many entries, and the fit has two
    coefficients. *)
Theorem init_quantities_sized (solve : Matrix -> list Q -> list Q)
    (sim : Simulator) (connection : AquanconOutput) (s s' : t) :
  init_quantities waterPhaseIdx solve sim connection s = Ret s' ->
  let n := length (global_index connection) in
  (1 <= n)%nat
  /\ length (influx_coeff connection) = n
  /\ length (influx_multiplier connection) = n
  /\ length (reservoir_face_dir connection) = n
  /\ (2 <= length (aqutab_td_ s))%nat
  /\ length (aqutab_td_ s) = length (aqutab_pi_ s)
  /\ cell_idx_ s' = global_index connection
  /\ W_flux_ s' = constant 0
  /\ sized n s'.
Proof.
  intros Hrun n. unfold init_quantities in Hrun.
  apply bind_Ret_inv in Hrun as (s1 & Hconn & Hrun).
  apply bind_Ret_inv in Hrun as (s2 & Hcond & Hrun).
  apply bind_Ret_inv in Hrun as (coeff & Hfit & Hrun).
  simpl_ret Hrun. injection Hrun as <-.
  apply initialize_connections_inv in Hconn
    as (Hc & Hm & Hd & areas & depths & alphas & -> & Hla & Hld & Hlal).
  apply calculate_aquifer_condition_inv in Hcond
    as (Hone & rho & pa0 & mu & -> & Hrho).
  apply polynomial_fit_inv in Hfit as (Hcoeff & Hxy & Hrows).
  cbn in Hone, Hrho, Hxy, Hrows. fold n in Hc, Hm, Hd, Hla, Hld, Hlal.
  repeat (split; [first [assumption | reflexivity | lia] |]).
  unfold sized.
  cbn [cell_idx_ faceArea_connected_ cell_depth_ alphai_ rhow_ pressure_previous_
       pressure_current_ Qai_ coeff_ set_coeff_ set_Qai_ set_pressure_current_
       set_pressure_previous_ set_mu_w_ set_pa0_ set_rhow_ set_connections
       set_W_flux_].
  rewrite !length_resize.
  repeat (split; [first [assumption | reflexivity | lia] |]).
  exact Hcoeff.
Qed.

End Initial.

(** *** The steps after the initialisation *)

Lemma calculate_inflow_rate_defined (n idx : nat) (timer : SimulatorTimerInterface)
    (s : t) :
  sized n s -> (idx < n)%nat ->
  exists q, calculate_inflow_rate idx timer s
            = Ret (set_Qai_ (<[idx := q]> (Qai_ s)) s).
Proof.
  intros (Hc & Ha & Hd & Hal & Hr & Hpp & Hpc & Hq & Hco) Hidx.
  destruct (lookup_lt_is_Some_2 (coeff_ s) 0 ltac:(lia)) as [c0 H0].
  destruct (lookup_lt_is_Some_2 (coeff_ s) 1 ltac:(lia)) as [c1 H1].
  destruct (lookup_lt_is_Some_2 (rhow_ s) idx ltac:(lia)) as [rho Hrho].
  destruct (lookup_lt_is_Some_2 (cell_depth_ s) idx ltac:(lia)) as [depth Hdepth].
  destruct (lookup_lt_is_Some_2 (pressure_previous_ s) idx ltac:(lia)) as [pp Hprev].
  destruct (lookup_lt_is_Some_2 (pressure_current_ s) idx ltac:(lia)) as [pc Hcur].
  destruct (lookup_lt_is_Some_2 (alphai_ s) idx ltac:(lia)) as [alpha Halpha].
  unfold calculate_inflow_rate, calculate_a_b_constants, dpai, area_fraction.
  rewrite (at_Some _ _ _ H1), (at_Some _ _ _ H0).
  rewrite (at_Some _ _ _ Hrho), (at_Some _ _ _ Hdepth), (at_Some _ _ _ Hprev).
  rewrite (at_Some _ _ _ Halpha), (at_Some _ _ _ Hcur).
  cbn [mbind outcome_bind mret outcome_ret].
  rewrite at_put_lt by lia.
  cbn [mbind outcome_bind mret outcome_ret].
  eexists. reflexivity.
Qed.

Section Steps.
Variables numEq waterPhaseIdx waterCompIdx : nat.

Lemma assemble_loop_defined (sim : Simulator) (timer : SimulatorTimerInterface)
    (n : nat) (cells : list nat) :
  forall idx s lin,
    sized n s -> (idx + length cells <= n)%nat ->
    exists s' lin',
      assemble_loop numEq waterPhaseIdx waterCompIdx sim timer cells idx s lin
      = Ret (s', lin')
      /\ sized n s'.
Proof.
  induction cells as [| c cells IH]; intros idx s lin Hs Hidx.
  - exists s, lin. split; [reflexivity | exact Hs].
  - cbn [length] in Hidx. cbn [assemble_loop].
    unfold get_current_Pressure_cell, get_current_density_cell.
    pose proof Hs as (Hc & Ha & Hd & Hal & Hr & Hpp & Hpc & Hq & Hco).
    rewrite at_put_lt by lia. cbn [mbind outcome_bind].
    cbn [rhow_ set_pressure_current_].
    rewrite at_put_lt by lia. cbn [mbind outcome_bind].
    match goal with
    | |- context [calculate_inflow_rate idx timer ?s2] =>
        assert (Hs2 : sized n s2);
        [| destruct (calculate_inflow_rate_defined n idx timer s2 Hs2 ltac:(lia))
             as [q Hrate]; rewrite Hrate ]
    end.
    { unfold sized.
      cbn [cell_idx_ faceArea_connected_ cell_depth_ alphai_ rhow_ pressure_previous_
           pressure_current_ Qai_ coeff_ set_pressure_current_ set_rhow_].
      rewrite !length_insert. repeat split; assumption. }
    cbn [mbind outcome_bind Qai_ set_Qai_ set_rhow_ set_pressure_current_].
    rewrite (at_Some _ _ q) by (apply list_lookup_insert_eq; lia).
    cbn [mbind outcome_bind].
    apply IH; [| lia].
    destruct Hs2 as (Hc2 & Ha2 & Hd2 & Hal2 & Hr2 & Hpp2 & Hpc2 & Hq2 & Hco2).
    unfold sized.
    cbn [cell_idx_ faceArea_connected_ cell_depth_ alphai_ rhow_ pressure_previous_
         pressure_current_ Qai_ coeff_ set_Qai_ set_pressure_current_ set_rhow_]
      in *.
    rewrite !length_insert in *. repeat split; assumption.
Qed.

(** X5. On an aquifer whose vectors have one entry per connection and
    whose fit has two coefficients, as [init_quantities] leaves it,
    [before_time_step], [assembleAquiferEq] and [after_time_step] do not
    raise, and each leaves the aquifer of that shape. *)
Theorem sized_steps_defined (sim : Simulator) (timer : SimulatorTimerInterface)
    (n : nat) (s : t) (lin : Linearizer) :
  sized n s ->
  (exists s', before_time_step waterPhaseIdx sim timer s = Ret s' /\ sized n s')
  /\ (exists s' lin',
        assembleAquiferEq numEq waterPhaseIdx waterCompIdx sim timer s lin
        = Ret (s', lin')
        /\ sized n s')
  /\ sized n (after_time_step timer s).
Proof.
  intros Hs. pose proof Hs as (Hc & Ha & Hd & Hal & Hr & Hpp & Hpc & Hq & Hco).
  split; [| split].
  - destruct (previous_loop_spec waterPhaseIdx sim (cell_idx_ s) 0
                (pressure_previous_ s)) as [Hok _].
    unfold before_time_step. rewrite Hok by (cbn; lia).
    eexists. split; [reflexivity |]. rewrite take_0. cbn [app Nat.add].
    unfold sized.
    cbn [cell_idx_ faceArea_connected_ cell_depth_ alphai_ rhow_ pressure_previous_
         pressure_current_ Qai_ coeff_ set_pressure_previous_].
    rewrite length_app, length_map, length_drop.
    repeat split; try assumption. lia.
  - unfold assembleAquiferEq. apply (assemble_loop_defined sim timer n).
    + unfold sized. cbn. repeat split; assumption.
    + cbn. lia.
  - unfold sized, after_time_step. cbn. repeat split; assumption.
Qed.

End Steps.

(** *** The equilibrium pressure *)

Lemma fold_left_Qplus_sum (l : list Q) (x : Q) :
  fold_left Qplus l x == x + Qsum l.
Proof.
  revert x. induction l as [| y l IH]; intros x; cbn [fold_left].
  - cbn. ring.
  - rewrite IH, Qsum_cons. ring.
Qed.

Section Equilibrium.
Variable waterPhaseIdx : nat.

Lemma equilibrium_cells_uniform (sim : Simulator) (s : t) (p : Q) (n m : nat) :
  length (cell_idx_ s) = n -> length (cell_depth_ s) = n ->
  length (alphai_ s) = n ->
  Forall (fun cell =>
            value (pressure (cachedIntensiveQuantities sim cell) waterPhaseIdx) == p)
         (cell_idx_ s) ->
  Forall (fun depth => depth == d0_ s) (cell_depth_ s) ->
  forall k st,
    (k + m = n)%nat ->
    length (water_pressure_reservoir st) = k -> length (rho_water_reservoir st) = n ->
    length (pw_aquifer st) = k ->
    Qsum (pw_aquifer st) == p * Qsum (take k (alphai_ s)) ->
    exists st',
      equilibrium_cells waterPhaseIdx sim s (seq k m) st = Ret st'
      /\ length (pw_aquifer st') = n
      /\ Qsum (pw_aquifer st') == p * Qsum (alphai_ s).
Proof.
  intros Hc Hd Ha Hp Hdatum. induction m as [| m IH];
    intros k st Hkm Hwp Hrho Hpw Hsum.
  - exists st. split; [reflexivity |]. assert (k = n) as -> by lia.
    split; [exact Hpw |]. rewrite Hsum, take_ge by lia. reflexivity.
  - cbn [seq equilibrium_cells].
    destruct (lookup_lt_is_Some_2 (cell_idx_ s) k ltac:(lia)) as [cell Hcell].
    destruct (lookup_lt_is_Some_2 (cell_depth_ s) k ltac:(lia)) as [depth Hdepth].
    destruct (lookup_lt_is_Some_2 (alphai_ s) k ltac:(lia)) as [alpha Halpha].
    rewrite (at_Some _ _ _ Hcell). cbn [mbind outcome_bind].
    rewrite at_put_lt by lia. cbn [mbind outcome_bind].
    set (fs := cachedIntensiveQuantities sim cell).
    rewrite (at_Some (water_pressure_reservoir st ++ [value (pressure fs waterPhaseIdx)])
               k (value (pressure fs waterPhaseIdx)))
      by (rewrite lookup_app_r by lia; rewrite Hwp, Nat.sub_diag; reflexivity).
    cbn [mbind outcome_bind].
    rewrite (at_Some (<[k := density fs waterPhaseIdx]> (rho_water_reservoir st))
               k (density fs waterPhaseIdx))
      by (apply list_lookup_insert_eq; lia).
    cbn [mbind outcome_bind].
    rewrite (at_Some _ _ _ Hdepth). cbn [mbind outcome_bind].
    unfold area_fraction. rewrite (at_Some _ _ _ Halpha). cbn [mbind outcome_bind].
    apply IH; cbn [water_pressure_reservoir rho_water_reservoir pw_aquifer].
    + lia.
    + rewrite length_app. cbn [length]. lia.
    + rewrite length_insert. exact Hrho.
    + rewrite length_app. cbn [length]. lia.
    + rewrite Qsum_app, Hsum, (Qsum_take_S _ _ _ Halpha).
      assert (Hpc : value (pressure fs waterPhaseIdx) == p).
      { apply (Forall_lookup_1 _ _ _ _ Hp Hcell). }
      assert (Hdz : depth == d0_ s).
      { apply (Forall_lookup_1 _ _ _ _ Hdatum Hdepth). }
      cbn [Qsum fold_right]. rewrite Hpc, Hdz. ring.
Qed.

(** X6. When every connected cell lies at the datum depth and has the
    water pressure [p], [calculate_reservoir_equilibrium] returns [p]
    times the sum of the area fractions divided by the number of
    connections: with fractions that sum to one that is [p / n], which is
    [p] for a single connection only. *)
Theorem calculate_reservoir_equilibrium_uniform (sim : Simulator) (s : t)
    (p : Q) (n : nat) :
  length (cell_idx_ s) = n -> length (cell_depth_ s) = n ->
  length (alphai_ s) = n -> length (rhow_ s) = n ->
  Forall (fun cell =>
            value (pressure (cachedIntensiveQuantities sim cell) waterPhaseIdx) == p)
         (cell_idx_ s) ->
  Forall (fun depth => depth == d0_ s) (cell_depth_ s) ->
  exists avg rho,
    calculate_reservoir_equilibrium waterPhaseIdx sim s = Ret (avg, rho)
    /\ avg == p * Qsum (alphai_ s) / inject_Z (Z.of_nat n)
    /\ (Qsum (alphai_ s) == 1 -> avg == p / inject_Z (Z.of_nat n)).
Proof.
  intros Hc Hd Ha Hr Hp Hdatum. unfold calculate_reservoir_equilibrium.
  destruct (equilibrium_cells_uniform sim s p n n Hc Hd Ha Hp Hdatum 0%nat
              (mkEquilibrium [] [] (rhow_ s)))
    as (st & Hrun & Hlen & Hsum); try reflexivity; try assumption.
  { rewrite take_0. cbn [pw_aquifer Qsum fold_right]. ring. }
  rewrite Hc, Hrun. cbn [mbind outcome_bind mret outcome_ret].
  eexists _, _. split; [reflexivity |].
  assert (Havg : fold_left Qplus (pw_aquifer st) 0
                 / inject_Z (Z.of_nat (length (pw_aquifer st)))
                 == p * Qsum (alphai_ s) / inject_Z (Z.of_nat n)).
  { rewrite fold_left_Qplus_sum, Hsum, Hlen. unfold Qdiv. ring. }
  split; [exact Havg |].
  intros Hone. rewrite Havg, Hone. unfold Qdiv. ring.
Qed.

End Equilibrium.

(** *** The examples *)

Import Connected.

Lemma assembleAquiferEq_takes_inflow_witness :
  exists s' lin',
    assembleAquiferEq 3 0 0 Examples.pulse_simulator Examples.pulse_timer
      Examples.pulse_aquifer Examples.empty_system = Ret (s', lin')
    /\ ebosResid lin' 0%nat 0%nat == - (1 # 5)
    /\ ebosJac lin' 0%nat 0%nat 0%nat 0%nat == 1 # 5.
Proof.
  destruct (assembleAquiferEq 3 0 0 Examples.pulse_simulator Examples.pulse_timer
              Examples.pulse_aquifer Examples.empty_system)
    as [[s' lin'] | e] eqn:E; [| vm_compute in E; discriminate].
  exists s', lin'. split; [reflexivity |].
  destruct (assembleAquiferEq_takes_inflow 3 0 0 _ _ _ _ _ _ E)
    as (_ & _ & _ & _ & _ & Hres & _ & Hjac & _).
  rewrite Hres, Hjac by lia.
  vm_compute in E. injection E as <- _. split; vm_compute; reflexivity.
Defined.

Lemma before_time_step_snapshot_witness :
  before_time_step 0 Examples.pulse_simulator Examples.pulse_timer
    Examples.two_cell_aquifer
  = Ret (set_pressure_previous_
           [Examples.pressure_variable 1; Examples.pressure_variable 1]
           Examples.two_cell_aquifer).
Proof.
  exact (proj1 (before_time_step_snapshot 0 Examples.pulse_simulator
                  Examples.pulse_timer Examples.two_cell_aquifer)
               ltac:(cbn; lia)).
Defined.

Lemma calculate_inflow_rate_first_step_witness :
  exists s' q,
    calculate_inflow_rate 0 Examples.pulse_timer Examples.pulse_aquifer = Ret s'
    /\ Qai_ s' !! 0%nat = Some q
    /\ value q == 1 * (1 # 5) * (2 + 1000 * (981 # 100) * (1000 - 1000) - 1).
Proof.
  destruct (calculate_a_b_constants Examples.pulse_aquifer 0 Examples.pulse_timer)
    as [[a b] | e] eqn:Eab; [| vm_compute in Eab; discriminate].
  destruct (calculate_inflow_rate 0 Examples.pulse_timer Examples.pulse_aquifer)
    as [s' | e] eqn:E; [| vm_compute in E; discriminate].
  destruct (calculate_inflow_rate_first_step Examples.pulse_aquifer s'
              Examples.pulse_timer 0 a b ltac:(reflexivity) Eab E)
    as (q & alpha & pcur & rho & depth & Hq & Halpha & Hpcur & Hrho & Hdepth & Hv).
  exists s', q. split; [reflexivity |]. split; [exact Hq |].
  rewrite Hv.
  injection Halpha as <-. injection Hpcur as <-. injection Hrho as <-.
  injection Hdepth as <-.
  vm_compute in Eab. injection Eab as _ <-. vm_compute. reflexivity.
Defined.

Lemma init_quantities_sized_witness :
  exists s',
    init_quantities 0 LeastSquares.normal_equations_solve Examples.pulse_simulator
      Examples.faulted_connection Examples.fresh_aquifer = Ret s'
    /\ sized 2 s' /\ coeff_ s' = [0; 1 # 2].
Proof.
  destruct (init_quantities 0 LeastSquares.normal_equations_solve
              Examples.pulse_simulator Examples.faulted_connection
              Examples.fresh_aquifer) as [s' | e] eqn:E;
    [| vm_compute in E; discriminate].
  exists s'. split; [reflexivity |].
  split.
  - exact (proj2 (proj2 (proj2 (proj2 (proj2 (proj2 (proj2 (proj2
             (init_quantities_sized 0 _ _ _ _ _ E))))))))).
  - vm_compute in E. injection E as <-. reflexivity.
Defined.

Lemma sized_steps_defined_witness :
  exists s' lin',
    assembleAquiferEq 3 0 0 Examples.pulse_simulator Examples.pulse_timer
      Examples.pulse_aquifer Examples.empty_system = Ret (s', lin')
    /\ sized 1 s'.
Proof.
  apply (sized_steps_defined 3 0 0 Examples.pulse_simulator Examples.pulse_timer 1
           Examples.pulse_aquifer Examples.empty_system).
  repeat split.
Defined.

Lemma calculate_reservoir_equilibrium_uniform_witness :
  exists avg rho,
    calculate_reservoir_equilibrium 0 Examples.pulse_simulator
      Examples.two_cell_aquifer = Ret (avg, rho)
    /\ avg == 1 # 2.
Proof.
  destruct (calculate_reservoir_equilibrium_uniform 0 Examples.pulse_simulator
              Examples.two_cell_aquifer 1 2)
    as (avg & rho & Hrun & _ & Havg); try reflexivity.
  - repeat constructor.
  - repeat constructor.
  - exists avg, rho. split; [exact Hrun |]. rewrite Havg; reflexivity.
Defined.

Lemma boundary_grid_single_faced :
  single_faced Examples.boundary_grid Examples.faulted_connection.
Proof.
  intros [| [| idx]] cell dir Hcell Hdir; cbn in Hcell, Hdir; try discriminate;
    injection Hcell as <-; injection Hdir as <-.
  - split; [repeat constructor; cbn; lia | vm_compute; lia].
  - split; [repeat constructor; cbn; lia | vm_compute; lia].
Defined.

Lemma initialize_connections_sum_one_witness :
  exists s',
    initialize_connections Examples.boundary_grid Examples.faulted_connection
      Examples.fresh_aquifer = Ret s'
    /\ Forall2 Qeq (alphai_ s') [1 # 5; 4 # 5]
    /\ Qsum (alphai_ s') == 1.
Proof.
  destruct (AquiferCarterTracyFacts.initialize_connections_sum_one
              Examples.boundary_grid Examples.faulted_connection
              Examples.fresh_aquifer eq_refl eq_refl eq_refl eq_refl
              boundary_grid_single_faced)
    as (s' & Hrun & _ & _ & Hsum).
  exists s'. split; [exact Hrun |].
  vm_compute in Hrun. injection Hrun as <-.
  split; [repeat constructor |].
  apply Hsum. vm_compute. discriminate.
Defined.

End AquiferSimulatorFacts.

(** ** The well-group tree *)

Module WellsGroupsFacts.

Import WellsGroups.
Module PS := ProductionSpecification.
Module IS := InjectionSpecification.

(** C6, at two producers.  Production rates are negative, and the loop
    of the group keeps the child whose signed rate is largest: of the
    wells producing 80 and 30 of oil it returns the one producing 30. *)
Theorem getWorstOffending_two_producers :
  getWorstOffending (Examples.field PS.FLD PS.WELL)
    Examples.rates_80_30 Examples.rates_80_30 PS.ORAT
  = Ret (Some [1%nat], -30)
  /\ getWorstOffending (Examples.producer "P1" 0 1 true)
       Examples.rates_80_30 Examples.rates_80_30 PS.ORAT
     = Ret (Some [], -80)
  /\ Qabs (-30) < Qabs (-80).
Proof.
  split; [reflexivity |]. split; [reflexivity |]. vm_compute. reflexivity.
Qed.

(** *** Guide rates and applyProdGroupControl *)

Lemma fold_left_Qplus (f : WellsGroupInterface -> Q) (cs : list WellsGroupInterface)
    (x : Q) :
  fold_left (fun sum c => sum + f c) cs x == x + Qsum (map f cs).
Proof.
  revert x. induction cs as [| c cs IH]; intros x; simpl.
  - ring.
  - rewrite IH. ring.
Qed.

Lemma productionGuideRate_group (b : Base) (cs : list WellsGroupInterface) :
  productionGuideRate (WellsGroup b cs) false
  == Qsum (map (fun c => productionGuideRate c false) cs).
Proof.
  cbn [productionGuideRate].
  rewrite (fold_left_Qplus (fun c => productionGuideRate c false)). ring.
Qed.

Lemma apply_children_applied
    (apply : WellsGroupInterface -> Wells -> outcome (WellsGroupInterface * Wells))
    (cs cs' : list WellsGroupInterface) (W W' : Wells) :
  apply_children apply cs W = Ret (cs', W')
  <-> Specified.children_applied apply cs W cs' W'.
Proof.
  split.
  - revert cs' W W'. induction cs as [| c cs IH]; intros cs' W W' Hrun.
    + cbn in Hrun. injection Hrun as <- <-. constructor.
    + cbn [apply_children] in Hrun.
      apply bind_Ret_inv in Hrun as ([c1 W1] & Hc & Hrun).
      apply bind_Ret_inv in Hrun as ([cs1 W2] & Hcs & Hrun).
      cbn in Hrun. injection Hrun as <- <-.
      econstructor; [exact Hc | apply IH; exact Hcs].
  - induction 1 as [W0 | c c' cs0 cs0' W0 W1 W2 Hc _ IH].
    + reflexivity.
    + cbn [apply_children]. rewrite Hc. cbn [mbind outcome_bind].
      cbn [snd]. rewrite IH. reflexivity.
Qed.

(** C2, as amended.  On a group, [applyProdGroupControl] does nothing
    when the production control mode of the group is [NONE], or when
    [only_group] holds and that mode is not [FLD].  When [only_group] is
    false and the mode is not [NONE], with [G] the sum over the children
    of [guideRate(only_group)], it does nothing when [G = 0], and else
    takes the children in order, each with the target
    [target / efficiency * guideRate_c / G] and [only_group = false],
    and then sets the mode of the group to [FLD]. *)
Theorem applyProdGroupControl_group (b : Base) (cs : list WellsGroupInterface)
    (control_mode : PS.ControlMode) (target : Q) (only_group : bool) (W : Wells) :
  let g := WellsGroup b cs in
  let mode := PS.control_mode_ (production_specification_ b) in
  let G := productionGuideRate g only_group in
  let child c W' :=
    applyProdGroupControl c control_mode
      (target / efficicency_factor_ b * productionGuideRate c only_group / G)
      false W' in
  (mode = PS.NONE \/ (only_group = true /\ mode <> PS.FLD) ->
     applyProdGroupControl g control_mode target only_group W = Ret (g, W))
  /\ (mode <> PS.NONE -> only_group = false ->
        G == Qsum (map (fun c => productionGuideRate c only_group) cs)
        /\ (G == 0 ->
            applyProdGroupControl g control_mode target only_group W = Ret (g, W))
        /\ (~ G == 0 ->
            forall g' W',
              applyProdGroupControl g control_mode target only_group W
              = Ret (g', W')
              <-> exists cs',
                    Specified.children_applied child cs W cs' W'
                    /\ g' = WellsGroup
                              (set_prodSpec
                                 (PS.set_control_mode_ PS.FLD
                                    (production_specification_ b)) b)
                              cs')).
Proof.
  intros g mode G child. subst g. split.
  - intros Hnone. cbn [applyProdGroupControl]. fold mode.
    destruct (decide (mode = PS.NONE)) as [| Hm]; [reflexivity |].
    destruct Hnone as [| [-> Hfld]]; [contradiction |].
    rewrite (bool_decide_eq_false_2 _ Hfld). reflexivity.
  - intros Hm ->. subst child G. cbn beta.
    split; [apply productionGuideRate_group |]. split.
    + intros HG. cbn [applyProdGroupControl]. fold mode.
      destruct (decide (mode = PS.NONE)); [contradiction |].
      cbn [negb orb].
      apply Qeq_bool_iff in HG. rewrite HG. reflexivity.
    + intros HG g' W'. cbn [applyProdGroupControl]. fold mode.
      destruct (decide (mode = PS.NONE)); [contradiction |].
      cbn [negb orb].
      destruct (Qeq_bool (productionGuideRate (WellsGroup b cs) false) 0) eqn:E;
        [apply Qeq_bool_iff in E; contradiction |].
      split.
      * intros Hrun. apply bind_Ret_inv in Hrun as ([cs' W1] & Hcs & Hrun).
        cbn in Hrun. injection Hrun as <- <-.
        exists cs'. split; [apply apply_children_applied; exact Hcs | reflexivity].
      * intros (cs' & Hcs & ->). apply apply_children_applied in Hcs.
        rewrite Hcs. reflexivity.
Qed.

(** At the group of [P1] and [P2] under [FLD] control, with target 100
    for the oil rate: each well gets a control with target [-50], and
    the group stays under [FLD]. *)
Lemma applyProdGroupControl_group_witness :
  exists cs' W',
    applyProdGroupControl (Examples.field PS.FLD PS.RATE) PS.ORAT 100 false
      Examples.two_producers
    = Ret (WellsGroup (base_of (Examples.field PS.FLD PS.RATE)) cs', W')
    /\ Forall2 Qeq (Examples.last_targets W') [-50; -50].
Proof.
  pose proof (applyProdGroupControl_group
                (base_of (Examples.field PS.FLD PS.RATE))
                (children_of (Examples.field PS.FLD PS.RATE))
                PS.ORAT 100 false Examples.two_producers) as (_ & Hrun).
  specialize (Hrun ltac:(discriminate) eq_refl).
  destruct Hrun as (_ & _ & Hrun).
  specialize (Hrun ltac:(vm_compute; discriminate)).
  destruct (applyProdGroupControl (Examples.field PS.FLD PS.RATE) PS.ORAT 100 false
              Examples.two_producers) as [[g' W'] | e] eqn:E;
    [| vm_compute in E; discriminate].
  destruct (proj1 (Hrun g' W') E) as (cs' & _ & ->).
  exists cs', W'. split; [reflexivity |].
  vm_compute in E. injection E as _ <-.
  vm_compute. repeat constructor.
Defined.

(** C2 as worded fails on a group whose mode is [NONE]: it is left alone
    even when [only_group] is false, where the wording sends the target
    down and sets [FLD]. *)
Lemma applyProdGroupControl_not_as_specified :
  applyProdGroupControl (Examples.field PS.NONE PS.RATE) PS.ORAT 100 false
    Examples.two_producers
  = Ret (Examples.field PS.NONE PS.RATE, Examples.two_producers)
  /\ Specified.applyProdGroupControl_group
       (base_of (Examples.field PS.NONE PS.RATE))
       (children_of (Examples.field PS.NONE PS.RATE))
       PS.ORAT 100 false Examples.two_producers
     <> Ret (Examples.field PS.NONE PS.RATE, Examples.two_producers).
Proof. split; [reflexivity |]. vm_compute. discriminate. Qed.

(** Under [only_group] the numerators are the guide rates of the
    children under group control and the divisor is the guide rate of
    all children.  With [P2] under individual control and equal guide
    rates, [P1] gets the target 50 of the 100 handed to the group and
    [P2] the target 0, where the documentation of the function has the
    combined rate equal to the target, and where the injection sibling
    divides by the guide rate under [only_group]. *)
Lemma applyProdGroupControl_only_group_divisor :
  exists g W,
    applyProdGroupControl Examples.field_mixed PS.ORAT 100 true
      Examples.two_producers = Ret (g, W)
    /\ Forall2 Qeq (Examples.last_targets W) [-50; 0]
    /\ productionGuideRate Examples.field_mixed true == 1
    /\ productionGuideRate Examples.field_mixed false == 2.
Proof.
  eexists _, _. split; [vm_compute; reflexivity |].
  split; [vm_compute; repeat constructor |].
  split; vm_compute; reflexivity.
Qed.

(** *** conditionsMet *)

Import Specified.

(** Induction on the tree, with the hypothesis on every child of a
    group. *)
Lemma tree_ind (P : WellsGroupInterface -> Prop) :
  (forall b self gci shut, P (WellNode b self gci shut)) ->
  (forall b cs, Forall P cs -> P (WellsGroup b cs)) ->
  forall n, P n.
Proof.
  intros Hwell Hgroup. fix IH 1. intros [b self gci shut | b cs].
  - apply Hwell.
  - apply Hgroup. induction cs as [| c cs IHcs]; constructor.
    + apply IH.
    + exact IHcs.
Qed.

Section met.
Variables well_bhp well_reservoirrates_phase well_surfacerates_phase : list Q.

Let check (c : WellsGroupInterface) (W : Wells) : outcome met :=
  conditionsMet c W well_bhp well_reservoirrates_phase well_surfacerates_phase
    WellPhasesSummed.zero.

Lemma group_checks_false (g n' : WellsGroupInterface) (W W' : Wells)
    (child_phases_summed summed_phases s' : WellPhasesSummed.t) :
  group_checks g W well_reservoirrates_phase well_surfacerates_phase
    child_phases_summed summed_phases = Ret (false, n', W', s') ->
  s' = summed_phases.
Proof.
  unfold group_checks. intros Hrun.
  apply bind_Ret_inv in Hrun as (iv & _ & Hrun).
  destruct iv as [[mode target_rate] |].
  - apply bind_Ret_inv in Hrun as (r & _ & Hrun). simpl_ret Hrun. congruence.
  - apply bind_Ret_inv in Hrun as (pv & _ & Hrun).
    destruct pv as [mode |]; [| simpl_ret Hrun; congruence].
    destruct (PS.procedure_ (prodSpec g)).
    + simpl_ret Hrun. congruence.
    + apply bind_Ret_inv in Hrun as (tg & _ & Hrun).
      apply bind_Ret_inv in Hrun as (r & _ & Hrun). simpl_ret Hrun. congruence.
    + apply bind_Ret_inv in Hrun as (worst & _ & Hrun).
      destruct (worst.1 : WellNodePtr); [| discriminate].
      apply bind_Ret_inv in Hrun as (r & _ & Hrun). simpl_ret Hrun. congruence.
Qed.

Lemma group_checks_true (g n' : WellsGroupInterface) (W W' : Wells)
    (child_phases_summed summed_phases s' : WellPhasesSummed.t) :
  group_checks g W well_reservoirrates_phase well_surfacerates_phase
    child_phases_summed summed_phases = Ret (true, n', W', s') ->
  n' = g /\ W' = W
  /\ s' = WellPhasesSummed.plus_eq summed_phases child_phases_summed
  /\ injection_violated g child_phases_summed injection_modes = Ret None
  /\ production_violated g child_phases_summed production_modes = Ret None.
Proof.
  unfold group_checks. intros Hrun.
  apply bind_Ret_inv in Hrun as (iv & Hiv & Hrun).
  destruct iv as [[mode target_rate] |].
  - apply bind_Ret_inv in Hrun as (r & _ & Hrun). simpl_ret Hrun. congruence.
  - apply bind_Ret_inv in Hrun as (pv & Hpv & Hrun).
    destruct pv as [mode |].
    + destruct (PS.procedure_ (prodSpec g)).
      * simpl_ret Hrun. congruence.
      * apply bind_Ret_inv in Hrun as (tg & _ & Hrun).
        apply bind_Ret_inv in Hrun as (r & _ & Hrun). simpl_ret Hrun. congruence.
      * apply bind_Ret_inv in Hrun as (worst & _ & Hrun).
        destruct (worst.1 : WellNodePtr); [| discriminate].
        apply bind_Ret_inv in Hrun as (r & _ & Hrun). simpl_ret Hrun. congruence.
    + simpl_ret Hrun. injection Hrun as <- <- <-. auto.
Qed.

Lemma conditionsMet_children_true (cs : list WellsGroupInterface) :
  Forall (met_unchanged well_bhp well_reservoirrates_phase well_surfacerates_phase) cs ->
  forall W acc cs' W' acc',
    conditionsMet_children check cs W acc = Ret (true, cs', W', acc') ->
    cs' = cs /\ W' = W
    /\ totals_from (reported W well_reservoirrates_phase well_surfacerates_phase)
         cs acc = Ret acc'
    /\ Forall (fun c =>
                 Forall (within_targets W well_reservoirrates_phase
                           well_surfacerates_phase) (subnodes c)) cs.
Proof.
  induction 1 as [| c cs Hc _ IH]; intros W acc cs' W' acc' Hrun.
  - simpl_ret Hrun. injection Hrun as <- <- <-. repeat split. constructor.
  - cbn [conditionsMet_children] in Hrun.
    apply bind_Ret_inv in Hrun as ([[[ok c1] W1] cur] & Hcheck & Hrun).
    destruct ok; cbn [negb] in Hrun; [| discriminate].
    apply bind_Ret_inv in Hrun as ([[[ok2 cs2] W2] acc2] & Hrest & Hrun).
    simpl_ret Hrun. injection Hrun as -> <- <- <-.
    destruct (Hc _ _ _ _ _ Hcheck) as (-> & -> & Hrep & Hwithin).
    destruct (IH _ _ _ _ _ Hrest) as (-> & -> & Htot & Hall).
    repeat split.
    + cbn [totals_from]. rewrite (Hrep eq_refl). exact Htot.
    + constructor; assumption.
Qed.

Lemma injection_violated_None (n : WellsGroupInterface)
    (tot : WellPhasesSummed.t) (modes : list IS.ControlMode) :
  injection_violated n tot modes = Ret None ->
  forall mode target_rate my_rate,
    In mode modes ->
    IS.control_mode_ (injSpec n) <> mode ->
    getTarget_inj n mode = Ret target_rate ->
    0 <= target_rate ->
    rateByMode_inj (phaseUsage n)
      (vget (WellPhasesSummed.res_inj_rates tot))
      (vget (WellPhasesSummed.surf_inj_rates tot)) mode = Ret my_rate ->
    my_rate <= target_rate.
Proof.
  induction modes as [| m modes IH]; intros Hrun mode target_rate my_rate Hin;
    [destruct Hin |].
  cbn [injection_violated] in Hrun.
  destruct (decide (IS.control_mode_ (injSpec n) = m)) as [Hact | Hact].
  - destruct Hin as [<- | Hin]; [intros Hne; contradiction | apply IH; assumption].
  - apply bind_Ret_inv in Hrun as (tg & Htg & Hrun).
    destruct Hin as [<- | Hin].
    + intros _ Htarget Hset Hrate.
      rewrite Htarget in Htg. injection Htg as <-.
      apply Qle_bool_iff in Hset. rewrite Hset in Hrun.
      rewrite Hrate in Hrun. cbn [mbind outcome_bind] in Hrun.
      destruct (Qltb target_rate my_rate) eqn:E; [discriminate |].
      apply Qltb_ge in E. exact E.
    + destruct (Qle_bool 0 tg); [| apply IH; assumption].
      apply bind_Ret_inv in Hrun as (r & _ & Hrun).
      destruct (Qltb tg r); [discriminate | apply IH; assumption].
Qed.

Lemma production_violated_None (n : WellsGroupInterface)
    (tot : WellPhasesSummed.t) (modes : list PS.ControlMode) :
  production_violated n tot modes = Ret None ->
  forall mode target_rate my_rate,
    In mode modes ->
    PS.control_mode_ (prodSpec n) <> mode ->
    getTarget_prod n mode = Ret target_rate ->
    0 <= target_rate ->
    rateByMode_prod (phaseUsage n)
      (vget (WellPhasesSummed.res_prod_rates tot))
      (vget (WellPhasesSummed.surf_prod_rates tot)) mode = Ret my_rate ->
    Qabs my_rate <= target_rate /\ my_rate <= target_rate.
Proof.
  induction modes as [| m modes IH]; intros Hrun mode target_rate my_rate Hin;
    [destruct Hin |].
  cbn [production_violated] in Hrun.
  destruct (decide (PS.control_mode_ (prodSpec n) = m)) as [Hact | Hact].
  - destruct Hin as [<- | Hin]; [intros Hne; contradiction | apply IH; assumption].
  - apply bind_Ret_inv in Hrun as (tg & Htg & Hrun).
    destruct Hin as [<- | Hin].
    + intros _ Htarget Hset Hrate.
      rewrite Htarget in Htg. injection Htg as <-.
      apply Qle_bool_iff in Hset. rewrite Hset in Hrun.
      rewrite Hrate in Hrun. cbn [mbind outcome_bind] in Hrun.
      destruct (Qltb target_rate (Qabs my_rate)) eqn:E; [discriminate |].
      apply Qltb_ge in E. split; [exact E |].
      pose proof (Qle_Qabs my_rate). lra.
    + destruct (Qle_bool 0 tg); [| apply IH; assumption].
      apply bind_Ret_inv in Hrun as (r & _ & Hrun).
      destruct (Qltb tg (Qabs r)); [discriminate | apply IH; assumption].
Qed.

Lemma sum_phases_zero (np : nat) : sum_phases np (vget [0; 0; 0]) == 0.
Proof.
  unfold sum_phases.
  assert (Hz : forall i, vget [0; 0; 0] i == 0).
  { intros [| [| [| [| i]]]]; reflexivity. }
  assert (Hfold : forall l x, fold_left (fun tot phase => tot + vget [0; 0; 0] phase) l x == x).
  { induction l as [| i l IH]; intros x; simpl; [reflexivity |].
    rewrite IH, Hz. ring. }
  apply Hfold.
Qed.

Lemma vget_zero (i : nat) : vget [0; 0; 0] i == 0.
Proof. destruct i as [| [| [| [| i]]]]; reflexivity. Qed.

(** A well has no children: the aggregated rate is zero in every mode. *)
Lemma within_targets_well (W : Wells) (b : Base) (self : nat) (gci : Z)
    (shut : bool) :
  within_targets W well_reservoirrates_phase well_surfacerates_phase
    (WellNode b self gci shut).
Proof.
  exists WellPhasesSummed.zero. split; [reflexivity |]. split.
  - intros mode target_rate my_rate _ _ _ Hset Hrate.
    destruct mode; try discriminate;
      cbn [rateByMode_inj WellPhasesSummed.zero WellPhasesSummed.res_inj_rates
           WellPhasesSummed.surf_inj_rates] in Hrate;
      injection Hrate as <-; rewrite sum_phases_zero; exact Hset.
  - intros mode target_rate my_rate _ _ _ Hset Hrate.
    assert (Hzero : my_rate == 0).
    { destruct mode; try discriminate;
        cbn [rateByMode_prod WellPhasesSummed.zero WellPhasesSummed.res_prod_rates
             WellPhasesSummed.surf_prod_rates] in Hrate;
        injection Hrate as <-; rewrite ?sum_phases_zero, ?vget_zero;
        try reflexivity; ring. }
    rewrite Hzero. split; [cbn; exact Hset | exact Hset].
Qed.

Lemma conditionsMet_unchanged (n : WellsGroupInterface) :
  met_unchanged well_bhp well_reservoirrates_phase well_surfacerates_phase n.
Proof.
  induction n as [b self gci shut | b cs IH] using tree_ind;
    intros W s n' W' s' Hrun.
  - cbn [conditionsMet] in Hrun.
    apply bind_Ret_inv in Hrun as (s1 & Hrep & Hrun).
    apply bind_Ret_inv in Hrun as (ctrls & _ & Hrun).
    apply bind_Ret_inv in Hrun as (v & _ & Hrun).
    destruct v as [ctrl_index |].
    + apply bind_Ret_inv in Hrun as (W1 & _ & Hrun). simpl_ret Hrun. congruence.
    + simpl_ret Hrun. injection Hrun as <- <- <-.
      repeat split.
      * intros ->. exact Hrep.
      * constructor; [apply within_targets_well | constructor].
  - cbn [conditionsMet] in Hrun. fold check in Hrun.
    apply bind_Ret_inv in Hrun as ([[[ok cs1] W1] tot] & Hcs & Hrun).
    destruct ok; cbn [negb] in Hrun; [| simpl_ret Hrun; congruence].
    destruct (conditionsMet_children_true cs IH _ _ _ _ _ Hcs)
      as (-> & -> & Htot & Hall).
    destruct (group_checks_true _ _ _ _ _ _ _ Hrun)
      as (-> & -> & -> & Hinj & Hprod).
    repeat split.
    + intros ->. cbn [reported]. rewrite Htot. reflexivity.
    + cbn [subnodes]. constructor.
      * exists tot. split; [exact Htot |]. split.
        -- apply injection_violated_None. exact Hinj.
        -- apply production_violated_None. exact Hprod.
      * apply List.Forall_forall. intros m Hm.
        apply in_flat_map in Hm as (c & Hc & Hm).
        rewrite List.Forall_forall in Hall. specialize (Hall c Hc).
        rewrite List.Forall_forall in Hall. apply Hall. exact Hm.
Qed.

End met.

(** C3. When [conditionsMet] returns true at the root, it has changed
    neither the tree nor the wells, and at every node of the tree no
    injection mode in {RATE, RESV} and no production mode in {ORAT, WRAT,
    GRAT, LRAT, RESV} other than the active mode of the node has a set
    (nonnegative) target that the aggregated rate of the children
    exceeds. *)
Theorem conditionsMet_true_within_targets (root : WellsGroupInterface)
    (W : Wells) (well_bhp well_reservoirrates_phase well_surfacerates_phase : list Q)
    (summed_phases : WellPhasesSummed.t)
    (root' : WellsGroupInterface) (W' : Wells) (summed' : WellPhasesSummed.t) :
  conditionsMet root W well_bhp well_reservoirrates_phase well_surfacerates_phase
    summed_phases = Ret (true, root', W', summed') ->
  root' = root /\ W' = W
  /\ Forall (within_targets W well_reservoirrates_phase well_surfacerates_phase)
            (subnodes root).
Proof.
  intros Hrun.
  destruct (conditionsMet_unchanged _ _ _ root _ _ _ _ _ Hrun) as (-> & -> & _ & Hall).
  auto.
Qed.

Lemma conditionsMet_true_within_targets_witness :
  Forall (within_targets Examples.two_producers Examples.rates_50_30
            Examples.rates_50_30)
         (subnodes (Examples.field PS.FLD PS.RATE)).
Proof.
  destruct (conditionsMet (Examples.field PS.FLD PS.RATE) Examples.two_producers
              Examples.bhp_150 Examples.rates_50_30 Examples.rates_50_30
              WellPhasesSummed.zero) as [[[[ok n'] W'] s'] | e] eqn:E;
    [| vm_compute in E; discriminate].
  destruct ok; [| vm_compute in E; discriminate].
  exact (proj2 (proj2 (conditionsMet_true_within_targets _ _ _ _ _ _ _ _ _ E))).
Defined.

(** C10. When [WellsGroup::conditionsMet] returns false, [summed_phases]
    is as it was passed in; when it returns true, the aggregated totals
    of the children have been added to it. *)
Theorem conditionsMet_group_summed (b : Base) (cs : list WellsGroupInterface)
    (W : Wells) (well_bhp well_reservoirrates_phase well_surfacerates_phase : list Q)
    (summed_phases : WellPhasesSummed.t) (ok : bool)
    (n' : WellsGroupInterface) (W' : Wells) (summed' : WellPhasesSummed.t) :
  conditionsMet (WellsGroup b cs) W well_bhp well_reservoirrates_phase
    well_surfacerates_phase summed_phases = Ret (ok, n', W', summed') ->
  (ok = false -> summed' = summed_phases)
  /\ (ok = true ->
      exists tot,
        child_totals W well_reservoirrates_phase well_surfacerates_phase
          (WellsGroup b cs) = Ret tot
        /\ summed' = WellPhasesSummed.plus_eq summed_phases tot).
Proof.
  intros Hrun. cbn [conditionsMet] in Hrun.
  apply bind_Ret_inv in Hrun as ([[[okc cs1] W1] tot] & Hcs & Hrun).
  destruct okc; cbn [negb] in Hrun.
  - assert (Hall : Forall (met_unchanged well_bhp well_reservoirrates_phase
                             well_surfacerates_phase) cs).
    { apply List.Forall_forall. intros c _. apply conditionsMet_unchanged. }
    destruct (conditionsMet_children_true _ _ _ cs Hall _ _ _ _ _ Hcs)
      as (-> & -> & Htot & _).
    destruct ok.
    + split; [discriminate | intros _].
      destruct (group_checks_true _ _ _ _ _ _ _ _ _ Hrun) as (_ & _ & -> & _).
      exists tot. split; [exact Htot | reflexivity].
    + split; [intros _ | discriminate].
      apply (group_checks_false _ _ _ _ _ _ _ _ _ Hrun).
  - simpl_ret Hrun. injection Hrun as <- _ _ <-.
    split; [reflexivity | discriminate].
Qed.

(** The group target of 100 for the oil rate is exceeded by the wells
    producing 80 and 30: the call returns false and [summed_phases] is
    untouched. *)
Lemma conditionsMet_group_summed_witness :
  exists n' W',
    conditionsMet (Examples.field PS.FLD PS.RATE) Examples.two_producers
      Examples.bhp_150 Examples.rates_80_30 Examples.rates_80_30
      WellPhasesSummed.zero
    = Ret (false, n', W', WellPhasesSummed.zero).
Proof.
  destruct (conditionsMet (Examples.field PS.FLD PS.RATE) Examples.two_producers
              Examples.bhp_150 Examples.rates_80_30 Examples.rates_80_30
              WellPhasesSummed.zero) as [[[[ok n'] W'] s'] | e] eqn:E;
    [| vm_compute in E; discriminate].
  destruct ok; [vm_compute in E; discriminate |].
  exists n', W'.
  rewrite (proj1 (conditionsMet_group_summed _ _ _ _ _ _ _ _ _ _ _ E) eq_refl).
  reflexivity.
Defined.

End WellsGroupsFacts.

(** ** The operations on the tree and the controls of a well *)

Module WellsGroupTreeFacts.

Import well_controls WellsGroups Specified Tree.
Import WellsGroupsFacts.

(** *** findGroup *)

Lemma find_loop_spec (find : WellsGroupInterface -> NodePtr) (b : Base)
    (P : WellsGroupInterface -> Prop) (s : string) (cs : list WellsGroupInterface) :
  Forall (fun c =>
            (forall p, find c = Some p ->
                       exists m, node_at p c = Some m /\ name m = s)
            /\ (find c = None -> Forall P (subnodes c))) cs ->
  forall pre,
    (forall p, find_loop find cs (length pre) = Some p ->
               exists m, node_at p (WellsGroup b (pre ++ cs)) = Some m /\ name m = s)
    /\ (find_loop find cs (length pre) = None -> Forall P (flat_map subnodes cs)).
Proof.
  induction 1 as [| c cs [Hsome Hnone] _ IH]; intros pre.
  - split; [discriminate | constructor].
  - cbn [find_loop flat_map].
    specialize (IH (pre ++ [c])). rewrite length_app in IH. cbn [length] in IH.
    rewrite Nat.add_1_r, <- app_assoc in IH. cbn [app] in IH.
    destruct (find c) as [path |].
    + split; [| discriminate]. intros p [= <-].
      destruct (Hsome path eq_refl) as (m & Hat & Hname).
      exists m. split; [| exact Hname].
      cbn [node_at]. rewrite lookup_app_r by lia.
      rewrite Nat.sub_diag. exact Hat.
    + destruct IH as [IHsome IHnone]. split; [exact IHsome |].
      intros Hrest. apply Forall_app. split; [apply Hnone; reflexivity |].
      apply IHnone. exact Hrest.
Qed.

(** X8. [findGroup] returns a pointer to a node of the tree that has the
    name asked for; it returns the null pointer only when no node of the
    tree has that name. *)
Theorem findGroup_finds (n : WellsGroupInterface) (name_of_node : string) :
  (forall p, findGroup n name_of_node = Some p ->
             exists m, node_at p n = Some m /\ name m = name_of_node)
  /\ (findGroup n name_of_node = None ->
      Forall (fun m => name m <> name_of_node) (subnodes n)).
Proof.
  induction n as [b self gci shut | b cs IH] using tree_ind.
  - cbn [findGroup subnodes]. destruct (String.eqb_spec (name_ b) name_of_node).
    + split; [| discriminate]. intros p [= <-]. eexists. split; [reflexivity |].
      assumption.
    + split; [discriminate |]. intros _. repeat constructor. assumption.
  - cbn [findGroup subnodes]. destruct (String.eqb_spec (name_ b) name_of_node).
    + split; [| discriminate]. intros p [= <-]. eexists. split; [reflexivity |].
      assumption.
    + destruct (find_loop_spec (fun c => findGroup c name_of_node) b
                  (fun m => name m <> name_of_node) name_of_node cs IH [])
        as [Hsome Hnone].
      cbn [length app] in Hsome, Hnone.
      split; [exact Hsome |].
      intros Hrun. constructor; [assumption | apply Hnone; exact Hrun].
Qed.

(** *** numberOfLeafNodes *)

Lemma fold_left_Zplus (f : WellsGroupInterface -> Z) (cs : list WellsGroupInterface)
    (x : Z) :
  fold_left (fun sum c => (sum + f c)%Z) cs x
  = (x + fold_right Z.add 0%Z (map f cs))%Z.
Proof.
  revert x. induction cs as [| c cs IH]; intros x; cbn [fold_left map fold_right].
  - lia.
  - rewrite IH. lia.
Qed.

(** X9. [numberOfLeafNodes] is the number of wells of the tree; a group
    without children has none. *)
Theorem numberOfLeafNodes_counts (n : WellsGroupInterface) :
  numberOfLeafNodes n = Z.of_nat (length (wells n))
  /\ numberOfLeafNodes n
     = Z.of_nat (length (List.filter isLeafNode (subnodes n))).
Proof.
  induction n as [b self gci shut | b cs IH] using tree_ind.
  - split; reflexivity.
  - cbn [numberOfLeafNodes wells subnodes List.filter isLeafNode].
    rewrite fold_left_Zplus, Z.add_0_l.
    assert (Hsum : fold_right Z.add 0%Z (map numberOfLeafNodes cs)
                   = Z.of_nat (length (flat_map wells cs))
                   /\ fold_right Z.add 0%Z (map numberOfLeafNodes cs)
                      = Z.of_nat (length (List.filter isLeafNode
                                            (flat_map subnodes cs)))).
    { induction IH as [| c cs [Hc Hc'] _ IHcs]; [split; reflexivity |].
      cbn [map fold_right flat_map].
      rewrite List.filter_app, !length_app, !Nat2Z.inj_add.
      destruct IHcs as [H1 H2]. split.
      - rewrite H1, Hc. reflexivity.
      - rewrite H2, Hc'. reflexivity. }
    exact Hsum.
Qed.


(** *** Guide rates *)

Lemma Qsum_map_flat_map {A B : Type} (f : B -> Q) (g : A -> list B) (l : list A) :
  Qsum (map f (flat_map g l)) == Qsum (map (fun x => Qsum (map f (g x))) l).
Proof.
  induction l as [| x l IH]; cbn [flat_map map].
  - reflexivity.
  - rewrite map_app, Qsum_app, Qsum_cons, IH. reflexivity.
Qed.

Lemma Qsum_map_pointwise {A : Type} (f g : A -> Q) (l : list A) :
  Forall (fun x => f x == g x) l -> Qsum (map f l) == Qsum (map g l).
Proof.
  induction 1 as [| x l Hx _ IH]; cbn [map].
  - reflexivity.
  - rewrite !Qsum_cons, Hx, IH. reflexivity.
Qed.

(** X10. With [only_group] false the production guide rate of a node is
    the sum of the guide rates of the wells below it; the injection
    guide rate of a node is the sum of the injection guide rates of the
    wells below it whatever [only_group] is. *)
Theorem guide_rates_of_wells (n : WellsGroupInterface) (only_group : bool) :
  productionGuideRate n false
  == Qsum (map (fun w => PS.guide_rate_ (prodSpec w)) (wells n))
  /\ injectionGuideRate n only_group
     == Qsum (map (fun w => injectionGuideRate w only_group) (wells n)).
Proof.
  induction n as [b self gci shut | b cs IH] using tree_ind.
  - cbn [wells map]. rewrite !Qsum_cons.
    cbn [productionGuideRate negb orb]. unfold prodSpec, base_of, Qsum.
    cbn [fold_right]. split; ring.
  - split.
    + rewrite productionGuideRate_group. cbn [wells].
      rewrite Qsum_map_flat_map. apply Qsum_map_pointwise.
      apply List.Forall_impl with (2 := IH). intros c [Hc _]. exact Hc.
    + cbn [injectionGuideRate].
      rewrite (fold_left_Qplus (fun c => injectionGuideRate c only_group)).
      cbn [wells]. rewrite Qsum_map_flat_map, Qplus_0_l.
      apply Qsum_map_pointwise.
      apply List.Forall_impl with (2 := IH). intros c [_ Hc]. exact Hc.
Qed.


(** *** getTotalProductionFlow *)

Lemma sum_children_defined (flow : WellsGroupInterface -> outcome Q)
    (cs : list WellsGroupInterface) (ys : list Q) :
  Forall2 (fun c y => flow c = Ret y) cs ys ->
  forall sum, exists r, sum_children flow cs sum = Ret r /\ r == sum + Qsum ys.
Proof.
  induction 1 as [| c y cs ys Hc _ IH]; intros sum.
  - exists sum. split; [reflexivity |]. unfold Qsum. cbn [fold_right]. ring.
  - cbn [sum_children]. rewrite Hc. cbn [mbind outcome_bind].
    destruct (IH (sum + y)) as (r & Hrun & Hr).
    exists r. split; [exact Hrun |]. rewrite Hr, Qsum_cons. ring.
Qed.

(** X11. The production flow of a phase at a node is the sum of the flows
    of the wells below it, where the flow of a well that is an injector
    is zero and that of any other well is its entry of the rate vector:
    it is defined as soon as it is for every well. *)
Theorem getTotalProductionFlow_of_wells (n : WellsGroupInterface) (W : Wells)
    (phase_flows : list Q) (phase : BlackoilPhases.PhaseIndex) (xs : list Q) :
  Forall2 (fun w x => getTotalProductionFlow w W phase_flows phase = Ret x)
          (wells n) xs ->
  (exists r, getTotalProductionFlow n W phase_flows phase = Ret r
             /\ r == Qsum xs)
  /\ Forall2 (fun w x =>
                exists b self gci shut,
                  w = WellNode b self gci shut
                  /\ ((isInjector w W = Ret true /\ x = 0)
                      \/ (isInjector w W = Ret false
                          /\ x = vget phase_flows
                                   (self * num_phases (phase_usage_ b)
                                    + phase_pos (phase_usage_ b) phase))))
             (wells n) xs.
Proof.
  revert xs. induction n as [b self gci shut | b cs IH] using tree_ind;
    intros xs Hxs.
  - cbn [wells] in *. inversion Hxs as [| w x ws xs' Hx Hnil]; subst.
    inversion Hnil; subst. split.
    + exists x. split; [exact Hx |]. rewrite Qsum_cons. unfold Qsum.
      cbn [fold_right]. ring.
    + constructor; [| constructor].
      exists b, self, gci, shut. split; [reflexivity |].
      cbn [getTotalProductionFlow] in Hx.
      destruct (isInjector (WellNode b self gci shut) W) as [[|] | e];
        cbn [mbind outcome_bind] in Hx; [| | discriminate].
      * left. split; [reflexivity | congruence].
      * right. split; [reflexivity | congruence].
  - cbn [wells getTotalProductionFlow] in *.
    assert (Hsplit : exists ys,
               Forall2 (fun c y => getTotalProductionFlow c W phase_flows phase
                                   = Ret y) cs ys
               /\ Qsum ys == Qsum xs
               /\ Forall2 (fun w x =>
                    exists b self gci shut,
                      w = WellNode b self gci shut
                      /\ ((isInjector w W = Ret true /\ x = 0)
                          \/ (isInjector w W = Ret false
                              /\ x = vget phase_flows
                                       (self * num_phases (phase_usage_ b)
                                        + phase_pos (phase_usage_ b) phase))))
                    (flat_map wells cs) xs).
    { revert xs Hxs. induction IH as [| c cs Hc _ IHcs]; intros xs Hxs.
      - cbn [flat_map] in *. inversion Hxs; subst.
        exists []. repeat split; constructor.
      - cbn [flat_map] in *. apply Forall2_app_inv_l in Hxs
          as (xs1 & xs2 & H1 & H2 & ->).
        destruct (Hc xs1 H1) as [(r & Hr & Hsum) Hwells].
        destruct (IHcs xs2 H2) as (ys & Hys & Hsums & Hwells').
        exists (r :: ys). split; [constructor; assumption |]. split.
        + rewrite Qsum_cons, Qsum_app, Hsum, Hsums. reflexivity.
        + apply Forall2_app; assumption. }
    destruct Hsplit as (ys & Hys & Hsum & Hwells).
    destruct (sum_children_defined _ cs ys Hys 0) as (r & Hrun & Hr).
    split; [| exact Hwells].
    exists r. split; [exact Hrun |]. rewrite Hr, Hsum. ring.
Qed.

(** *** applyProdGroupControls and applyInjGroupControls *)

Lemma apply_children_unchanged
    (apply : WellsGroupInterface -> Wells -> outcome (WellsGroupInterface * Wells))
    (cs : list WellsGroupInterface) :
  Forall (fun c => forall W, apply c W = Ret (c, W)) cs ->
  forall W, apply_children apply cs W = Ret (cs, W).
Proof.
  induction 1 as [| c cs Hc _ IH]; intros W.
  - reflexivity.
  - cbn [apply_children]. rewrite Hc. cbn [mbind outcome_bind fst snd].
    rewrite IH. reflexivity.
Qed.

Lemma Forall_subnodes_children (P : WellsGroupInterface -> Prop) (b : Base)
    (cs : list WellsGroupInterface) :
  Forall P (subnodes (WellsGroup b cs)) ->
  P (WellsGroup b cs) /\ Forall (fun c => Forall P (subnodes c)) cs.
Proof.
  cbn [subnodes]. intros Hall. inversion Hall as [| m ms Hroot Hrest]; subst.
  split; [exact Hroot |].
  clear Hall Hroot. induction cs as [| c cs IH]; [constructor |].
  cbn [flat_map] in Hrest. apply Forall_app in Hrest as [Hc Hcs].
  constructor; [exact Hc | apply IH; exact Hcs].
Qed.

(** X12. On a tree in which every group is under [FLD] or [NONE],
    [applyProdGroupControls] changes neither the tree nor the wells; and
    so does [applyInjGroupControls] on a tree in which every group is
    under [FLD], [NONE], [VREP] or [REIN]. *)
Theorem applyGroupControls_passes (n : WellsGroupInterface) (W : Wells) :
  (Forall passes_production (subnodes n) ->
     applyProdGroupControls n W = Ret (n, W))
  /\ (Forall passes_injection (subnodes n) ->
        applyInjGroupControls n W = Ret (n, W)).
Proof.
  revert W. induction n as [b self gci shut | b cs IH] using tree_ind; intros W.
  - split; reflexivity.
  - split; intros Hall; apply Forall_subnodes_children in Hall as [Hroot Hcs].
    + assert (Hrec : apply_children applyProdGroupControls cs W = Ret (cs, W)).
      { apply apply_children_unchanged.
        rewrite List.Forall_forall in IH, Hcs. apply List.Forall_forall.
        intros c Hc W'. apply (proj1 (IH c Hc W')). apply Hcs. exact Hc. }
      cbn [applyProdGroupControls].
      destruct Hroot as [Hleaf | [Hmode | Hmode]]; [discriminate | |];
        unfold prodSpec, base_of in Hmode; rewrite Hmode, Hrec; reflexivity.
    + assert (Hrec : apply_children applyInjGroupControls cs W = Ret (cs, W)).
      { apply apply_children_unchanged.
        rewrite List.Forall_forall in IH, Hcs. apply List.Forall_forall.
        intros c Hc W'. apply (proj2 (IH c Hc W')). apply Hcs. exact Hc. }
      cbn [applyInjGroupControls].
      destruct Hroot as [Hleaf | [Hmode | [Hmode | [Hmode | Hmode]]]];
        [discriminate | | | |];
        unfold injSpec, base_of in Hmode; rewrite Hmode, ?Hrec; reflexivity.
Qed.


Lemma apply_children_pointwise
    (f g : WellsGroupInterface -> Wells -> outcome (WellsGroupInterface * Wells))
    (cs : list WellsGroupInterface) (W : Wells) :
  (forall c W', f c W' = g c W') ->
  apply_children f cs W = apply_children g cs W.
Proof.
  intros Hfg. revert W. induction cs as [| c cs IH]; intros W.
  - reflexivity.
  - cbn [apply_children]. rewrite Hfg. destruct (g c W) as [r | e]; [| reflexivity].
    cbn [mbind outcome_bind]. rewrite IH. reflexivity.
Qed.

Lemma Qsum_shares {A : Type} (f : A -> Q) (G T : Q) (l : list A) :
  Qsum (map (fun x => f x / G * T) l) == Qsum (map f l) / G * T.
Proof.
  induction l as [| x l IH]; cbn [map].
  - unfold Qsum, Qdiv. cbn [fold_right]. ring.
  - rewrite !Qsum_cons, IH. unfold Qdiv. ring.
Qed.

(** X13. At a group, [applyProdGroupControls] raises an error when the
    mode of the group is [GRAT], [CRAT], [PRBL], [BHP], [THP] or [GRUP],
    and, under [ORAT], [WRAT], [LRAT] or [RESV], when the guide rates of
    the children sum to zero.  Otherwise, under one of these four modes,
    it takes the children in order, each with its share
    [guideRate_c / G] of the group's target for that mode and with
    [only_group] false; the shares add up to the target, which is not
    divided by the efficiency factor of the group, and the mode of the
    group stays as it is. *)
Theorem applyProdGroupControls_distributes (b : Base)
    (cs : list WellsGroupInterface) (W : Wells) :
  let g := WellsGroup b cs in
  let mode := PS.control_mode_ (production_specification_ b) in
  let G := productionGuideRate g false in
  (In mode [PS.GRAT; PS.CRAT; PS.PRBL; PS.BHP; PS.THP; PS.GRUP] ->
     applyProdGroupControls g W
     = Raise (runtime_error "Unhandled group production control type"))
  /\ (In mode [PS.ORAT; PS.WRAT; PS.LRAT; PS.RESV] -> G == 0 ->
        exists e, applyProdGroupControls g W = Raise (runtime_error e))
  /\ (In mode [PS.ORAT; PS.WRAT; PS.LRAT; PS.RESV] -> ~ G == 0 ->
        exists T,
          getTarget_prod g mode = Ret T
          /\ let share c := productionGuideRate c false / G * T in
             Qsum (map share cs) == T
             /\ forall g' W',
                  applyProdGroupControls g W = Ret (g', W')
                  <-> exists cs',
                        children_applied
                          (fun c W' => applyProdGroupControl c mode (share c) false W')
                          cs W cs' W'
                        /\ g' = WellsGroup b cs').
Proof.
  intros g mode G. subst g. split; [| split].
  - intros Hmode. cbn [applyProdGroupControls]. fold mode.
    cbn [In] in Hmode.
    destruct Hmode as [<- | [<- | [<- | [<- | [<- | [<- | []]]]]]]; reflexivity.
  - intros Hmode HG. cbn [applyProdGroupControls]. fold mode G.
    apply Qeq_bool_iff in HG. rewrite HG. cbn [In] in Hmode.
    destruct Hmode as [<- | [<- | [<- | [<- | []]]]]; eexists; reflexivity.
  - intros Hmode HG.
    assert (HT : exists T, getTarget_prod (WellsGroup b cs) mode = Ret T).
    { cbn [In] in Hmode.
      destruct Hmode as [<- | [<- | [<- | [<- | []]]]]; eexists; reflexivity. }
    destruct HT as [T HT]. exists T. split; [exact HT |]. cbn zeta. split.
    + rewrite (Qsum_shares (fun c => productionGuideRate c false)).
      rewrite <- (productionGuideRate_group b cs). fold G. field. exact HG.
    + intros g' W'.
      assert (Hrun : applyProdGroupControls (WellsGroup b cs) W
                     = (r ← apply_children
                              (fun c W' =>
                                 applyProdGroupControl c mode
                                   (productionGuideRate c false / G * T) false W')
                              cs W;
                        mret (WellsGroup b r.1, r.2))).
      { cbn [applyProdGroupControls]. fold mode G.
        destruct (Qeq_bool G 0) eqn:E; [apply Qeq_bool_iff in E; contradiction |].
        assert (Hbody :
                  apply_children
                    (fun c W' =>
                       tg ← getTarget_prod (WellsGroup b cs) mode;
                       applyProdGroupControl c mode
                         (productionGuideRate c false / G * tg) false W') cs W
                  = apply_children
                      (fun c W' =>
                         applyProdGroupControl c mode
                           (productionGuideRate c false / G * T) false W') cs W).
        { apply apply_children_pointwise. intros c W0. rewrite HT. reflexivity. }
        cbn [In] in Hmode.
        destruct Hmode as [Hm | [Hm | [Hm | [Hm | []]]]];
          rewrite <- Hm in *; rewrite Hbody; reflexivity. }
      rewrite Hrun. split.
      * intros Hret. apply bind_Ret_inv in Hret as ([cs' W1] & Hcs & Hret).
        cbn in Hret. injection Hret as <- <-.
        exists cs'. split; [apply apply_children_applied; exact Hcs | reflexivity].
      * intros (cs' & Hcs & ->). apply apply_children_applied in Hcs.
        rewrite Hcs. reflexivity.
Qed.


(** *** The group control of a well *)

Lemma iget_Some {A : Type} (a : list A) (i : nat) (x : A) :
  a !! i = Some x -> iget a (Z.of_nat i) = Ret x.
Proof.
  intros Hi. unfold iget.
  destruct (Z.ltb_spec (Z.of_nat i) 0); [lia |].
  rewrite Nat2Z.id, Hi. reflexivity.
Qed.

Lemma iset_lt {A : Type} (a : list A) (i : nat) (x : A) :
  (i < length a)%nat -> iset a (Z.of_nat i) x = Ret (<[i := x]> a).
Proof.
  intros Hi. unfold iset.
  destruct (Z.ltb_spec (Z.of_nat i) 0); [lia |].
  rewrite Nat2Z.id. destruct (decide (i < length a)%nat); [reflexivity | lia].
Qed.

Lemma get_ctrls_Some (W : Wells) (w : nat) (c : WellControls) :
  ctrls W !! w = Some c -> get_ctrls W w = Ret c.
Proof. apply iget_Some. Qed.

Lemma put_ctrls_Some (W : Wells) (w : nat) (c c' : WellControls) :
  ctrls W !! w = Some c ->
  put_ctrls W w c' = Ret (mkWells (wells_type W) (<[w := c']> (ctrls W))).
Proof.
  intros Hw. unfold put_ctrls.
  rewrite iset_lt by (eapply lookup_lt_Some; exact Hw). reflexivity.
Qed.

Lemma install_group_control_spec (self : nat) (gci : Z) (wct : WellControlType)
    (tg alq_overwrite : Q) (di : list Q) (W : Wells) (c : WellControls) :
  ctrls W !! self = Some c ->
  (gci < Z.of_nat (length (controls c)))%Z ->
  let k := mkControl wct tg invalid_alq invalid_vfp di in
  install_group_control self gci wct tg alq_overwrite di W
  = Ret (group_slot gci c,
         mkWells (wells_type W)
           (<[self := mkWellControls (current c) (open c)
                        (with_group_control gci k alq_overwrite c)]> (ctrls W))).
Proof.
  intros Hc Hgci k. unfold install_group_control, group_slot, with_group_control.
  destruct (Z.ltb_spec gci 0) as [Hneg | Hpos].
  - unfold append_well_controls. rewrite (get_ctrls_Some _ _ _ Hc).
    cbn [mbind outcome_bind]. rewrite (put_ctrls_Some _ _ _ _ Hc).
    cbn [mbind outcome_bind].
    erewrite get_ctrls_Some
      by (cbn [ctrls]; apply list_lookup_insert_eq; eapply lookup_lt_Some; exact Hc).
    cbn [mbind outcome_bind mret outcome_ret].
    unfold well_controls_get_num, well_controls_add_new. cbn [controls].
    rewrite length_app. cbn [length]. do 2 f_equal. lia.
  - rewrite (get_ctrls_Some _ _ _ Hc). cbn [mbind outcome_bind].
    unfold well_controls_iset.
    assert (Hg : gci = Z.of_nat (Z.to_nat gci)) by lia.
    revert Hg. generalize (Z.to_nat gci). intros i ->. rewrite ?Nat2Z.id.
    destruct (lookup_lt_is_Some_2 (controls c) i ltac:(lia)) as [old Hold].
    rewrite (iget_Some _ _ _ Hold). cbn [mbind outcome_bind].
    rewrite iset_lt by lia. cbn [mbind outcome_bind mret outcome_ret].
    rewrite (put_ctrls_Some _ _ _ _ Hc). cbn [mbind outcome_bind].
    rewrite Hold. reflexivity.
Qed.


Lemma applyProdGroupControl_installs (b : Base) (self : nat) (gci : Z) (shut : bool)
    (control_mode : PS.ControlMode) (target : Q) (only_group : bool) (W : Wells)
    (c : WellControls) (wct : WellControlType) (di : list Q) :
  wells_type W !! self = Some PRODUCER ->
  ctrls W !! self = Some c ->
  (gci < Z.of_nat (length (controls c)))%Z ->
  prod_distr (phase_usage_ b) control_mode = Ret (wct, di) ->
  only_group && individual_control_ b = false ->
  let k := mkControl wct (- target / efficicency_factor_ b) invalid_alq invalid_vfp di in
  applyProdGroupControl (WellNode b self gci shut) control_mode target only_group W
  = Ret (WellNode b self (group_slot gci c) shut,
         mkWells (wells_type W)
           (<[self := mkWellControls (group_slot gci c) (open c)
                        (with_group_control gci k (- (10 ^ 100)) c)]> (ctrls W))).
Proof.
  intros Hty Hc Hgci Hdistr Hgroup k.
  cbn [applyProdGroupControl isProducer]. unfold type_of.
  rewrite (iget_Some _ _ _ Hty). cbn [mbind outcome_bind mret outcome_ret].
  rewrite bool_decide_eq_true_2 by reflexivity. cbn [negb].
  rewrite Hgroup, Hdistr. cbn [mbind outcome_bind fst snd].
  rewrite (install_group_control_spec _ _ _ _ _ _ _ _ Hc Hgci).
  cbn [mbind outcome_bind fst snd]. unfold set_current_control.
  erewrite get_ctrls_Some
    by (cbn [ctrls]; apply list_lookup_insert_eq; eapply lookup_lt_Some; exact Hc).
  cbn [mbind outcome_bind].
  erewrite put_ctrls_Some
    by (cbn [ctrls]; apply list_lookup_insert_eq; eapply lookup_lt_Some; exact Hc).
  cbn [wells_type ctrls]. rewrite list_insert_insert_eq. reflexivity.
Qed.

Lemma length_with_group_control (gci : Z) (k : control) (alq_overwrite : Q)
    (c : WellControls) :
  length (with_group_control gci k alq_overwrite c)
  = if (gci <? 0)%Z then S (length (controls c)) else length (controls c).
Proof.
  unfold with_group_control. destruct (gci <? 0)%Z.
  - rewrite length_app. cbn [length]. lia.
  - apply length_insert.
Qed.

Lemma with_group_control_slot (gci : Z) (k : control) (alq_overwrite : Q)
    (c : WellControls) :
  (gci < Z.of_nat (length (controls c)))%Z ->
  exists k',
    with_group_control gci k alq_overwrite c !! Z.to_nat (group_slot gci c) = Some k'
    /\ well_controls.type k' = well_controls.type k
    /\ target k' = target k /\ distr k' = distr k.
Proof.
  intros Hgci. unfold with_group_control, group_slot.
  destruct (Z.ltb_spec gci 0).
  - exists k. rewrite Nat2Z.id, lookup_app_r by lia.
    rewrite Nat.sub_diag. auto.
  - eexists. split; [apply list_lookup_insert_eq; lia |]. auto.
Qed.

(** X14. At a well that is a producer and is not left out as individually
    controlled, [applyProdGroupControl] puts the control of the mode,
    with the target negated and divided by the efficiency factor of the
    well, in the group slot of the well and makes it the current one: the
    slot is a new last one when the well had none, and the one it had
    otherwise.  The other wells and the node itself, its group slot
    apart, stay as they were, and a further call reuses the slot: the
    well never gets a second one. *)
Theorem applyProdGroupControl_well (b : Base) (self : nat) (gci : Z) (shut : bool)
    (control_mode : PS.ControlMode) (target : Q) (only_group : bool) (W : Wells)
    (c : WellControls) (wct : WellControlType) (di : list Q) :
  wells_type W !! self = Some PRODUCER ->
  ctrls W !! self = Some c ->
  (gci < Z.of_nat (length (controls c)))%Z ->
  prod_distr (phase_usage_ b) control_mode = Ret (wct, di) ->
  only_group && individual_control_ b = false ->
  exists slot W' c' k,
    applyProdGroupControl (WellNode b self gci shut) control_mode target only_group W
    = Ret (WellNode b self slot shut, W')
    /\ wells_type W' = wells_type W
    /\ (forall j, j <> self -> ctrls W' !! j = ctrls W !! j)
    /\ ctrls W' !! self = Some c'
    /\ current c' = slot /\ open c' = open c
    /\ (0 <= slot)%Z
    /\ controls c' !! Z.to_nat slot = Some k
    /\ well_controls.type k = wct
    /\ well_controls.target k = - target / efficicency_factor_ b
    /\ distr k = di
    /\ length (controls c')
       = (if (gci <? 0)%Z then S (length (controls c)) else length (controls c))
    /\ (forall control_mode2 target2 only_group2 wct2 di2,
          prod_distr (phase_usage_ b) control_mode2 = Ret (wct2, di2) ->
          only_group2 && individual_control_ b = false ->
          exists W2 c2,
            applyProdGroupControl (WellNode b self slot shut) control_mode2
              target2 only_group2 W'
            = Ret (WellNode b self slot shut, W2)
            /\ ctrls W2 !! self = Some c2
            /\ length (controls c2) = length (controls c')).
Proof.
  intros Hty Hc Hgci Hdistr Hgroup.
  pose proof (applyProdGroupControl_installs b self gci shut control_mode target
                only_group W c wct di Hty Hc Hgci Hdistr Hgroup) as Hrun.
  cbv zeta in Hrun.
  set (k0 := mkControl wct (- target / efficicency_factor_ b) invalid_alq
                       invalid_vfp di) in *.
  destruct (with_group_control_slot gci k0 (- (10 ^ 100)) c Hgci)
    as (k & Hk & Hkt & Hktg & Hkd).
  assert (Hself : (self < length (ctrls W))%nat)
    by (eapply lookup_lt_Some; exact Hc).
  assert (Hslot : (0 <= group_slot gci c
                   < Z.of_nat (length (with_group_control gci k0 (- (10 ^ 100)) c)))%Z).
  { rewrite length_with_group_control. unfold group_slot.
    destruct (Z.ltb_spec gci 0); lia. }
  eexists _, _, _, k. split; [exact Hrun |].
  cbn [wells_type ctrls current open controls].
  split; [reflexivity |].
  split; [intros j Hj; apply list_lookup_insert_ne; congruence |].
  split; [apply list_lookup_insert_eq; exact Hself |].
  split; [reflexivity |]. split; [reflexivity |].
  split; [lia |].
  split; [exact Hk |].
  split; [exact Hkt |]. split; [exact Hktg |]. split; [exact Hkd |].
  split; [apply length_with_group_control |].
  intros control_mode2 target2 only_group2 wct2 di2 Hdistr2 Hgroup2.
  match goal with
  | |- context [applyProdGroupControl _ _ _ _ (mkWells ?ty ?cs)] =>
      pose proof (applyProdGroupControl_installs b self (group_slot gci c) shut
                    control_mode2 target2 only_group2 (mkWells ty cs)
                    (mkWellControls (group_slot gci c) (open c)
                       (with_group_control gci k0 (- (10 ^ 100)) c))
                    wct2 di2) as Hrun2
  end.
  cbn [wells_type ctrls controls] in Hrun2.
  specialize (Hrun2 Hty (list_lookup_insert_eq _ _ _ Hself) ltac:(lia)
                    Hdistr2 Hgroup2).
  cbv zeta in Hrun2.
  assert (Hsame : group_slot (group_slot gci c)
                    (mkWellControls (group_slot gci c) (open c)
                       (with_group_control gci k0 (- (10 ^ 100)) c))
                  = group_slot gci c).
  { unfold group_slot at 1. destruct (Z.ltb_spec (group_slot gci c) 0); [lia |].
    reflexivity. }
  rewrite Hsame in Hrun2.
  eexists _, _. split; [exact Hrun2 |].
  cbn [ctrls controls].
  split; [apply list_lookup_insert_eq; rewrite length_insert; exact Hself |].
  cbn [controls]. rewrite (length_with_group_control (group_slot gci c)).
  cbn [controls]. destruct (Z.ltb_spec (group_slot gci c) 0); [lia | reflexivity].
Qed.


(** *** shutWell *)

(** X15. [shutWell] on a well that is configured to be stopped closes the
    well and touches none of its controls.  Otherwise it puts a
    [SURFACE_RATE] control with target zero, on all three phases, in the
    group slot of the well, a new last slot if the well had none, and
    opens the well.  In both cases the current control of the well stays
    the one it was, and the other wells are not touched. *)
Theorem shutWell_well (b : Base) (self : nat) (gci : Z) (shut : bool)
    (W : Wells) (c : WellControls) :
  ctrls W !! self = Some c ->
  (gci < Z.of_nat (length (controls c)))%Z ->
  exists slot W' c',
    shutWell (WellNode b self gci shut) W = Ret (WellNode b self slot shut, W')
    /\ wells_type W' = wells_type W
    /\ (forall j, j <> self -> ctrls W' !! j = ctrls W !! j)
    /\ ctrls W' !! self = Some c'
    /\ current c' = current c
    /\ open c' = negb shut
    /\ (shut = true -> slot = gci /\ controls c' = controls c)
    /\ (shut = false ->
        slot = group_slot gci c
        /\ length (controls c')
           = (if (gci <? 0)%Z then S (length (controls c)) else length (controls c))
        /\ exists k,
             controls c' !! Z.to_nat slot = Some k
             /\ well_controls.type k = SURFACE_RATE
             /\ target k = 0 /\ distr k = [1; 1; 1]).
Proof.
  intros Hc Hgci.
  assert (Hself : (self < length (ctrls W))%nat)
    by (eapply lookup_lt_Some; exact Hc).
  cbn [shutWell]. destruct shut.
  - rewrite (get_ctrls_Some _ _ _ Hc). cbn [mbind outcome_bind].
    rewrite (put_ctrls_Some _ _ _ _ Hc). cbn [mbind outcome_bind mret outcome_ret].
    eexists _, _, _. split; [reflexivity |]. cbn [wells_type ctrls].
    split; [reflexivity |].
    split; [intros j Hj; apply list_lookup_insert_ne; congruence |].
    split; [apply list_lookup_insert_eq; exact Hself |].
    unfold well_controls_stop_well. cbn [current open controls negb].
    repeat split; discriminate.
  - rewrite (install_group_control_spec _ _ _ _ _ _ _ _ Hc Hgci).
    cbn [mbind outcome_bind fst snd].
    erewrite get_ctrls_Some by (cbn [ctrls]; apply list_lookup_insert_eq; exact Hself).
    cbn [mbind outcome_bind].
    erewrite put_ctrls_Some by (cbn [ctrls]; apply list_lookup_insert_eq; exact Hself).
    cbn [mbind outcome_bind mret outcome_ret fst snd wells_type ctrls].
    rewrite list_insert_insert_eq.
    eexists _, _, _. split; [reflexivity |]. cbn [wells_type ctrls].
    split; [reflexivity |].
    split; [intros j Hj; apply list_lookup_insert_ne; congruence |].
    split; [apply list_lookup_insert_eq; exact Hself |].
    unfold well_controls_open_well. cbn [current open controls negb].
    split; [reflexivity |]. split; [reflexivity |].
    split; [discriminate |]. intros _.
    split; [reflexivity |].
    split; [apply length_with_group_control |].
    destruct (with_group_control_slot gci
                (mkControl SURFACE_RATE 0 invalid_alq invalid_vfp [1; 1; 1]) 0 c Hgci)
      as (k & Hk & Hkt & Hktg & Hkd).
    exists k. auto.
Qed.

(** *** The names of the modes *)

Ltac by_name :=
  repeat match goal with
         | H : context [String.eqb ?a ?b] |- _ =>
             destruct (String.eqb_spec a b); [subst |]
         end.

(** X16. [toProductionControlMode], [toInjectionControlMode] and
    [toProductionProcedure] read the name of every value of their
    enumeration back as that value, and accept no other string;
    [toInjectorType] looks at the first character only and accepts none
    of an empty string. *)
Theorem names_read_back :
  (forall m, toProductionControlMode (production_mode_name m) = Ret m)
  /\ (forall s m, toProductionControlMode s = Ret m -> s = production_mode_name m)
  /\ (forall m, toInjectionControlMode (injection_mode_name m) = Ret m)
  /\ (forall s m, toInjectionControlMode s = Ret m -> s = injection_mode_name m)
  /\ (forall p, toProductionProcedure (procedure_name p) = Ret p)
  /\ (forall s p, toProductionProcedure s = Ret p -> s = procedure_name p)
  /\ (forall c rest,
        toInjectorType (String c rest) = toInjectorType (String c EmptyString))
  /\ (forall t, toInjectorType EmptyString <> Ret t).
Proof.
  repeat split.
  - intros []; reflexivity.
  - intros s m Hrun. unfold toProductionControlMode in Hrun.
    by_name; try discriminate; injection Hrun as <-; reflexivity.
  - intros []; reflexivity.
  - intros s m Hrun. unfold toInjectionControlMode in Hrun.
    by_name; try discriminate; injection Hrun as <-; reflexivity.
  - intros []; reflexivity.
  - intros s p Hrun. unfold toProductionProcedure in Hrun.
    by_name; try discriminate; injection Hrun as <-; reflexivity.
  - discriminate.
Qed.


(** *** updateWellProductionTargets *)

Lemma apply_children_local
    (f : WellsGroupInterface -> Wells -> outcome (WellsGroupInterface * Wells))
    (upd : WellsGroupInterface -> WellControls -> WellControls) (W0 : Wells)
    (cs : list WellsGroupInterface) :
  NoDup (self_index <$> cs) ->
  Forall (fun c =>
            forall W, wells_type W = wells_type W0 ->
                      ctrls W !! self_index c = ctrls W0 !! self_index c ->
                      exists cc c',
                        ctrls W0 !! self_index c = Some cc
                        /\ f c W = Ret (c', mkWells (wells_type W0)
                                              (<[self_index c := upd c cc]> (ctrls W))))
         cs ->
  forall W,
    wells_type W = wells_type W0 ->
    Forall (fun c => ctrls W !! self_index c = ctrls W0 !! self_index c) cs ->
    exists cs' W',
      apply_children f cs W = Ret (cs', W')
      /\ wells_type W' = wells_type W0
      /\ Forall (fun c => exists cc, ctrls W0 !! self_index c = Some cc
                                     /\ ctrls W' !! self_index c = Some (upd c cc)) cs
      /\ (forall j, j ∉ self_index <$> cs -> ctrls W' !! j = ctrls W !! j).
Proof.
  intros Hnodup Hlocal. induction Hlocal as [| c cs Hc _ IH]; intros W Hty Hsame.
  - exists [], W. repeat split; [exact Hty | constructor].
  - cbn [fmap list_fmap] in Hnodup. apply NoDup_cons in Hnodup as [Hnotin Hnodup].
    apply Forall_cons in Hsame as [Hsame_c Hsame].
    destruct (Hc W Hty Hsame_c) as (cc & c' & Hcc & Hrun).
    assert (Hlt : (self_index c < length (ctrls W))%nat).
    { apply lookup_lt_is_Some. rewrite Hsame_c, Hcc. eauto. }
    set (W1 := mkWells (wells_type W0) (<[self_index c := upd c cc]> (ctrls W))) in *.
    destruct (IH Hnodup W1) as (cs' & W' & Hrest & Hty' & Hall & Hframe).
    { reflexivity. }
    { apply Forall_forall. intros c2 Hc2. subst W1. cbn [ctrls].
      rewrite list_lookup_insert_ne.
      - rewrite Forall_forall in Hsame. apply Hsame. exact Hc2.
      - intros Heq. apply Hnotin. rewrite Heq.
        apply list_elem_of_fmap_2. exact Hc2. }
    exists (c' :: cs'), W'. cbn [apply_children]. rewrite Hrun.
    cbn [mbind outcome_bind fst snd]. rewrite Hrest.
    cbn [mbind outcome_bind mret outcome_ret fst snd].
    split; [reflexivity |]. split; [exact Hty' |]. split.
    + constructor; [| exact Hall].
      exists cc. split; [exact Hcc |].
      rewrite (Hframe _ Hnotin). subst W1. cbn [ctrls].
      apply list_lookup_insert_eq. exact Hlt.
    + intros j Hj. cbn [fmap list_fmap] in Hj.
      apply not_elem_of_cons in Hj as [Hne Hj].
      rewrite (Hframe _ Hj). subst W1. cbn [ctrls].
      apply list_lookup_insert_ne. congruence.
Qed.





(** *** applyExplicitReinjectionControls *)

Lemma applyInjGroupControl_installs (b : Base) (self : nat) (gci : Z) (shut : bool)
    (control_mode : IS.ControlMode) (wct : WellControlType) (target : Q)
    (only_group : bool) (W : Wells) (c : WellControls) :
  wells_type W !! self = Some INJECTOR ->
  ctrls W !! self = Some c ->
  (gci < Z.of_nat (length (controls c)))%Z ->
  (control_mode = IS.RATE /\ wct = SURFACE_RATE
   \/ control_mode = IS.RESV /\ wct = RESERVOIR_RATE) ->
  only_group && individual_control_ b = false ->
  let k := mkControl wct (target / efficicency_factor_ b) invalid_alq invalid_vfp
                     [1; 1; 1] in
  applyInjGroupControl (WellNode b self gci shut) control_mode target only_group W
  = Ret (WellNode (setIndividualControl false b) self (group_slot gci c) shut,
         mkWells (wells_type W)
           (<[self := mkWellControls (group_slot gci c) (open c)
                        (with_group_control gci k (- (10 ^ 100)) c)]> (ctrls W))).
Proof.
  intros Hty Hc Hgci Hmode Hgroup k.
  cbn [applyInjGroupControl isInjector]. unfold type_of.
  rewrite (iget_Some _ _ _ Hty). cbn [mbind outcome_bind mret outcome_ret].
  rewrite bool_decide_eq_true_2 by reflexivity. cbn [negb].
  rewrite Hgroup.
  assert (Hwct : match control_mode with
                 | IS.RATE => Ret SURFACE_RATE
                 | IS.RESV => Ret RESERVOIR_RATE
                 | _ => Raise (runtime_error "Group injection control mode not handled")
                 end = Ret wct).
  { destruct Hmode as [[-> ->] | [-> ->]]; reflexivity. }
  rewrite Hwct. cbn [mbind outcome_bind fst snd].
  rewrite (install_group_control_spec _ _ _ _ _ _ _ _ Hc Hgci).
  cbn [mbind outcome_bind fst snd]. unfold set_current_control.
  erewrite get_ctrls_Some
    by (cbn [ctrls]; apply list_lookup_insert_eq; eapply lookup_lt_Some; exact Hc).
  cbn [mbind outcome_bind].
  erewrite put_ctrls_Some
    by (cbn [ctrls]; apply list_lookup_insert_eq; eapply lookup_lt_Some; exact Hc).
  cbn [wells_type ctrls]. rewrite list_insert_insert_eq. reflexivity.
Qed.

(** X18. At a group under [REIN] or [VREP] whose children are wells with
    distinct indices and whose injection guide rate under group control
    is not zero, [applyExplicitReinjectionControls] hands to every
    child its share, by injection guide rate among the children under
    group control, of the negated production times the fraction of the
    group: the surface production of the phase of the injector type
    under [REIN], the reservoir production of the phases in use under
    [VREP].  An injector under group control gets it, divided by its
    efficiency factor, as its current control, of type [SURFACE_RATE]
    under [REIN] and [RESERVOIR_RATE] under [VREP], on all three phases;
    every other well is left as it is.  The shares add up to the whole
    amount. *)
Theorem applyExplicitReinjectionControls_wells (b : Base)
    (cs : list WellsGroupInterface) (W : Wells)
    (well_reservoirrates_phase well_surfacerates_phase : list Q)
    (control_mode : IS.ControlMode) (wct : WellControlType)
    (total_produced fraction : Q) :
  let g := WellsGroup b cs in
  let spec := injection_specification_ b in
  (IS.control_mode_ spec = IS.REIN
   /\ getTotalProductionFlow g W well_surfacerates_phase
        (match IS.injector_type_ spec with
         | IS.WATER => BlackoilPhases.Aqua
         | IS.GAS => BlackoilPhases.Vapour
         | IS.OIL => BlackoilPhases.Liquid
         end) = Ret total_produced
   /\ control_mode = IS.RATE /\ wct = SURFACE_RATE
   /\ fraction = IS.reinjection_fraction_target_ spec)
  \/ (IS.control_mode_ spec = IS.VREP
      /\ voidage_production g W well_reservoirrates_phase
           [BlackoilPhases.Aqua; BlackoilPhases.Liquid; BlackoilPhases.Vapour] 0
         = Ret total_produced
      /\ control_mode = IS.RESV /\ wct = RESERVOIR_RATE
      /\ fraction = IS.voidage_replacment_fraction_ spec) ->
  NoDup (self_index <$> cs) ->
  Forall (accepts_injection W) cs ->
  let G := injectionGuideRate g true in
  ~ G == 0 ->
  let share c := injectionGuideRate c true / G * - total_produced * fraction in
  exists cs' W',
    applyExplicitReinjectionControls g W well_reservoirrates_phase
      well_surfacerates_phase = Ret (WellsGroup b cs', W')
    /\ Forall (fun c =>
                 if group_injector W c
                 then exists k,
                        current_control W' (self_index c) = Some k
                        /\ well_controls.type k = wct
                        /\ target k = share c / efficicencyFactor c
                        /\ distr k = [1; 1; 1]
                 else ctrls W' !! self_index c = ctrls W !! self_index c) cs
    /\ (forall j, j ∉ self_index <$> cs -> ctrls W' !! j = ctrls W !! j)
    /\ Qsum (map share cs) == - total_produced * fraction.
Proof.
  intros g spec Hmode Hnodup Hready G HG share.
  assert (HGb : Qeq_bool G 0 = false).
  { destruct (Qeq_bool G 0) eqn:E; [| reflexivity].
    apply Qeq_bool_iff in E. contradiction. }
  assert (Hkind : control_mode = IS.RATE /\ wct = SURFACE_RATE
                  \/ control_mode = IS.RESV /\ wct = RESERVOIR_RATE).
  { destruct Hmode as [(_ & _ & -> & -> & _) | (_ & _ & -> & -> & _)]; auto. }
  set (upd := fun (c : WellsGroupInterface) (cc : WellControls) =>
                if group_injector W c then
                  match c with
                  | WellNode bc self gci shut =>
                      mkWellControls (group_slot gci cc) (open cc)
                        (with_group_control gci
                           (mkControl wct (share c / efficicency_factor_ bc)
                                      invalid_alq invalid_vfp [1; 1; 1])
                           (- (10 ^ 100)) cc)
                  | WellsGroup _ _ => cc
                  end
                else cc).
  set (f := fun (c : WellsGroupInterface) (W' : Wells) =>
              applyInjGroupControl c control_mode (share c) true W').
  destruct (apply_children_local f upd W cs Hnodup) with (W := W)
    as (cs' & W' & Hrun & _ & Hall & Hframe).
  { apply Forall_forall. intros c Hc W1 Hty Hsame.
    rewrite Forall_forall in Hready.
    destruct (Hready c Hc) as (bc & self & gci & shut & cc & -> & Hcc & Hkindc).
    cbn [self_index] in *. exists cc. subst f upd. cbn beta.
    unfold group_injector, individualControl, base_of. cbn [self_index].
    assert (Hid : mkWells (wells_type W) (<[self := cc]> (ctrls W1)) = W1).
    { rewrite list_insert_id by (rewrite Hsame; exact Hcc).
      rewrite <- Hty. destruct W1; reflexivity. }
    destruct Hkindc as [[Htype Hgci] | [Htype Hzero]].
    - rewrite bool_decide_eq_true_2 by exact Htype. rewrite andb_true_r.
      destruct (individual_control_ bc) eqn:Eind; cbn [negb].
      + eexists. split; [exact Hcc |]. rewrite Hid.
        cbn [applyInjGroupControl isInjector]. unfold type_of.
        rewrite <- Hty in Htype. rewrite (iget_Some _ _ _ Htype).
        cbn [mbind outcome_bind mret outcome_ret].
        rewrite bool_decide_eq_true_2 by reflexivity. cbn [negb andb].
        rewrite Eind. reflexivity.
      + rewrite <- Hty in Htype. rewrite <- Hsame in Hcc.
        rewrite (applyInjGroupControl_installs bc self gci shut control_mode wct
                   (share _) true W1 cc Htype Hcc Hgci Hkind)
          by (rewrite Eind; reflexivity).
        eexists. split; [rewrite <- Hsame; exact Hcc |].
        rewrite Hty. reflexivity.
    - rewrite bool_decide_eq_false_2 by (rewrite Htype; discriminate).
      rewrite andb_false_r.
      eexists. split; [exact Hcc |]. rewrite Hid.
      cbn [applyInjGroupControl isInjector]. unfold type_of.
      rewrite <- Hty in Htype. rewrite (iget_Some _ _ _ Htype).
      cbn [mbind outcome_bind mret outcome_ret].
      rewrite bool_decide_eq_false_2 by discriminate. cbn [negb].
      assert (Hshare : Qeq_bool (share (WellNode bc self gci shut)) 0 = true).
      { apply Qeq_bool_iff. subst share. cbn beta. rewrite Hzero.
        unfold Qdiv. ring. }
      rewrite Hshare. reflexivity. }
  { reflexivity. }
  { apply Forall_forall. reflexivity. }
  exists cs', W'. split.
  { destruct Hmode as [(Hm & Htot & Hcm & _ & Hfr) | (Hm & Htot & Hcm & _ & Hfr)];
      subst g spec; cbn [applyExplicitReinjectionControls].
    - case_decide; [| contradiction].
      rewrite Htot. cbn [mbind outcome_bind].
      rewrite (apply_children_pointwise _ f)
        by (intros; subst f share G; rewrite Hcm, Hfr, HGb; reflexivity).
      rewrite Hrun. reflexivity.
    - case_decide; [congruence |]. case_decide; [| contradiction].
      rewrite Htot. cbn [mbind outcome_bind].
      rewrite (apply_children_pointwise _ f)
        by (intros; subst f share G; rewrite Hcm, Hfr, HGb; reflexivity).
      rewrite Hrun. reflexivity. }
  split.
  { rewrite Forall_forall in Hall, Hready. apply Forall_forall. intros c Hc.
    destruct (Hall c Hc) as (cc & Hcc & Hcc').
    destruct (Hready c Hc) as (bc & self & gci & shut & cc0 & -> & Hcc0 & Hkindc).
    cbn [self_index] in *. rewrite Hcc0 in Hcc. injection Hcc as <-.
    subst upd. cbn beta in Hcc'.
    destruct (group_injector W (WellNode bc self gci shut)) eqn:Egi.
    - assert (Hgci : (gci < Z.of_nat (length (controls cc0)))%Z).
      { destruct Hkindc as [[_ Hgci] | [Htype _]]; [exact Hgci |].
        unfold group_injector in Egi. cbn [self_index] in Egi.
        rewrite bool_decide_eq_false_2 in Egi by (rewrite Htype; discriminate).
        rewrite andb_false_r in Egi. discriminate. }
      unfold current_control. rewrite Hcc'. cbn [current controls].
      match type of Hcc' with
      | context [with_group_control gci ?k _ _] =>
          destruct (with_group_control_slot gci k (- (10 ^ 100)) cc0 Hgci)
            as (k' & Hk' & Hty' & Htg & Hdi)
      end.
      exists k'. auto.
    - rewrite Hcc', Hcc0. reflexivity. }
  split; [exact Hframe |].
  subst share.
  transitivity (Qsum (map (fun c => injectionGuideRate c true / G
                                    * (- total_produced * fraction)) cs)).
  { apply Qsum_map_pointwise. apply List.Forall_forall. intros c _. ring. }
  rewrite (Qsum_shares (fun c => injectionGuideRate c true)).
  assert (HGsum : G == Qsum (map (fun c => injectionGuideRate c true) cs)).
  { subst G g. cbn [injectionGuideRate].
    rewrite (fold_left_Qplus (fun c => injectionGuideRate c true)). ring. }
  rewrite <- HGsum. field. exact HG.
Qed.


(** *** The examples *)

Lemma NoDup_two (a b : nat) : a <> b -> NoDup [a; b].
Proof.
  intros Hab. apply NoDup_cons. split.
  - intros Hin. apply list_elem_of_singleton in Hin. contradiction.
  - apply NoDup_singleton.
Qed.

Lemma findGroup_finds_witness :
  findGroup (Examples.field PS.FLD PS.RATE) "P2" = Some [1%nat]
  /\ findGroup (Examples.field PS.FLD PS.RATE) "P3" = None
  /\ Forall (fun m => name m <> "P3"%string) (subnodes (Examples.field PS.FLD PS.RATE)).
Proof.
  split; [reflexivity |]. split; [reflexivity |].
  exact (proj2 (findGroup_finds (Examples.field PS.FLD PS.RATE) "P3") eq_refl).
Defined.

Lemma getTotalProductionFlow_of_wells_witness :
  exists r,
    getTotalProductionFlow (Examples.field PS.FLD PS.RATE) Examples.two_producers
      Examples.rates_80_30 BlackoilPhases.Liquid = Ret r
    /\ r == - 110.
Proof.
  destruct (getTotalProductionFlow_of_wells (Examples.field PS.FLD PS.RATE)
              Examples.two_producers Examples.rates_80_30 BlackoilPhases.Liquid
              [-80; -30]) as [(r & Hrun & Hr) _].
  - repeat constructor.
  - exists r. split; [exact Hrun |]. rewrite Hr. reflexivity.
Defined.

Lemma applyGroupControls_passes_witness :
  applyProdGroupControls (Examples.field PS.FLD PS.RATE) Examples.two_producers
  = Ret (Examples.field PS.FLD PS.RATE, Examples.two_producers).
Proof.
  apply (proj1 (applyGroupControls_passes (Examples.field PS.FLD PS.RATE)
                  Examples.two_producers)).
  repeat apply Forall_cons_2; try apply Forall_nil_2;
    first [left; reflexivity | right; left; reflexivity].
Defined.

Lemma applyProdGroupControls_distributes_witness :
  exists cs' W',
    applyProdGroupControls (Examples.field PS.ORAT PS.RATE) Examples.two_producers
    = Ret (WellsGroup (base_of (Examples.field PS.ORAT PS.RATE)) cs', W')
    /\ Forall2 Qeq (Examples.last_targets W') [-50; -50].
Proof.
  destruct (applyProdGroupControls_distributes
              (base_of (Examples.field PS.ORAT PS.RATE))
              (children_of (Examples.field PS.ORAT PS.RATE))
              Examples.two_producers) as (_ & _ & Hrun).
  destruct (Hrun ltac:(left; reflexivity) ltac:(vm_compute; discriminate))
    as (T & _ & _ & Hiff).
  destruct (applyProdGroupControls (Examples.field PS.ORAT PS.RATE)
              Examples.two_producers) as [[g' W'] | e] eqn:E;
    [| vm_compute in E; discriminate].
  destruct (proj1 (Hiff g' W') E) as (cs' & _ & ->).
  exists cs', W'. split; [reflexivity |].
  vm_compute in E. injection E as _ <-. vm_compute. repeat constructor.
Defined.

Lemma applyProdGroupControl_well_witness :
  exists slot W' c' k,
    applyProdGroupControl (Examples.producer "P1" 0 1 true) PS.ORAT 50 false
      Examples.two_producers
    = Ret (WellNode (base_of (Examples.producer "P1" 0 1 true)) 0 slot false, W')
    /\ ctrls W' !! 0%nat = Some c'
    /\ current c' = 1%Z
    /\ controls c' !! 1%nat = Some k
    /\ well_controls.type k = SURFACE_RATE
    /\ target k == - 50
    /\ distr k = [0; 1; 0].
Proof.
  destruct (applyProdGroupControl_well (base_of (Examples.producer "P1" 0 1 true))
              0 (-1) false PS.ORAT 50 false Examples.two_producers
              (mkWellControls 0 true [mkControl well_controls.BHP 100 0 0 [0; 0; 0]])
              SURFACE_RATE [0; 1; 0])
    as (slot & W' & c' & k & Hrun & _ & _ & Hc' & Hcur & _ & _ & Hk & Hty & Htg
        & Hdi & _); try reflexivity.
  exists slot, W', c', k.
  assert (Hslot : slot = 1%Z).
  { vm_compute in Hrun. injection Hrun as <- _. reflexivity. }
  rewrite Hslot in *. split; [exact Hrun |]. split; [exact Hc' |].
  split; [exact Hcur |].
  split; [exact Hk |]. split; [exact Hty |]. split; [| exact Hdi].
  rewrite Htg. reflexivity.
Defined.

Lemma shutWell_well_witness :
  exists W' c' k,
    shutWell (Examples.producer "P1" 0 1 true) Examples.two_producers
    = Ret (WellNode (base_of (Examples.producer "P1" 0 1 true)) 0 1 false, W')
    /\ ctrls W' !! 0%nat = Some c'
    /\ current c' = 0%Z /\ open c' = true
    /\ controls c' !! 1%nat = Some k
    /\ well_controls.type k = SURFACE_RATE /\ target k = 0.
Proof.
  destruct (shutWell_well (base_of (Examples.producer "P1" 0 1 true)) 0 (-1) false
              Examples.two_producers
              (mkWellControls 0 true [mkControl well_controls.BHP 100 0 0 [0; 0; 0]]))
    as (slot & W' & c' & Hrun & _ & _ & Hc' & Hcur & Hopen & _ & Hopened);
    try reflexivity.
  destruct (Hopened eq_refl) as (-> & _ & k & Hk & Hty & Htg & _).
  exists W', c', k. repeat split; assumption.
Defined.


Lemma applyExplicitReinjectionControls_wells_witness :
  exists cs' W' k,
    applyExplicitReinjectionControls Examples.voidage_group
      Examples.injector_and_producer Examples.rates_voidage Examples.rates_voidage
    = Ret (WellsGroup (base_of Examples.voidage_group) cs', W')
    /\ current_control W' 0 = Some k
    /\ well_controls.type k = RESERVOIR_RATE
    /\ target k == 50
    /\ ctrls W' !! 1%nat = ctrls Examples.injector_and_producer !! 1%nat.
Proof.
  destruct (applyExplicitReinjectionControls_wells
              (base_of Examples.voidage_group) (children_of Examples.voidage_group)
              Examples.injector_and_producer Examples.rates_voidage
              Examples.rates_voidage IS.RESV RESERVOIR_RATE
              (0 + (-10) + (-30) + (-10)) 1)
    as (cs' & W' & Hrun & Hall & _).
  - right. repeat split; reflexivity.
  - apply NoDup_two. cbn. lia.
  - repeat constructor.
    + eexists _, _, _, _, _. split; [reflexivity |]. split; [reflexivity |].
      left. split; [reflexivity | cbn; lia].
    + eexists _, _, _, _, _. split; [reflexivity |]. split; [reflexivity |].
      right. split; reflexivity.
  - vm_compute. discriminate.
  - inversion Hall as [| c1 l1 H1 Hrest]; subst.
    inversion Hrest as [| c2 l2 H2 _]; subst.
    destruct H1 as (k & Hk & Hty & Htg & _).
    exists cs', W', k. split; [exact Hrun |].
    split; [exact Hk |]. split; [exact Hty |].
    split; [rewrite Htg; vm_compute; reflexivity | exact H2].
Defined.

(** *** applyInjGroupControl at a group *)

Lemma injectionGuideRate_group (b : Base) (cs : list WellsGroupInterface)
    (only_group : bool) :
  injectionGuideRate (WellsGroup b cs) only_group
  == Qsum (map (fun c => injectionGuideRate c only_group) cs).
Proof.
  cbn [injectionGuideRate].
  rewrite (fold_left_Qplus (fun c => injectionGuideRate c only_group)).
  ring.
Qed.

(** X27. On a group, [applyInjGroupControl] does nothing when the
    injection mode of the group is [NONE], when [only_group] holds and
    that mode is not [FLD], or when the injection guide rates of the
    children, taken with the same [only_group], sum to zero.  Otherwise
    it takes the children in order, each with its share by guide rate of
    the target over the efficiency factor of the group and with
    [only_group] false, and then sets the mode of the group to [FLD]; the
    shares add up to the target over the efficiency factor. *)
Theorem applyInjGroupControl_group (b : Base) (cs : list WellsGroupInterface)
    (control_mode : IS.ControlMode) (target : Q) (only_group : bool) (W : Wells) :
  let g := WellsGroup b cs in
  let mode := IS.control_mode_ (injection_specification_ b) in
  let G := injectionGuideRate g only_group in
  let share c :=
    target / efficicency_factor_ b * injectionGuideRate c only_group / G in
  (mode = IS.NONE \/ (only_group = true /\ mode <> IS.FLD) \/ G == 0 ->
     applyInjGroupControl g control_mode target only_group W = Ret (g, W))
  /\ (mode <> IS.NONE -> only_group = false \/ mode = IS.FLD -> ~ G == 0 ->
        Qsum (map share cs) == target / efficicency_factor_ b
        /\ forall g' W',
             applyInjGroupControl g control_mode target only_group W = Ret (g', W')
             <-> exists cs',
                   children_applied
                     (fun c W' => applyInjGroupControl c control_mode (share c) false W')
                     cs W cs' W'
                   /\ g' = WellsGroup
                             (set_injSpec
                                (IS.set_control_mode_ IS.FLD
                                   (injection_specification_ b)) b)
                             cs').
Proof.
  intros g mode G share. subst g. split.
  - intros Hnothing. cbn [applyInjGroupControl]. fold mode.
    destruct (decide (mode = IS.NONE)) as [| Hm]; [reflexivity |].
    destruct (negb only_group || bool_decide (mode = IS.FLD)) eqn:Egate;
      [| reflexivity].
    fold G. destruct Hnothing as [| [[-> Hfld] | HG]]; [contradiction | |].
    + rewrite (bool_decide_eq_false_2 _ Hfld) in Egate. discriminate.
    + apply Qeq_bool_iff in HG. rewrite HG. reflexivity.
  - intros Hm Hg HG. split.
    + subst share. cbn beta.
      rewrite (Qsum_map_pointwise _
                 (fun c => injectionGuideRate c only_group / G
                           * (target / efficicency_factor_ b))).
      * rewrite Qsum_shares.
        rewrite <- (injectionGuideRate_group b cs only_group). fold G.
        generalize (target / efficicency_factor_ b). intros X.
        field. exact HG.
      * apply List.Forall_forall. intros c _. unfold Qdiv. ring.
    + intros g' W'. cbn [applyInjGroupControl]. fold mode.
      destruct (decide (mode = IS.NONE)); [contradiction |].
      assert (Hgate : negb only_group || bool_decide (mode = IS.FLD) = true).
      { destruct Hg as [-> | Hfld]; [reflexivity |].
        rewrite (bool_decide_eq_true_2 _ Hfld). apply orb_true_r. }
      rewrite Hgate. fold G.
      destruct (Qeq_bool G 0) eqn:E; [apply Qeq_bool_iff in E; contradiction |].
      split.
      * intros Hrun. apply bind_Ret_inv in Hrun as ([cs' W1] & Hcs & Hrun).
        cbn in Hrun. injection Hrun as <- <-.
        exists cs'. split; [apply apply_children_applied; exact Hcs | reflexivity].
      * intros (cs' & Hcs & ->). apply apply_children_applied in Hcs.
        unfold share in Hcs. rewrite Hcs. reflexivity.
Qed.

(** Scenario: the group of the injector [I1] and the producer [P1], a
    rate of 60 to inject.  [I1] has all of the guide rate and gets the
    whole target; [P1] is handed zero and keeps its control. *)
Lemma applyInjGroupControl_group_witness :
  exists cs' W',
    applyInjGroupControl Examples.voidage_group IS.RATE 60 false
      Examples.injector_and_producer
    = Ret (WellsGroup
             (set_injSpec
                (IS.set_control_mode_ IS.FLD
                   (injection_specification_ (base_of Examples.voidage_group)))
                (base_of Examples.voidage_group))
             cs', W')
    /\ Forall2 Qeq (Examples.last_targets W') [60; 100].
Proof.
  destruct (applyInjGroupControl Examples.voidage_group IS.RATE 60 false
              Examples.injector_and_producer) as [[g' W'] | e] eqn:E;
    [| vm_compute in E; discriminate].
  destruct (applyInjGroupControl_group (base_of Examples.voidage_group)
              [Examples.injector "I1" 0 1 false; Examples.producer "P1" 1 1 true]
              IS.RATE 60 false Examples.injector_and_producer) as [_ Hrun].
  destruct Hrun as [_ Hrun].
  - discriminate.
  - left. reflexivity.
  - vm_compute. discriminate.
  - pose proof E as Ec. apply Hrun in Ec. destruct Ec as (cs' & _ & ->).
    exists cs', W'. split; [reflexivity |].
    vm_compute in E. injection E as _ <-. repeat constructor.
Defined.

(** *** A guide rate that is zero *)

(** Scenario: the voidage group with every well under individual
    control, as after construction.  The guide rate under group control
    is zero; the injector is passed over, and the producer fails the
    assertion on its target, which is not zero.  With the injector
    alone the call returns and changes nothing. *)
Lemma applyExplicitReinjectionControls_zero_guide_rate :
  applyExplicitReinjectionControls
    (WellsGroup (base_of Examples.voidage_group)
       [Examples.injector "I1" 0 1 true; Examples.producer "P1" 1 1 true])
    Examples.injector_and_producer Examples.rates_voidage Examples.rates_voidage
  = Raise (assertion_failed "target == 0.0")
  /\ applyExplicitReinjectionControls
       (WellsGroup (base_of Examples.voidage_group)
          [Examples.injector "I1" 0 1 true])
       Examples.injector_and_producer Examples.rates_voidage Examples.rates_voidage
     = Ret (WellsGroup (base_of Examples.voidage_group)
              [Examples.injector "I1" 0 1 true],
            Examples.injector_and_producer).
Proof. split; vm_compute; reflexivity. Qed.

(** Scenario: a group under its own injection rate whose wells have no
    guide rate.  The producer fails the assertion on its target. *)
Lemma applyInjGroupControls_zero_guide_rate :
  applyInjGroupControls
    (WellsGroup
       (mkBase "FIELD" 1 (Examples.no_production PS.NONE 0)
               (IS.mk IS.WATER IS.RATE 100 (-1) (-1) 0 0 0)
               Examples.three_phases false true)
       [Examples.producer "P1" 1 1 true; Examples.injector "I1" 0 0 false])
    Examples.injector_and_producer
  = Raise (assertion_failed "target == 0.0").
Proof. vm_compute. reflexivity. Qed.

End WellsGroupTreeFacts.

(** ** The multi-segment well *)

Module MultisegmentWellEvalFacts.

Import IEEE MultisegmentWellEval Classified.

(** *** Comparisons of doubles *)

Lemma finite_or_inf_cases (q : Q) :
  finite_or_inf q = Fin q \/ finite_or_inf q = Inf (Qltb q 0).
Proof.
  unfold finite_or_inf. destruct (Qle_bool overflow_threshold (Qabs q)); auto.
Qed.

Lemma finite_or_inf_not_nan (q : Q) : isnan (finite_or_inf q) = false.
Proof. destruct (finite_or_inf_cases q) as [-> | ->]; reflexivity. Qed.

Lemma gt_not_nan (x m : double) : gt x m = true -> isnan x = false.
Proof. destruct x; [discriminate | reflexivity | reflexivity]. Qed.

Lemma gt_irrefl (x : double) : gt x x = false.
Proof.
  destruct x as [| [|] | q]; try reflexivity.
  cbn. apply Qltb_ge. lra.
Qed.

(** Below [m], and [m] below [r]: below [r]. *)
Lemma gt_false_trans (x m r : double) :
  isnan m = false -> isnan r = false ->
  gt x m = false -> gt m r = false -> gt x r = false.
Proof.
  destruct x as [| [|] | x], m as [| [|] | m], r as [| [|] | r];
    cbn; intros; try reflexivity; try discriminate.
  rewrite Qltb_ge in *. lra.
Qed.

Section maximum.
Variable candidate : nat -> option double.

Let step (maximum : double) (seg : nat) : double :=
  match candidate seg with
  | Some x => if gt x maximum then x else maximum
  | None => maximum
  end.

Lemma fold_maximum (segs : list nat) (m0 : double) :
  isnan m0 = false ->
  let r := fold_left step segs m0 in
  isnan r = false
  /\ gt m0 r = false
  /\ (forall seg x, In seg segs -> candidate seg = Some x -> gt x r = false)
  /\ (r = m0 \/ exists seg, In seg segs /\ candidate seg = Some r).
Proof.
  revert m0. induction segs as [| seg segs IH]; intros m0 Hm0; cbn zeta.
  - cbn. repeat split; auto using gt_irrefl. intros seg x [].
  - cbn [fold_left].
    assert (Hstep : isnan (step m0 seg) = false /\ gt m0 (step m0 seg) = false
                    /\ (forall x, candidate seg = Some x -> gt x (step m0 seg) = false)
                    /\ (step m0 seg = m0 \/ candidate seg = Some (step m0 seg))).
    { unfold step. destruct (candidate seg) as [x |].
      - destruct (gt x m0) eqn:E.
        + repeat split.
          * eapply gt_not_nan; exact E.
          * destruct x as [| [|] | x], m0 as [| [|] | m0]; cbn in *;
              try reflexivity; try discriminate.
            rewrite Qltb_lt in E. rewrite Qltb_ge. lra.
          * intros y Hy. injection Hy as <-. apply gt_irrefl.
          * right. reflexivity.
        + repeat split; auto using gt_irrefl.
          intros y Hy. injection Hy as <-. exact E.
      - repeat split; auto using gt_irrefl. intros x Hx. discriminate. }
    destruct Hstep as (Hnan1 & Hmono1 & Hhead & Hwhere1).
    destruct (IH _ Hnan1) as (Hnan & Hmono & Hrest & Hwhere).
    repeat split.
    + exact Hnan.
    + apply (gt_false_trans _ (step m0 seg)); assumption.
    + intros s x [<- | Hin] Hx.
      * apply (gt_false_trans _ (step m0 seg)); auto.
      * eapply Hrest; eassumption.
    + destruct Hwhere as [-> | (s & Hs & Hc)].
      * destruct Hwhere1 as [-> | Hc]; [left; reflexivity |].
        right. exists seg. split; [left; reflexivity | exact Hc].
      * right. exists s. split; [right; exact Hs | exact Hc].
Qed.
End maximum.

Section facts.
Context `{Collaborators}.

Lemma maximum_residual_candidates (w : t) (B_avg : list double) (eq_idx : nat) :
  maximum_residual w B_avg eq_idx
  = fold_left
      (fun maximum seg =>
         match candidate w B_avg eq_idx seg with
         | Some x => if gt x maximum then x else maximum
         | None => maximum
         end)
      (seq 0 (numberOfSegments w)) (Fin 0).
Proof.
  unfold maximum_residual, candidate.
  apply fold_left_pointwise. intros maximum seg.
  destruct (eq_idx <? numComponents w)%nat; [reflexivity |].
  destruct (0 <? seg)%nat; reflexivity.
Qed.

(** The entry [maximum_residual[eq_idx]] is not below any competing
    residual, and it is one of them or the initial zero. *)
Lemma maximum_residual_is_maximum (w : t) (B_avg : list double) (eq_idx : nat) :
  let r := maximum_residual w B_avg eq_idx in
  (forall seg x, (seg < numberOfSegments w)%nat ->
                 candidate w B_avg eq_idx seg = Some x -> gt x r = false)
  /\ (r = Fin 0
      \/ exists seg, (seg < numberOfSegments w)%nat
                     /\ candidate w B_avg eq_idx seg = Some r).
Proof.
  cbn zeta. rewrite maximum_residual_candidates.
  destruct (fold_maximum (candidate w B_avg eq_idx) (seq 0 (numberOfSegments w))
              (Fin 0) eq_refl) as (_ & _ & Hall & Hwhere).
  split.
  - intros seg x Hseg. apply Hall. apply in_seq. lia.
  - destruct Hwhere as [Hz | (seg & Hin & Hc)]; [left; exact Hz |].
    right. exists seg. split; [apply in_seq in Hin; lia | exact Hc].
Qed.

(** The comparisons that fill [maximum_residual] are false on NaN, so
    no entry of it is NaN. *)
Lemma maximum_residual_not_nan (w : t) (B_avg : list double) (eq_idx : nat) :
  isnan (maximum_residual w B_avg eq_idx) = false.
Proof.
  rewrite maximum_residual_candidates.
  apply (fold_maximum (candidate w B_avg eq_idx)). reflexivity.
Qed.

Lemma fold_failures (f : nat -> option CR.WellFailure) (eqs : list nat)
    (report : CR.t) :
  fold_left (fun report eq_idx =>
               match f eq_idx with
               | Some wf => CR.setWellFailed wf report
               | None => report
               end) eqs report
  = report ++ omap f eqs.
Proof.
  revert report. induction eqs as [| e eqs IH]; intros report; cbn.
  - rewrite app_nil_r. reflexivity.
  - rewrite IH. destruct (f e) as [wf |]; [| reflexivity].
    unfold CR.setWellFailed. rewrite <- app_assoc. reflexivity.
Qed.

(** The chain of tests of the second loop, read as [classified]. *)
Lemma well_failure_classified (w : t)
    (max_residual_allowed tolerance_wells relaxed_inner_tolerance_flow_ms_well
     tolerance_pressure_ms_wells relaxed_inner_tolerance_pressure_ms_well : double)
    (relax_tolerance : bool) (eq_idx : nat) (r : double) :
  classified w max_residual_allowed tolerance_wells
    relaxed_inner_tolerance_flow_ms_well tolerance_pressure_ms_wells
    relaxed_inner_tolerance_pressure_ms_well relax_tolerance eq_idx r
    (well_failure w max_residual_allowed tolerance_wells
       relaxed_inner_tolerance_flow_ms_well tolerance_pressure_ms_wells
       relaxed_inner_tolerance_pressure_ms_well relax_tolerance eq_idx r).
Proof.
  unfold classified, well_failure, failure.
  destruct (eq_idx <? numComponents w)%nat; cbn zeta.
  - destruct (isnan r), (gt r max_residual_allowed), relax_tolerance,
      (gt r tolerance_wells), (gt r relaxed_inner_tolerance_flow_ms_well);
      cbn [negb andb]; repeat split; intros;
      try reflexivity; try discriminate;
      match goal with
      | Hx : _ \/ _ |- _ => destruct Hx; discriminate
      end.
  - destruct (isnan r), (isinf r), relax_tolerance,
      (gt r tolerance_pressure_ms_wells),
      (gt r relaxed_inner_tolerance_pressure_ms_well);
      cbn [negb andb]; repeat split; intros;
      try reflexivity; try discriminate;
      match goal with
      | Hx : _ \/ _ |- _ => destruct Hx; discriminate
      end.
Qed.

(** C5, as amended.  When none of the residuals that compete for a
    maximum is NaN, the report of [getWellConvergence] holds, in the
    order of the equations, at most one failure per equation, set from
    the maximum of that equation, before the check of the control
    equation adds its own.  That maximum is the largest of the competing
    residuals: scaled by [B_avg] for a mass equation, taken over the
    segments other than the top one for the pressure equation.  The
    failure follows [classified]: for the pressure equation only an
    infinite maximum is [TooLarge], [max_residual_allowed] is not
    consulted. *)
Theorem getWellConvergence_classifies (w : t) (well_state : WellState)
    (B_avg : list double)
    (max_residual_allowed tolerance_wells relaxed_inner_tolerance_flow_ms_well
     tolerance_pressure_ms_wells relaxed_inner_tolerance_pressure_ms_well : double)
    (relax_tolerance : bool) :
  length B_avg = numComponents w ->
  no_nan_residual w B_avg ->
  let set eq_idx :=
    well_failure w max_residual_allowed tolerance_wells
      relaxed_inner_tolerance_flow_ms_well tolerance_pressure_ms_wells
      relaxed_inner_tolerance_pressure_ms_well relax_tolerance eq_idx
      (maximum_residual w B_avg eq_idx) in
  getWellConvergence w well_state B_avg max_residual_allowed tolerance_wells
    relaxed_inner_tolerance_flow_ms_well tolerance_pressure_ms_wells
    relaxed_inner_tolerance_pressure_ms_well relax_tolerance
  = Ret (checkConvergenceControlEq (rest well_state)
           [tolerance_pressure_ms_wells; tolerance_pressure_ms_wells;
            tolerance_wells; tolerance_wells; max_residual_allowed]
           (abs (residual (linSys_ w) 0 SPres))
           (omap set (seq 0 numWellEq)))
  /\ forall eq_idx, (eq_idx < numWellEq)%nat ->
       let r := maximum_residual w B_avg eq_idx in
       isnan r = false
       /\ classified w max_residual_allowed tolerance_wells
            relaxed_inner_tolerance_flow_ms_well tolerance_pressure_ms_wells
            relaxed_inner_tolerance_pressure_ms_well relax_tolerance eq_idx r
            (set eq_idx)
       /\ (forall seg x, (seg < numberOfSegments w)%nat ->
                         candidate w B_avg eq_idx seg = Some x ->
                         isnan x = false /\ gt x r = false)
       /\ (r = Fin 0
           \/ exists seg, (seg < numberOfSegments w)%nat
                          /\ candidate w B_avg eq_idx seg = Some r).
Proof.
  intros Hlen Hnan set. split.
  - unfold getWellConvergence, assert_. rewrite Hlen, Nat.eqb_refl.
    cbn [mbind outcome_bind mret outcome_ret].
    unfold residual_failures. rewrite fold_failures. reflexivity.
  - intros eq_idx He r.
    split; [apply maximum_residual_not_nan |].
    destruct (maximum_residual_is_maximum w B_avg eq_idx) as [Hmax Hwhere].
    split; [| split; [| exact Hwhere]].
    + apply well_failure_classified.
    + intros seg x Hseg Hx. split.
      * eapply Hnan; eassumption.
      * eapply Hmax; eassumption.
Qed.

(** C7. For a segment other than the top one that is a valve and shut,
    [assembleICDPressureEq] assembles the trivial equation with the
    value of [WQTotal] of the segment and nothing else, sets the
    friction pressure drop of the segment to zero, and leaves the other
    pressure drops and the rest of the well as they were. *)
Theorem assembleICDPressureEq_shut_valve (seg : nat) (unit_system : UnitSystem)
    (w : t) (well_state : WellState) (segment : Segment.t) :
  seg <> 0%nat ->
  segmentSet w !! seg = Some segment ->
  Segment.segmentType segment = Segment.VALVE ->
  Segment.status (Segment.valve segment) = Segment.SHUT ->
  (seg < length (pressure_drop_friction (segments well_state)))%nat ->
  exists w' ws',
    assembleICDPressureEq seg unit_system w well_state = Ret (w', ws')
    /\ linSys_ w' = assembleTrivialEq seg (value (eval w seg WQTotal)) (linSys_ w)
    /\ w' = set_linSys_ (linSys_ w') w
    /\ pressure_drop_friction (segments ws') !! seg = Some (Fin 0)
    /\ (forall j, j <> seg ->
          pressure_drop_friction (segments ws') !! j
          = pressure_drop_friction (segments well_state) !! j)
    /\ pressure_drop_hydrostatic (segments ws')
       = pressure_drop_hydrostatic (segments well_state)
    /\ pressure_drop_accel (segments ws')
       = pressure_drop_accel (segments well_state)
    /\ rest ws' = rest well_state.
Proof.
  intros Hseg Hlook Hvalve Hshut Hlen.
  unfold assembleICDPressureEq, assert_.
  destruct (Nat.eqb_spec seg 0) as [| _]; [contradiction |].
  cbn [negb mbind outcome_bind].
  unfold iget. destruct (Z.ltb_spec (Z.of_nat seg) 0) as [| _]; [lia |].
  rewrite Nat2Z.id, Hlook. cbn [mbind outcome_bind].
  rewrite Hvalve, Hshut.
  rewrite !bool_decide_eq_true_2 by reflexivity. cbn [andb].
  unfold set_pressure_drop_friction, iset.
  destruct (Z.ltb_spec (Z.of_nat seg) 0) as [| _]; [lia |].
  rewrite Nat2Z.id.
  destruct (decide (seg < length (pressure_drop_friction (segments well_state)))%nat);
    [| contradiction].
  cbn [mbind outcome_bind mret outcome_ret].
  eexists _, _. split; [reflexivity |].
  cbn [linSys_ set_linSys_ segments rest pressure_drop_friction
       pressure_drop_hydrostatic pressure_drop_accel].
  repeat split.
  - apply list_lookup_insert_eq. exact Hlen.
  - intros j Hj. apply list_lookup_insert_ne. congruence.
Qed.

End facts.

(** The reading of C5 that fails: the maximum of the pressure equation
    is the finite value [10^10], above [max_residual_allowed = 10^7], and
    the failure set for it is [Normal], not [TooLarge]. *)
Lemma getWellConvergence_finite_pressure_residual :
  maximum_residual Examples.valve_well [Fin 1; Fin 1; Fin 1] 3 = Fin (10 ^ 10)
  /\ isnan (Fin (10 ^ 10)) = false /\ isinf (Fin (10 ^ 10)) = false
  /\ gt (Fin (10 ^ 10)) (Fin (10 ^ 7)) = true
  /\ getWellConvergence Examples.valve_well Examples.valve_well_state
       [Fin 1; Fin 1; Fin 1]
       (Fin (10 ^ 7)) (Fin (1 # 10000)) (Fin (1 # 10)) (Fin 1000) (Fin 10000) false
     = Ret [CR.mkWellFailure CR.Pressure CR.Normal (-1) "W1"].
Proof. repeat split; vm_compute; reflexivity. Qed.

Lemma valve_well_no_nan_residual :
  no_nan_residual Examples.valve_well [Fin 1; Fin 1; Fin 1].
Proof.
  intros eq_idx seg x He Hseg Hx.
  do 4 (destruct eq_idx as [| eq_idx]; [
    do 4 (destruct seg as [| seg];
          [vm_compute in Hx; try discriminate; injection Hx as <-; reflexivity |]);
    vm_compute in Hseg; lia |]).
  vm_compute in He. lia.
Defined.

Lemma getWellConvergence_classifies_witness :
  getWellConvergence Examples.valve_well Examples.valve_well_state
    [Fin 1; Fin 1; Fin 1]
    (Fin (10 ^ 7)) (Fin (1 # 10000)) (Fin (1 # 10)) (Fin 1000) (Fin 10000) false
  = Ret [failure Examples.valve_well 3 CR.Normal].
Proof.
  destruct (getWellConvergence_classifies Examples.valve_well
              Examples.valve_well_state [Fin 1; Fin 1; Fin 1]
              (Fin (10 ^ 7)) (Fin (1 # 10000)) (Fin (1 # 10)) (Fin 1000) (Fin 10000)
              false eq_refl valve_well_no_nan_residual) as [Hrun _].
  rewrite Hrun. vm_compute. reflexivity.
Defined.

(** Scenario: segment 3 is a shut valve.  The assembler is called once,
    for the trivial equation of row 3 with the total rate 5 of the
    segment, and the friction drop of segment 3 is zero. *)
Lemma assembleICDPressureEq_shut_valve_witness :
  exists w' ws',
    @assembleICDPressureEq Examples.logged 3 tt Examples.valve_well
      Examples.valve_well_state
    = Ret (w', ws')
    /\ Examples.calls (linSys_ w') = [Examples.TrivialEq 3 (Fin 5)]
    /\ pressure_drop_friction (segments ws') = [Fin 1; Fin 1; Fin 1; Fin 0].
Proof.
  destruct (@assembleICDPressureEq_shut_valve Examples.logged 3 tt Examples.valve_well
              Examples.valve_well_state
              (Segment.Build_t 4 3 (Fin 1) Segment.VALVE
                               (Segment.Build_Valve Segment.SHUT)))
    as (w' & ws' & Hrun & Hsys & _); try reflexivity; try (cbn; lia).
  exists w', ws'. split; [exact Hrun |].
  split; [rewrite Hsys; reflexivity |].
  vm_compute in Hrun. injection Hrun as _ <-. reflexivity.
Defined.

End MultisegmentWellEvalFacts.

(** ** The finite residuals of the multi-segment well *)

Module MultisegmentResidualFacts.

Import IEEE MultisegmentWellEval Classified Measured.
Import MultisegmentWellEvalFacts.

Lemma dget_lookup (v : list double) (i : nat) :
  dget v i = default (Fin 0) (v !! i).
Proof. unfold dget. apply nth_lookup. Qed.

Lemma dget_insert_eq (v : list double) (i : nat) (x : double) :
  (i < length v)%nat -> dget (<[i := x]> v) i = x.
Proof.
  intros Hi. rewrite dget_lookup, list_lookup_insert_eq by exact Hi. reflexivity.
Qed.

Lemma dget_insert_ne (v : list double) (i j : nat) (x : double) :
  i <> j -> dget (<[i := x]> v) j = dget v j.
Proof.
  intros Hij. rewrite !dget_lookup, list_lookup_insert_ne by exact Hij. reflexivity.
Qed.

Section facts.
Context `{Collaborators}.

Lemma finite_eq_loop_spec (w : t) (B_avg : list double) (seg : nat)
    (eqs : list nat) :
  NoDup eqs ->
  forall r, (forall e, In e eqs -> (e < length r)%nat) ->
  let res := finite_eq_loop w B_avg seg eqs r in
  length res.2 = length r
  /\ (res.1 = true <->
      forall e, In e eqs -> isfinite (finite_residual w B_avg seg e) = true)
  /\ (res.1 = true ->
      forall e, (In e eqs -> dget res.2 e = kept w B_avg e (dget r e) seg)
                /\ (~ In e eqs -> dget res.2 e = dget r e)).
Proof.
  induction 1 as [| e0 eqs Hnotin Hnodup IH]; intros r Hlen; cbn zeta.
  - cbn. repeat split; try tauto.
  - cbn [finite_eq_loop].
    rewrite list_elem_of_In in Hnotin.
    destruct (isnan (finite_residual w B_avg seg e0)
              || isinf (finite_residual w B_avg seg e0)) eqn:Efin.
    + cbn [fst snd]. split; [reflexivity |]. split; [| discriminate].
      split; [discriminate |]. intros Hall.
      specialize (Hall e0 (or_introl eq_refl)). unfold isfinite in Hall.
      rewrite Efin in Hall. discriminate.
    + set (r1 := if gt (finite_residual w B_avg seg e0) (dget r e0)
                 then <[e0 := finite_residual w B_avg seg e0]> r else r).
      assert (Hlen1 : length r1 = length r).
      { subst r1. destruct (gt _ _); [apply length_insert | reflexivity]. }
      assert (Hat : dget r1 e0 = kept w B_avg e0 (dget r e0) seg).
      { subst r1. unfold kept. destruct (gt _ _); [| reflexivity].
        apply dget_insert_eq. apply Hlen. left. reflexivity. }
      assert (Hother : forall e, e <> e0 -> dget r1 e = dget r e).
      { intros e He. subst r1. destruct (gt _ _); [| reflexivity].
        apply dget_insert_ne. congruence. }
      destruct (IH r1) as (IHlen & IHok & IHval).
      { intros e He. rewrite Hlen1. apply Hlen. right. exact He. }
      split; [rewrite IHlen; exact Hlen1 |]. split.
      * rewrite IHok. split.
        -- intros Hall e [<- | He]; [| apply Hall; exact He].
           unfold isfinite. rewrite Efin. reflexivity.
        -- intros Hall e He. apply Hall. right. exact He.
      * intros Hok e. specialize (IHval Hok e). destruct IHval as [Hin Hout].
        split.
        -- intros [<- | He].
           ++ rewrite Hout by exact Hnotin. exact Hat.
           ++ rewrite Hin by exact He. rewrite Hother; [reflexivity |].
              intros ->. contradiction.
        -- intros Hno. rewrite Hout by (intros He; apply Hno; right; exact He).
           apply Hother. intros ->. apply Hno. left. reflexivity.
Qed.

Lemma finite_seg_loop_spec (w : t) (B_avg : list double) (segs : list nat) :
  forall r, (numWellEq <= length r)%nat ->
  let res := finite_seg_loop w B_avg segs r in
  length res.2 = length r
  /\ (res.1 = true <->
      forall seg e, In seg segs -> (e < numWellEq)%nat ->
                    isfinite (finite_residual w B_avg seg e) = true)
  /\ (res.1 = true ->
      forall e, ((e < numWellEq)%nat ->
                 dget res.2 e = fold_left (kept w B_avg e) segs (dget r e))
                /\ ((numWellEq <= e)%nat -> dget res.2 e = dget r e)).
Proof.
  induction segs as [| seg segs IH]; intros r Hlen; cbn zeta.
  - cbn. repeat split; try tauto.
  - cbn [finite_seg_loop fold_left].
    destruct (finite_eq_loop_spec w B_avg seg (seq 0 numWellEq)
                (NoDup_seq 0 numWellEq) r)
      as (Hl1 & Hok1 & Hval1).
    { intros e He. apply in_seq in He. lia. }
    destruct (finite_eq_loop w B_avg seg (seq 0 numWellEq) r) as [ok1 r1].
    cbn [fst snd] in *. destruct ok1.
    + destruct (IH r1) as (IHlen & IHok & IHval); [lia |].
      split; [lia |]. split.
      * rewrite IHok. split.
        -- intros Hall s e [<- | Hs] He; [| apply Hall; assumption].
           apply Hok1; [reflexivity | apply in_seq; lia].
        -- intros Hall s e Hs He. apply Hall; [right; exact Hs | exact He].
      * intros Hok e. destruct (IHval Hok e) as [Hin Hout].
        destruct (Hval1 eq_refl e) as [Hin1 Hout1]. split.
        -- intros He. rewrite Hin by exact He. rewrite Hin1; [reflexivity |].
           apply in_seq. lia.
        -- intros He. rewrite Hout by exact He. apply Hout1.
           rewrite in_seq. lia.
    + split; [exact Hl1 |]. split; [| discriminate].
      split; [discriminate |]. intros Hall. apply Hok1.
      intros e He. apply Hall; [left; reflexivity | apply in_seq in He; lia].
Qed.


Lemma kept_is_maximum (w : t) (B_avg : list double) (e : nat) (segs : list nat) :
  let r := fold_left (kept w B_avg e) segs (Fin 0) in
  (forall seg, In seg segs -> gt (finite_residual w B_avg seg e) r = false)
  /\ (r = Fin 0 \/ exists seg, In seg segs /\ finite_residual w B_avg seg e = r).
Proof.
  cbn zeta.
  destruct (fold_maximum (fun seg => Some (finite_residual w B_avg seg e)) segs
              (Fin 0) eq_refl) as (_ & _ & Hall & Hwhere).
  cbn beta iota in Hall, Hwhere. fold (kept w B_avg e) in Hall, Hwhere.
  split.
  - intros seg Hseg. eapply Hall; [exact Hseg | reflexivity].
  - destruct Hwhere as [Hz | (seg & Hin & Hc)]; [left; exact Hz |].
    right. exists seg. split; [exact Hin | congruence].
Qed.

Lemma dget_replicate (n e : nat) : dget (replicate n (Fin 0)) e = Fin 0.
Proof.
  rewrite dget_lookup. destruct (replicate n (Fin 0) !! e) as [x |] eqn:E.
  - apply lookup_replicate in E. destruct E as [-> _]. reflexivity.
  - reflexivity.
Qed.

(** X19.  With as many averages as components, [getFiniteWellResiduals]
    returns a vector of [numWellEq + 1] entries, and it returns [true]
    exactly when every residual it looks at is finite: the residual of
    every equation of every segment, taken as the loop takes it, and the
    residual of the control equation.  Then every entry is finite, the
    entry of an equation is not below the residual of any segment and is
    zero or one of them, and the last entry is the control residual. *)
Theorem getFiniteWellResiduals_finite (w : t) (B_avg : list double) :
  length B_avg = numComponents w ->
  let control := abs (residual (linSys_ w) 0 (numWellEq - 1)) in
  exists ok r,
    getFiniteWellResiduals w B_avg = Ret (ok, r)
    /\ length r = (numWellEq + 1)%nat
    /\ (ok = true <->
        (forall seg e, (seg < numberOfSegments w)%nat -> (e < numWellEq)%nat ->
                       isfinite (finite_residual w B_avg seg e) = true)
        /\ isfinite control = true)
    /\ (ok = true ->
        Forall (fun x => isfinite x = true) r
        /\ dget r numWellEq = control
        /\ forall e, (e < numWellEq)%nat ->
             (forall seg, (seg < numberOfSegments w)%nat ->
                          gt (finite_residual w B_avg seg e) (dget r e) = false)
             /\ (dget r e = Fin 0
                 \/ exists seg, (seg < numberOfSegments w)%nat
                                /\ finite_residual w B_avg seg e = dget r e)).
Proof.
  intros HB control. unfold getFiniteWellResiduals, assert_.
  rewrite HB, Nat.eqb_refl. cbn [mbind outcome_bind mret outcome_ret].
  destruct (finite_seg_loop_spec w B_avg (seq 0 (numberOfSegments w))
              (replicate (numWellEq + 1) (Fin 0)))
    as (Hlen & Hok & Hval).
  { rewrite length_replicate. lia. }
  rewrite length_replicate in Hlen.
  assert (Hsegs : (forall seg e, In seg (seq 0 (numberOfSegments w)) ->
                                 (e < numWellEq)%nat ->
                                 isfinite (finite_residual w B_avg seg e) = true)
                  <-> (forall seg e, (seg < numberOfSegments w)%nat ->
                                     (e < numWellEq)%nat ->
                                     isfinite (finite_residual w B_avg seg e) = true)).
  { split; intros Hall seg e Hs He; apply Hall; try exact He.
    - apply in_seq. lia.
    - apply in_seq in Hs. lia. }
  rewrite Hsegs in Hok. clear Hsegs.
  destruct (finite_seg_loop w B_avg (seq 0 (numberOfSegments w))
              (replicate (numWellEq + 1) (Fin 0))) as [ok1 r1].
  cbn [fst snd] in *. destruct ok1; cbn [negb].
  - fold control.
    destruct (isnan control || isinf control) eqn:Ec.
    + eexists _, _. split; [reflexivity |]. split; [exact Hlen |].
      split; [| discriminate]. split; [discriminate |].
      intros [_ Hc]. unfold isfinite in Hc. rewrite Ec in Hc. discriminate.
    + eexists _, _. split; [reflexivity |].
      split; [rewrite length_insert; exact Hlen |].
      assert (Hall := proj1 Hok eq_refl).
      assert (Hc : isfinite control = true).
      { unfold isfinite. rewrite Ec. reflexivity. }
      split; [split; [intros _; split; assumption | reflexivity] |].
      intros _.
      assert (Hentries : forall e, (e < numWellEq)%nat ->
                dget (<[numWellEq := control]> r1) e
                = fold_left (kept w B_avg e) (seq 0 (numberOfSegments w)) (Fin 0)).
      { intros e He. rewrite dget_insert_ne by lia.
        rewrite (proj1 (Hval eq_refl e) He), dget_replicate. reflexivity. }
      assert (Hmax : forall e, (e < numWellEq)%nat ->
                (forall seg, (seg < numberOfSegments w)%nat ->
                   gt (finite_residual w B_avg seg e)
                      (dget (<[numWellEq := control]> r1) e) = false)
                /\ (dget (<[numWellEq := control]> r1) e = Fin 0
                    \/ exists seg, (seg < numberOfSegments w)%nat
                         /\ finite_residual w B_avg seg e
                            = dget (<[numWellEq := control]> r1) e)).
      { intros e He. rewrite (Hentries e He).
        destruct (kept_is_maximum w B_avg e (seq 0 (numberOfSegments w)))
          as [Hge Hwhere].
        split.
        - intros seg Hs. apply Hge. apply in_seq. lia.
        - destruct Hwhere as [Hz | (seg & Hin & Hs)]; [left; exact Hz |].
          right. exists seg. split; [apply in_seq in Hin; lia | exact Hs]. }
      assert (Hlast : dget (<[numWellEq := control]> r1) numWellEq = control).
      { apply dget_insert_eq. lia. }
      split; [| split; [exact Hlast | exact Hmax]].
      apply Forall_lookup_2. intros i x Hi.
      assert (Hx : x = dget (<[numWellEq := control]> r1) i).
      { rewrite dget_lookup, Hi. reflexivity. }
      apply lookup_lt_Some in Hi. rewrite length_insert, Hlen in Hi.
      destruct (decide (i = numWellEq)) as [-> | Hne].
      * rewrite Hx, Hlast. exact Hc.
      * assert (Hlt : (i < numWellEq)%nat) by lia.
        destruct (Hmax i Hlt) as [_ [Hz | (seg & Hs & Hr)]].
        -- rewrite Hx, Hz. reflexivity.
        -- rewrite Hx, <- Hr. apply Hall; assumption.
  - eexists _, _. split; [reflexivity |]. split; [exact Hlen |].
    split; [| discriminate]. split; [discriminate |].
    intros [Hall _]. apply Hok. exact Hall.
Qed.


(** *** The maxima of the two functions *)

Lemma same_value_refl (a : double) : same_value a a.
Proof. destruct a as [| s | q]; cbn; [exact I | reflexivity | reflexivity]. Qed.

Lemma Qltb_same (x x' y y' : Q) : x == x' -> y == y' -> Qltb x y = Qltb x' y'.
Proof.
  intros Hx Hy. destruct (Qltb x' y') eqn:E.
  - apply Qltb_lt in E. apply Qltb_lt. lra.
  - apply Qltb_ge in E. apply Qltb_ge. lra.
Qed.

Lemma finite_or_inf_same (x y : Q) :
  x == y -> same_value (finite_or_inf x) (finite_or_inf y).
Proof.
  intros Hxy. unfold finite_or_inf.
  assert (Habs : Qabs x == Qabs y) by (rewrite Hxy; reflexivity).
  destruct (Qle_bool overflow_threshold (Qabs x)) eqn:Ex,
           (Qle_bool overflow_threshold (Qabs y)) eqn:Ey.
  - cbn [same_value]. apply Qltb_same; [exact Hxy | reflexivity].
  - apply Qle_bool_iff in Ex. rewrite Habs in Ex. apply Qle_bool_iff in Ex.
    congruence.
  - apply Qle_bool_iff in Ey. rewrite <- Habs in Ey. apply Qle_bool_iff in Ey.
    congruence.
  - cbn [same_value]. exact Hxy.
Qed.

Lemma mul_comm_same (a b : double) : same_value (mul a b) (mul b a).
Proof.
  destruct a as [| s | x], b as [| u | y]; cbn [mul same_value]; try exact I.
  - apply xorb_comm.
  - destruct (Qeq_bool y 0); cbn [same_value]; [exact I | reflexivity].
  - destruct (Qeq_bool x 0); cbn [same_value]; [exact I | reflexivity].
  - apply finite_or_inf_same. ring.
Qed.

Lemma gt_same (a a' b b' : double) :
  same_value a a' -> same_value b b' -> gt a b = gt a' b'.
Proof.
  destruct a as [| s | x], a' as [| s' | x'], b as [| u | y], b' as [| u' | y'];
    cbn; intros Ha Hb; try contradiction; subst; try reflexivity.
  apply Qltb_same; assumption.
Qed.

Lemma gt_zero_kept (x m : double) :
  gt x m = true -> gt (Fin 0) m = false -> gt (Fin 0) x = false.
Proof.
  destruct x as [| [|] | x], m as [| [|] | m]; cbn; intros Hx Hm;
    try reflexivity; try discriminate.
  apply Qltb_lt in Hx. apply Qltb_ge in Hm. apply Qltb_ge. lra.
Qed.

Lemma kept_agrees (w : t) (B_avg : list double) (eq_idx : nat) (segs : list nat) :
  forall m m', same_value m m' -> gt (Fin 0) m = false ->
  same_value
    (fold_left (kept w B_avg eq_idx) segs m)
    (fold_left
       (fun maximum seg =>
          if (eq_idx <? numComponents w)%nat then
            let flux_residual := mul (dget B_avg eq_idx) (abs_residual w seg eq_idx) in
            if gt flux_residual maximum then flux_residual else maximum
          else if (0 <? seg)%nat then
            let pressure_residual := abs_residual w seg eq_idx in
            if gt pressure_residual maximum then pressure_residual else maximum
          else maximum)
       segs m').
Proof.
  induction segs as [| seg segs IH]; intros m m' Hm Hpos; cbn [fold_left].
  - exact Hm.
  - apply IH.
    + unfold kept, finite_residual, abs_residual. cbn zeta.
      destruct (eq_idx <? numComponents w)%nat.
      * rewrite (gt_same _ (mul (dget B_avg eq_idx)
                              (abs (residual (linSys_ w) seg eq_idx))) m m')
          by (apply mul_comm_same || exact Hm).
        destruct (gt _ m'); [apply mul_comm_same | exact Hm].
      * destruct (0 <? seg)%nat.
        -- rewrite (gt_same _ (abs (residual (linSys_ w) seg eq_idx)) m m')
             by (apply same_value_refl || exact Hm).
           destruct (gt _ m'); [apply same_value_refl | exact Hm].
        -- rewrite Hpos. exact Hm.
    + unfold kept.
      destruct (gt (finite_residual w B_avg seg eq_idx) m) eqn:E; [| exact Hpos].
      eapply gt_zero_kept; eassumption.
Qed.

(** X20.  When [getFiniteWellResiduals] returns [true], the entry it
    returns for an equation is the maximum [getWellConvergence]
    classifies for that equation. *)
Theorem getFiniteWellResiduals_maxima (w : t) (B_avg r : list double) :
  getFiniteWellResiduals w B_avg = Ret (true, r) ->
  forall eq_idx, (eq_idx < numWellEq)%nat ->
    same_value (dget r eq_idx) (maximum_residual w B_avg eq_idx).
Proof.
  intros Hrun eq_idx He. unfold getFiniteWellResiduals in Hrun.
  destruct (assert_ _ _) as [[] | x]; [| discriminate].
  cbn [mbind outcome_bind mret outcome_ret] in Hrun.
  destruct (finite_seg_loop_spec w B_avg (seq 0 (numberOfSegments w))
              (replicate (numWellEq + 1) (Fin 0)))
    as (Hlen & _ & Hval).
  { rewrite length_replicate. lia. }
  destruct (finite_seg_loop w B_avg (seq 0 (numberOfSegments w))
              (replicate (numWellEq + 1) (Fin 0))) as [ok1 r1].
  cbn [fst snd] in *. destruct ok1; cbn [negb] in Hrun; [| discriminate].
  destruct (isnan _ || isinf _); [discriminate |].
  injection Hrun as <-.
  rewrite dget_insert_ne by lia.
  rewrite (proj1 (Hval eq_refl eq_idx) He), dget_replicate.
  unfold maximum_residual. apply kept_agrees; reflexivity.
Qed.

(** *** The severities of the report *)

(** X21.  No failure that [getWellConvergence] sets from the residuals
    has the severity [NotANumber]: a NaN never wins a comparison, so it
    never becomes a maximum. *)
Theorem getWellConvergence_never_not_a_number (w : t) (well_state : WellState)
    (B_avg : list double)
    (max_residual_allowed tolerance_wells relaxed_inner_tolerance_flow_ms_well
     tolerance_pressure_ms_wells relaxed_inner_tolerance_pressure_ms_well : double)
    (relax_tolerance : bool) :
  length B_avg = numComponents w ->
  exists report,
    getWellConvergence w well_state B_avg max_residual_allowed tolerance_wells
      relaxed_inner_tolerance_flow_ms_well tolerance_pressure_ms_wells
      relaxed_inner_tolerance_pressure_ms_well relax_tolerance
    = Ret (checkConvergenceControlEq (rest well_state)
             [tolerance_pressure_ms_wells; tolerance_pressure_ms_wells;
              tolerance_wells; tolerance_wells; max_residual_allowed]
             (abs (residual (linSys_ w) 0 SPres))
             report)
    /\ Forall (fun wf => CR.severity wf <> CR.NotANumber) report.
Proof.
  intros Hlen. eexists. split.
  - unfold getWellConvergence, assert_. rewrite Hlen, Nat.eqb_refl.
    cbn [mbind outcome_bind mret outcome_ret]. reflexivity.
  - unfold residual_failures. rewrite fold_failures. cbn [app].
    apply Forall_forall. intros wf Hwf.
    apply list_elem_of_omap in Hwf. destruct Hwf as (eq_idx & _ & Hset).
    unfold well_failure in Hset.
    rewrite (maximum_residual_not_nan w B_avg eq_idx) in Hset.
    destruct (eq_idx <? numComponents w)%nat;
      repeat match type of Hset with
             | (if ?b then _ else _) = _ => destruct b
             end;
      try discriminate; injection Hset as <-; cbn; discriminate.
Qed.


(** *** The measure of the residuals *)

Lemma finite_or_inf_above_one (q : Q) : 1 < q -> above_one (finite_or_inf q).
Proof.
  intros Hq. destruct (finite_or_inf_cases q) as [-> | ->].
  - right. exists q. split; [reflexivity | exact Hq].
  - left. f_equal. apply Qltb_ge. lra.
Qed.

Lemma div_above_one (r : double) (t : Q) :
  0 <= t -> gt r (Fin t) = true -> above_one (div r (Fin t)).
Proof.
  intros Ht Hgt. destruct r as [| [|] | x]; cbn [gt] in Hgt; try discriminate.
  - left. cbn [div xorb]. f_equal. apply Qltb_ge. exact Ht.
  - apply Qltb_lt in Hgt. cbn [div]. destruct (Qeq_bool t 0) eqn:E.
    + apply Qeq_bool_iff in E.
      destruct (Qeq_bool x 0) eqn:Ex.
      * apply Qeq_bool_iff in Ex. lra.
      * left. f_equal. apply Qltb_ge. lra.
    + apply finite_or_inf_above_one.
      assert (Hne : ~ t == 0).
      { intros Hz. apply Qeq_bool_iff in Hz. congruence. }
      apply Qlt_shift_div_l; lra.
Qed.

Lemma add_above_one (a b : double) :
  a = Fin 0 \/ above_one a -> above_one b -> above_one (add a b).
Proof.
  intros [-> | [-> | (x & -> & Hx)]] [-> | (y & -> & Hy)]; cbn [add eqb];
    try (left; reflexivity).
  - apply finite_or_inf_above_one. lra.
  - apply finite_or_inf_above_one. lra.
Qed.

Lemma measure_step_measured (r : double) (t : Q) (acc : double * nat) :
  0 <= t -> measured acc -> measured (measure_step r (Fin t) acc).
Proof.
  intros Ht Hacc. unfold measure_step. destruct (gt r (Fin t)) eqn:E; [| exact Hacc].
  right. cbn [fst snd]. split; [discriminate |].
  apply add_above_one; [| apply div_above_one; assumption].
  destruct Hacc as [[_ Hz] | [_ Ha]]; [left; exact Hz | right; exact Ha].
Qed.

Lemma measure_step_count (r tolerance : double) (acc : double * nat) :
  (measure_step r tolerance acc).2 <> 0%nat
  <-> acc.2 <> 0%nat \/ gt r tolerance = true.
Proof.
  unfold measure_step. destruct (gt r tolerance); cbn [snd].
  - split; [intros _; right; reflexivity | intros _; discriminate].
  - split; [intros Hc; left; exact Hc | intros [Hc | Hc]; [exact Hc | discriminate]].
Qed.

Lemma measure_loop_measured (residuals : list double) (t : Q) (eqs : list nat) :
  0 <= t -> forall acc, measured acc ->
  measured (fold_left (fun acc eq_idx =>
                         measure_step (dget residuals eq_idx) (Fin t) acc)
                      eqs acc).
Proof.
  intros Ht. induction eqs as [| e eqs IH]; intros acc Hacc; cbn [fold_left].
  - exact Hacc.
  - apply IH. apply measure_step_measured; assumption.
Qed.

Lemma measure_loop_count (residuals : list double) (tolerance : double)
    (eqs : list nat) :
  forall acc,
  (fold_left (fun acc eq_idx =>
                measure_step (dget residuals eq_idx) tolerance acc)
             eqs acc).2 <> 0%nat
  <-> acc.2 <> 0%nat
      \/ exists eq_idx, In eq_idx eqs /\ gt (dget residuals eq_idx) tolerance = true.
Proof.
  induction eqs as [| e eqs IH]; intros acc; cbn [fold_left].
  - split; [intros Hc; left; exact Hc | intros [Hc | (x & [] & _)]; exact Hc].
  - rewrite IH, measure_step_count. split.
    + intros [[Hc | Hg] | (x & Hx & Hg)].
      * left. exact Hc.
      * right. exists e. split; [left; reflexivity | exact Hg].
      * right. exists x. split; [right; exact Hx | exact Hg].
    + intros [Hc | (x & [<- | Hx] & Hg)].
      * left. left. exact Hc.
      * left. right. exact Hg.
      * right. exists x. split; assumption.
Qed.

Lemma getControlTolerance_values (ws : WellControl)
    (tolerance_wells tolerance_pressure_ms_wells control_tolerance : double) :
  getControlTolerance ws tolerance_wells tolerance_pressure_ms_wells
  = Ret control_tolerance ->
  control_tolerance = Fin 0 \/ control_tolerance = tolerance_wells
  \/ control_tolerance = tolerance_pressure_ms_wells.
Proof.
  unfold getControlTolerance.
  destruct (isInjector ws), (injection_cmode ws), (isProducer ws),
    (production_cmode ws); cbn; intros Hrun; try discriminate;
    injection Hrun as <-; auto.
Qed.

(** X22.  On a vector of [numWellEq + 1] residuals and with a control
    mode the switch knows, [getResidualMeasureValue] returns a value
    exactly when a residual is above its tolerance: one of the first
    [numWellEq - 1] above [tolerance_wells], the entry [SPres] above the
    pressure tolerance, or the entry after it above the control
    tolerance.  When none is, the assertion on the count fails. *)
Theorem getResidualMeasureValue_returns (ws : WellControl)
    (residuals : list double)
    (tolerance_wells tolerance_pressure_ms_wells control_tolerance : double) :
  length residuals = (numWellEq + 1)%nat ->
  getControlTolerance ws tolerance_wells tolerance_pressure_ms_wells
  = Ret control_tolerance ->
  let exceeded :=
    (exists eq_idx, (eq_idx < numWellEq - 1)%nat
                    /\ gt (dget residuals eq_idx) tolerance_wells = true)
    \/ gt (dget residuals SPres) tolerance_pressure_ms_wells = true
    \/ gt (dget residuals (SPres + 1)) control_tolerance = true in
  (exceeded ->
   exists v, getResidualMeasureValue ws residuals tolerance_wells
               tolerance_pressure_ms_wells = Ret v)
  /\ (~ exceeded ->
      getResidualMeasureValue ws residuals tolerance_wells
        tolerance_pressure_ms_wells
      = Raise (assertion_failed "count != 0")).
Proof.
  intros Hlen Hct exceeded. unfold getResidualMeasureValue, assert_.
  rewrite Hlen, Nat.eqb_refl. cbn [mbind outcome_bind mret outcome_ret].
  rewrite Hct. cbn [mbind outcome_bind mret outcome_ret].
  set (acc := measure_step _ control_tolerance _).
  assert (Hcount : acc.2 <> 0%nat <-> exceeded).
  { subst acc exceeded. rewrite !measure_step_count, measure_loop_count.
    cbn [snd]. split.
    - intros [[[Hc | (e & He & Hg)] | Hg] | Hg].
      + contradiction.
      + left. exists e. split; [apply in_seq in He; lia | exact Hg].
      + right. left. exact Hg.
      + right. right. exact Hg.
    - intros [(e & He & Hg) | [Hg | Hg]].
      + left. left. right. exists e. split; [apply in_seq; lia | exact Hg].
      + left. right. exact Hg.
      + right. exact Hg. }
  destruct (Nat.eqb_spec acc.2 0) as [Hz | Hnz]; cbn [negb].
  - split; [| reflexivity].
    intros Hex. apply Hcount in Hex. contradiction.
  - split; [intros _; eexists; reflexivity |].
    intros Hno. exfalso. apply Hno, Hcount, Hnz.
Qed.

(** X23.  With positive finite tolerances, a value that
    [getResidualMeasureValue] returns is above one: it is a sum of
    ratios of a residual to the tolerance it exceeds. *)
Theorem getResidualMeasureValue_above_one (ws : WellControl)
    (residuals : list double) (tolerance_wells tolerance_pressure_ms_wells : Q)
    (v : double) :
  0 < tolerance_wells -> 0 < tolerance_pressure_ms_wells ->
  getResidualMeasureValue ws residuals (Fin tolerance_wells)
    (Fin tolerance_pressure_ms_wells) = Ret v ->
  gt v (Fin 1) = true.
Proof.
  intros Hw Hp Hrun. unfold getResidualMeasureValue in Hrun.
  destruct (assert_ _ _) as [[] | x]; [| discriminate].
  cbn [mbind outcome_bind mret outcome_ret] in Hrun.
  destruct (getControlTolerance ws (Fin tolerance_wells)
              (Fin tolerance_pressure_ms_wells)) as [ct | x] eqn:Ect;
    [| discriminate].
  assert (Hc : exists c, ct = Fin c /\ 0 <= c).
  { apply getControlTolerance_values in Ect.
    destruct Ect as [-> | [-> | ->]]; eexists; (split; [reflexivity | lra]). }
  destruct Hc as (c & -> & Hc).
  cbn [mbind outcome_bind mret outcome_ret] in Hrun.
  match type of Hrun with
  | context [assert_ (negb (Nat.eqb (snd ?a) 0)) _] => set (acc := a) in *
  end.
  assert (Hm : measured acc).
  { subst acc. apply measure_step_measured; [exact Hc |].
    apply measure_step_measured; [lra |].
    apply measure_loop_measured; [lra |].
    left. split; reflexivity. }
  unfold assert_ in Hrun.
  destruct (Nat.eqb_spec acc.2 0) as [Hz | Hnz]; cbn [negb] in Hrun;
    [discriminate |].
  injection Hrun as <-.
  destruct Hm as [[Hz _] | [_ [-> | (q & -> & Hq)]]].
  - contradiction.
  - reflexivity.
  - cbn. apply Qltb_lt. exact Hq.
Qed.

End facts.

Import Examples.

(** Scenario: the well of the shut valve.  All its residuals are finite,
    and five entries come back. *)
Lemma getFiniteWellResiduals_finite_witness :
  exists r,
    getFiniteWellResiduals valve_well [Fin 1; Fin 1; Fin 1]
    = Ret (true, r)
    /\ length r = 5%nat
    /\ Forall (fun x => isfinite x = true) r.
Proof.
  destruct (getFiniteWellResiduals_finite valve_well
              [Fin 1; Fin 1; Fin 1] eq_refl)
    as (ok & r & Hrun & Hlen & _ & Hok).
  assert (Htrue : ok = true).
  { pose proof Hrun as Hc. vm_compute in Hc. congruence. }
  subst ok. exists r. split; [exact Hrun |]. split; [exact Hlen |].
  apply Hok. reflexivity.
Defined.

(** Scenario: the entry of the pressure equation is the maximum the
    convergence check classifies. *)
Lemma getFiniteWellResiduals_maxima_witness :
  same_value (dget residuals_high 3)
             (maximum_residual valve_well [Fin 1; Fin 1; Fin 1] 3).
Proof.
  apply (@getFiniteWellResiduals_maxima logged valve_well
           [Fin 1; Fin 1; Fin 1] residuals_high).
  - vm_compute. reflexivity.
  - vm_compute. lia.
Defined.

(** Scenario: a mass residual of segment 1 is NaN, and the report is
    empty. *)
Lemma getWellConvergence_never_not_a_number_witness :
  exists report,
    getWellConvergence nan_well valve_well_state
      [Fin 1; Fin 1; Fin 1]
      (Fin (10 ^ 7)) (Fin (1 # 10000)) (Fin (1 # 10)) (Fin 1000) (Fin 10000) false
    = Ret report
    /\ Forall (fun wf => CR.severity wf <> CR.NotANumber) report
    /\ report = [].
Proof.
  destruct (getWellConvergence_never_not_a_number nan_well
              valve_well_state [Fin 1; Fin 1; Fin 1]
              (Fin (10 ^ 7)) (Fin (1 # 10000)) (Fin (1 # 10)) (Fin 1000)
              (Fin 10000) false eq_refl) as (report & Hrun & Hall).
  exists report. split; [exact Hrun |]. split; [exact Hall |].
  vm_compute in Hrun. congruence.
Defined.

(** Scenario: a producer on an oil rate.  With the pressure residual
    [10^10] a value comes back; with all residuals zero the assertion
    fails. *)
Lemma getResidualMeasureValue_returns_witness :
  (exists v, @getResidualMeasureValue logged producer_on_rate
               residuals_high (Fin (1 # 10000)) (Fin 1000) = Ret v)
  /\ @getResidualMeasureValue logged producer_on_rate
       residuals_zero (Fin (1 # 10000)) (Fin 1000)
     = Raise (assertion_failed "count != 0").
Proof.
  split.
  - apply (@getResidualMeasureValue_returns logged producer_on_rate
             residuals_high (Fin (1 # 10000)) (Fin 1000) (Fin (1 # 10000))
             eq_refl eq_refl).
    right. left. reflexivity.
  - apply (@getResidualMeasureValue_returns logged producer_on_rate
             residuals_zero (Fin (1 # 10000)) (Fin 1000) (Fin (1 # 10000))
             eq_refl eq_refl).
    intros [(e & He & Hg) | [Hg | Hg]].
    + do 3 (destruct e as [| e]; [discriminate |]). vm_compute in He. lia.
    + discriminate.
    + discriminate.
Defined.

(** Scenario: the same producer; the measure of the pressure residual
    [10^10] against the tolerance 1000 is above one. *)
Lemma getResidualMeasureValue_above_one_witness :
  exists v,
    @getResidualMeasureValue logged producer_on_rate
      residuals_high (Fin (1 # 10000)) (Fin 1000) = Ret v
    /\ gt v (Fin 1) = true.
Proof.
  eexists. split; [vm_compute; reflexivity |].
  apply (@getResidualMeasureValue_above_one logged producer_on_rate
           residuals_high (1 # 10000) 1000); [lra | lra |].
  vm_compute. reflexivity.
Defined.

(** Scenario: the first mass residual of segment 1 is [10^200] and the
    average of that component is [10^200].  Their product is beyond the
    largest double: it is plus infinity, and the residuals are not
    finite. *)
Lemma getFiniteWellResiduals_overflow :
  mul (Fin (10 ^ 200)) (Fin (10 ^ 200)) = Inf false
  /\ exists r,
       getFiniteWellResiduals
         (@MultisegmentWellEval.mk logged "W1" 3 valve_segments
            (mkLogged (fun seg eq_idx =>
                         if Nat.eqb seg 1 && Nat.eqb eq_idx 0
                         then Fin (10 ^ 200) else Fin 0)
                      [])
            (fun seg var => Fin 5) (fun seg => Fin 200)
            (fun seg => Fin 7) (fun seg _ => Fin 8) (fun seg => Fin 9)
            (fun seg => seg))
         [Fin (10 ^ 200); Fin 1; Fin 1]
       = Ret (false, r).
Proof.
  split; [vm_compute; reflexivity |].
  eexists. vm_compute. reflexivity.
Qed.

End MultisegmentResidualFacts.

(** ** The pressure equation of a segment *)

Module MultisegmentPressureFacts.

Import IEEE MultisegmentWellEval Framed.

Lemma iget_nat_inv {A : Type} (a : list A) (i : nat) (x : A) :
  iget a (Z.of_nat i) = Ret x -> a !! i = Some x.
Proof.
  unfold iget. destruct (Z.ltb_spec (Z.of_nat i) 0); [lia |].
  rewrite Nat2Z.id. destruct (a !! i); [congruence | discriminate].
Qed.

Lemma iget_nat {A : Type} (a : list A) (i : nat) (x : A) :
  a !! i = Some x -> iget a (Z.of_nat i) = Ret x.
Proof.
  intros Hi. unfold iget. destruct (Z.ltb_spec (Z.of_nat i) 0); [lia |].
  rewrite Nat2Z.id, Hi. reflexivity.
Qed.

Lemma iget_nat_Raise {A : Type} (a : list A) (i : nat) (e : exn) :
  iget a (Z.of_nat i) = Raise e -> e = invalid_access.
Proof.
  unfold iget. destruct (Z.ltb_spec (Z.of_nat i) 0); [lia |].
  destruct (a !! _); [discriminate | congruence].
Qed.

Lemma iset_nat_inv {A : Type} (a a' : list A) (i : nat) (x : A) :
  iset a (Z.of_nat i) x = Ret a' -> (i < length a)%nat /\ a' = <[i := x]> a.
Proof.
  unfold iset. destruct (Z.ltb_spec (Z.of_nat i) 0); [lia |].
  rewrite Nat2Z.id. destruct (decide (i < length a)%nat); [| discriminate].
  intros [= <-]. auto.
Qed.

Lemma iset_nat {A : Type} (a : list A) (i : nat) (x : A) :
  (i < length a)%nat -> iset a (Z.of_nat i) x = Ret (<[i := x]> a).
Proof.
  intros Hi. unfold iset. destruct (Z.ltb_spec (Z.of_nat i) 0); [lia |].
  rewrite Nat2Z.id. destruct (decide (i < length a)%nat); [reflexivity | lia].
Qed.

Lemma iset_nat_Raise {A : Type} (a : list A) (i : nat) (x : A) (e : exn) :
  iset a (Z.of_nat i) x = Raise e -> e = invalid_access.
Proof.
  unfold iset. destruct (Z.ltb_spec (Z.of_nat i) 0); [lia |].
  destruct (decide _); [discriminate | congruence].
Qed.

Lemma assert_passed (c : bool) (what : string) (u : unit) :
  assert_ c what = Ret u -> c = true.
Proof. unfold assert_. destruct c; [reflexivity | discriminate]. Qed.

Section facts.
Context `{PressureLossCollaborators}.

Lemma differ_at_refl (seg : nat) (ws : WellState) : differ_at seg ws ws.
Proof. unfold differ_at. repeat split; reflexivity. Qed.

Lemma differ_at_trans (seg : nat) (a b c : WellState) :
  differ_at seg a b -> differ_at seg b c -> differ_at seg a c.
Proof.
  intros (Hr1 & Hh1 & Hf1 & Ha1 & H1) (Hr2 & Hh2 & Hf2 & Ha2 & H2).
  unfold differ_at. repeat split; try congruence;
    destruct (H1 j) as (? & ? & ?); try assumption;
    destruct (H2 j) as (? & ? & ?); try assumption; congruence.
Qed.

Lemma set_pressure_drop_friction_inv (seg : nat) (v : double) (ws ws' : WellState) :
  set_pressure_drop_friction seg v ws = Ret ws' ->
  (seg < length (pressure_drop_friction (segments ws)))%nat
  /\ differ_at seg ws ws'.
Proof.
  unfold set_pressure_drop_friction. intros Hrun.
  apply bind_Ret_inv in Hrun. destruct Hrun as (f & Hf & Hrun).
  apply iset_nat_inv in Hf. destruct Hf as [Hlt ->].
  injection Hrun as <-. split; [exact Hlt |].
  unfold differ_at. cbn [segments rest pressure_drop_hydrostatic
                         pressure_drop_friction pressure_drop_accel].
  rewrite length_insert. repeat split.
  apply list_lookup_insert_ne. congruence.
Qed.

Lemma set_pressure_drop_hydrostatic_inv (seg : nat) (v : double)
    (ws ws' : WellState) :
  set_pressure_drop_hydrostatic seg v ws = Ret ws' ->
  (seg < length (pressure_drop_hydrostatic (segments ws)))%nat
  /\ differ_at seg ws ws'.
Proof.
  unfold set_pressure_drop_hydrostatic. intros Hrun.
  apply bind_Ret_inv in Hrun. destruct Hrun as (f & Hf & Hrun).
  apply iset_nat_inv in Hf. destruct Hf as [Hlt ->].
  injection Hrun as <-. split; [exact Hlt |].
  unfold differ_at. cbn [segments rest pressure_drop_hydrostatic
                         pressure_drop_friction pressure_drop_accel].
  rewrite length_insert. repeat split.
  apply list_lookup_insert_ne. congruence.
Qed.

Lemma set_pressure_drop_accel_inv (seg : nat) (v : double) (ws ws' : WellState) :
  set_pressure_drop_accel seg v ws = Ret ws' ->
  (seg < length (pressure_drop_accel (segments ws)))%nat
  /\ differ_at seg ws ws'.
Proof.
  unfold set_pressure_drop_accel. intros Hrun.
  apply bind_Ret_inv in Hrun. destruct Hrun as (f & Hf & Hrun).
  apply iset_nat_inv in Hf. destruct Hf as [Hlt ->].
  injection Hrun as <-. split; [exact Hlt |].
  unfold differ_at. cbn [segments rest pressure_drop_hydrostatic
                         pressure_drop_friction pressure_drop_accel].
  rewrite length_insert. repeat split.
  apply list_lookup_insert_ne. congruence.
Qed.

Lemma relinked_set (e : Equations) (w : t) : relinked w (set_linSys_ e w).
Proof. reflexivity. Qed.

Lemma relinked_trans (a b c : t) : relinked a b -> relinked b c -> relinked a c.
Proof.
  unfold relinked. intros Hb Hc. rewrite Hc at 1. rewrite Hb. reflexivity.
Qed.

Lemma assembleICDPressureEq_frame (seg : nat) (unit_system : UnitSystem)
    (w w' : t) (ws ws' : WellState) :
  assembleICDPressureEq seg unit_system w ws = Ret (w', ws') ->
  seg <> 0%nat /\ relinked w w' /\ differ_at seg ws ws'.
Proof.
  unfold assembleICDPressureEq. intros Hrun.
  apply bind_Ret_inv in Hrun. destruct Hrun as (u & Hassert & Hrun).
  apply assert_passed in Hassert.
  apply bind_Ret_inv in Hrun. destruct Hrun as (segment & Hseg & Hrun).
  split.
  { intros ->. discriminate. }
  destruct (_ && _).
  - apply bind_Ret_inv in Hrun. destruct Hrun as (ws1 & Hset & Hrun).
    injection Hrun as <- <-.
    apply set_pressure_drop_friction_inv in Hset.
    split; [apply relinked_set | apply Hset].
  - apply bind_Ret_inv in Hrun. destruct Hrun as (drop & Hdrop & Hrun).
    apply bind_Ret_inv in Hrun. destruct Hrun as (ws1 & Hset & Hrun).
    injection Hrun as <- <-.
    apply set_pressure_drop_friction_inv in Hset.
    split; [apply relinked_set | apply Hset].
Qed.

Lemma handleAccelerationPressureLoss_frame (seg : nat) (fl : SegmentFlow)
    (w w' : t) (ws ws' : WellState) :
  handleAccelerationPressureLoss seg fl w ws = Ret (w', ws') ->
  relinked w w' /\ differ_at seg ws ws'.
Proof.
  unfold handleAccelerationPressureLoss. intros Hrun.
  apply bind_Ret_inv in Hrun. destruct Hrun as (segment & Hseg & Hrun).
  apply bind_Ret_inv in Hrun. destruct Hrun as (loss & Hloss & Hrun).
  apply bind_Ret_inv in Hrun. destruct Hrun as (ws1 & Hset & Hrun).
  injection Hrun as <- <-.
  apply set_pressure_drop_accel_inv in Hset.
  split; [apply relinked_set | apply Hset].
Qed.

Lemma assembleDefaultPressureEq_frame (seg : nat) (fl : SegmentFlow)
    (w w' : t) (ws ws' : WellState) :
  assembleDefaultPressureEq seg fl w ws = Ret (w', ws') ->
  seg <> 0%nat /\ relinked w w' /\ differ_at seg ws ws'.
Proof.
  unfold assembleDefaultPressureEq. intros Hrun.
  apply bind_Ret_inv in Hrun. destruct Hrun as (u & Hassert & Hrun).
  apply assert_passed in Hassert.
  split.
  { intros ->. discriminate. }
  apply bind_Ret_inv in Hrun. destruct Hrun as (ws1 & Hhydro & Hrun).
  apply set_pressure_drop_hydrostatic_inv in Hhydro. destruct Hhydro as [_ Hd1].
  apply bind_Ret_inv in Hrun. destruct Hrun as ([pe ws2] & Hfric & Hrun).
  assert (Hd2 : differ_at seg ws1 ws2).
  { destruct (frictionalPressureLossConsidered fl).
    - apply bind_Ret_inv in Hfric. destruct Hfric as (ws3 & Hset & Hfric).
      injection Hfric as _ <-.
      apply set_pressure_drop_friction_inv in Hset. apply Hset.
    - injection Hfric as _ <-. apply differ_at_refl. }
  apply bind_Ret_inv in Hrun. destruct Hrun as (segment & Hseg & Hrun).
  cbn [fst snd] in Hrun.
  destruct (accelerationalPressureLossConsidered fl).
  - apply handleAccelerationPressureLoss_frame in Hrun.
    destruct Hrun as [Hw Hd3]. split.
    + eapply relinked_trans; [apply relinked_set | exact Hw].
    + eapply differ_at_trans; [| exact Hd3].
      eapply differ_at_trans; eassumption.
  - injection Hrun as <- <-. split; [apply relinked_set |].
    eapply differ_at_trans; eassumption.
Qed.

(** X24.  When the pressure equation of a segment has been assembled,
    the segment is not the top one and is a segment of the well; the
    evaluator is the one before with another linear system; and the
    state of the well differs at most in the pressure drops of that
    segment. *)
Theorem evalAssemblePressureEq_frame (seg : nat) (unit_system : UnitSystem)
    (fl : SegmentFlow) (w w' : t) (ws ws' : WellState) :
  evalAssemblePressureEq seg unit_system fl w ws = Ret (w', ws') ->
  seg <> 0%nat
  /\ (seg < numberOfSegments w)%nat
  /\ w' = set_linSys_ (linSys_ w') w
  /\ differ_at seg ws ws'.
Proof.
  unfold evalAssemblePressureEq. intros Hrun.
  apply bind_Ret_inv in Hrun. destruct Hrun as (segment & Hseg & Hrun).
  apply iget_nat_inv, lookup_lt_Some in Hseg.
  assert (Hframe : seg <> 0%nat /\ relinked w w' /\ differ_at seg ws ws').
  { destruct (Segment.segmentType segment).
    - eapply assembleDefaultPressureEq_frame; exact Hrun.
    - eapply assembleICDPressureEq_frame; exact Hrun.
    - eapply assembleICDPressureEq_frame; exact Hrun.
    - eapply assembleICDPressureEq_frame; exact Hrun. }
  destruct Hframe as (H0 & Hw & Hd).
  split; [exact H0 |]. split; [exact Hseg |]. split; [exact Hw | exact Hd].
Qed.


(** *** When the pressure equation is assembled, and how it fails *)

Lemma set_pressure_drop_friction_lt (seg : nat) (v : double) (ws : WellState) :
  (seg < length (pressure_drop_friction (segments ws)))%nat ->
  set_pressure_drop_friction seg v ws
  = Ret (mkWellState
           (mkSegmentState (pressure_drop_hydrostatic (segments ws))
              (<[seg := v]> (pressure_drop_friction (segments ws)))
              (pressure_drop_accel (segments ws)))
           (rest ws)).
Proof.
  intros Hlt. unfold set_pressure_drop_friction. rewrite iset_nat by exact Hlt.
  reflexivity.
Qed.

Lemma set_pressure_drop_hydrostatic_lt (seg : nat) (v : double) (ws : WellState) :
  (seg < length (pressure_drop_hydrostatic (segments ws)))%nat ->
  set_pressure_drop_hydrostatic seg v ws
  = Ret (mkWellState
           (mkSegmentState (<[seg := v]> (pressure_drop_hydrostatic (segments ws)))
              (pressure_drop_friction (segments ws))
              (pressure_drop_accel (segments ws)))
           (rest ws)).
Proof.
  intros Hlt. unfold set_pressure_drop_hydrostatic. rewrite iset_nat by exact Hlt.
  reflexivity.
Qed.

Lemma set_pressure_drop_accel_lt (seg : nat) (v : double) (ws : WellState) :
  (seg < length (pressure_drop_accel (segments ws)))%nat ->
  set_pressure_drop_accel seg v ws
  = Ret (mkWellState
           (mkSegmentState (pressure_drop_hydrostatic (segments ws))
              (pressure_drop_friction (segments ws))
              (<[seg := v]> (pressure_drop_accel (segments ws))))
           (rest ws)).
Proof.
  intros Hlt. unfold set_pressure_drop_accel. rewrite iset_nat by exact Hlt.
  reflexivity.
Qed.

Lemma inlet_loop_defined (fl : SegmentFlow) (w : t) (area : double)
    (inlets : list nat) :
  Forall (fun inlet => (inlet < numberOfSegments w)%nat) inlets ->
  forall loss, exists loss', inlet_loop fl w area inlets loss = Ret loss'.
Proof.
  induction 1 as [| inlet inlets Hlt _ IH]; intros loss; cbn [inlet_loop].
  - eexists. reflexivity.
  - apply lookup_lt_is_Some_2 in Hlt. destruct Hlt as [segment Hs].
    rewrite (iget_nat _ _ _ Hs). cbn [mbind outcome_bind]. apply IH.
Qed.

Lemma handleAccelerationPressureLoss_defined (seg : nat) (fl : SegmentFlow)
    (w : t) (ws : WellState) :
  (seg < numberOfSegments w)%nat ->
  (seg < length (pressure_drop_accel (segments ws)))%nat ->
  Forall (fun inlet => (inlet < numberOfSegments w)%nat) (inlets_ fl seg) ->
  exists w' ws', handleAccelerationPressureLoss seg fl w ws = Ret (w', ws').
Proof.
  intros Hseg Hacc Hin. unfold handleAccelerationPressureLoss.
  apply lookup_lt_is_Some_2 in Hseg. destruct Hseg as [segment Hs].
  rewrite (iget_nat _ _ _ Hs). cbn [mbind outcome_bind].
  destruct (inlet_loop_defined fl w (Segment.crossArea segment) _ Hin
              (velocityHead (Segment.crossArea segment) (mass_rates_ fl seg)
                 (if negb (Nat.eqb seg (upwinding_segments_ w seg))
                  then clearDerivatives (densities_ fl (upwinding_segments_ w seg))
                  else densities_ fl (upwinding_segments_ w seg))))
    as [loss Hloss].
  rewrite Hloss. cbn [mbind outcome_bind].
  rewrite set_pressure_drop_accel_lt by exact Hacc.
  cbn [mbind outcome_bind mret outcome_ret]. eexists _, _. reflexivity.
Qed.

(** X25.  For a segment of the well other than the top one whose three
    pressure drops are kept in the state and whose inlets are segments
    of the well, the pressure equation is assembled, whatever the type
    of the segment. *)
Theorem evalAssemblePressureEq_defined (seg : nat) (unit_system : UnitSystem)
    (fl : SegmentFlow) (w : t) (ws : WellState) :
  seg <> 0%nat ->
  (seg < numberOfSegments w)%nat ->
  (seg < length (pressure_drop_hydrostatic (segments ws)))%nat ->
  (seg < length (pressure_drop_friction (segments ws)))%nat ->
  (seg < length (pressure_drop_accel (segments ws)))%nat ->
  Forall (fun inlet => (inlet < numberOfSegments w)%nat) (inlets_ fl seg) ->
  exists w' ws', evalAssemblePressureEq seg unit_system fl w ws = Ret (w', ws').
Proof.
  intros H0 Hseg Hh Hf Ha Hin. unfold evalAssemblePressureEq.
  destruct (lookup_lt_is_Some_2 _ _ Hseg) as [segment Hs].
  rewrite (iget_nat _ _ _ Hs). cbn [mbind outcome_bind].
  assert (Hicd : Segment.segmentType segment <> Segment.REGULAR ->
            exists w' ws', assembleICDPressureEq seg unit_system w ws = Ret (w', ws')).
  { intros Htype. unfold assembleICDPressureEq, assert_.
    destruct (Nat.eqb_spec seg 0) as [| _]; [contradiction |].
    cbn [negb mbind outcome_bind]. rewrite (iget_nat _ _ _ Hs).
    cbn [mbind outcome_bind]. destruct (_ && _).
    - rewrite set_pressure_drop_friction_lt by exact Hf.
      cbn [mbind outcome_bind mret outcome_ret]. eexists _, _. reflexivity.
    - destruct (Segment.segmentType segment); [contradiction | | |];
        cbn [mbind outcome_bind];
        rewrite set_pressure_drop_friction_lt by exact Hf;
        cbn [mbind outcome_bind mret outcome_ret]; eexists _, _; reflexivity. }
  destruct (Segment.segmentType segment) eqn:Etype;
    try (apply Hicd; discriminate).
  clear Hicd. unfold assembleDefaultPressureEq, assert_.
  destruct (Nat.eqb_spec seg 0) as [| _]; [contradiction |].
  cbn [negb mbind outcome_bind].
  rewrite set_pressure_drop_hydrostatic_lt by exact Hh.
  cbn [mbind outcome_bind].
  destruct (frictionalPressureLossConsidered fl).
  - rewrite set_pressure_drop_friction_lt by exact Hf.
    cbn [mbind outcome_bind mret outcome_ret fst snd].
    rewrite (iget_nat _ _ _ Hs). cbn [mbind outcome_bind].
    destruct (accelerationalPressureLossConsidered fl).
    + apply handleAccelerationPressureLoss_defined;
        [exact Hseg | exact Ha | exact Hin].
    + eexists _, _. reflexivity.
  - cbn [mbind outcome_bind mret outcome_ret fst snd].
    rewrite (iget_nat _ _ _ Hs). cbn [mbind outcome_bind].
    destruct (accelerationalPressureLossConsidered fl).
    + apply handleAccelerationPressureLoss_defined;
        [exact Hseg | exact Ha | exact Hin].
    + eexists _, _. reflexivity.
Qed.

Lemma bind_Raise_inv {A B : Type} (c : outcome A) (f : A -> outcome B) (e : exn) :
  (c ≫= f) = Raise e -> c = Raise e \/ exists a, c = Ret a /\ f a = Raise e.
Proof.
  destruct c as [a | x]; cbn; intros Hc; [right; eauto | left; congruence].
Qed.

Lemma inlet_loop_Raise (fl : SegmentFlow) (w : t) (area : double)
    (inlets : list nat) (e : exn) :
  forall loss, inlet_loop fl w area inlets loss = Raise e -> e = invalid_access.
Proof.
  induction inlets as [| inlet inlets IH]; intros loss Hrun; cbn [inlet_loop] in Hrun.
  - discriminate.
  - apply bind_Raise_inv in Hrun. destruct Hrun as [Hg | (s & _ & Hrun)].
    + eapply iget_nat_Raise; exact Hg.
    + eapply IH; exact Hrun.
Qed.

Lemma set_pressure_drop_Raise (seg : nat) (v : double) (ws : WellState) (e : exn) :
  set_pressure_drop_hydrostatic seg v ws = Raise e
  \/ set_pressure_drop_friction seg v ws = Raise e
  \/ set_pressure_drop_accel seg v ws = Raise e ->
  e = invalid_access.
Proof.
  unfold set_pressure_drop_hydrostatic, set_pressure_drop_friction,
    set_pressure_drop_accel.
  intros [Hrun | [Hrun | Hrun]];
    apply bind_Raise_inv in Hrun;
    (destruct Hrun as [Hs | (a & _ & Hr)];
     [eapply iset_nat_Raise; exact Hs | discriminate]).
Qed.

Lemma handleAccelerationPressureLoss_Raise (seg : nat) (fl : SegmentFlow)
    (w : t) (ws : WellState) (e : exn) :
  handleAccelerationPressureLoss seg fl w ws = Raise e -> e = invalid_access.
Proof.
  unfold handleAccelerationPressureLoss. intros Hrun.
  apply bind_Raise_inv in Hrun. destruct Hrun as [Hg | (s & _ & Hrun)].
  { eapply iget_nat_Raise; exact Hg. }
  apply bind_Raise_inv in Hrun. destruct Hrun as [Hl | (loss & _ & Hrun)].
  { eapply inlet_loop_Raise; exact Hl. }
  apply bind_Raise_inv in Hrun. destruct Hrun as [Hs | (ws1 & _ & Hrun)].
  { eapply set_pressure_drop_Raise. right. right. exact Hs. }
  discriminate.
Qed.

(** X26.  The pressure equation of a segment fails in two ways only: on
    the assertion that the segment is not the top one, and on an access
    outside the segments or outside the pressure drops of the state.
    The error of a segment that is not of a device type is not raised
    through it. *)
Theorem evalAssemblePressureEq_errors (seg : nat) (unit_system : UnitSystem)
    (fl : SegmentFlow) (w : t) (ws : WellState) (e : exn) :
  evalAssemblePressureEq seg unit_system fl w ws = Raise e ->
  (e = assertion_failed "seg != 0" /\ seg = 0%nat) \/ e = invalid_access.
Proof.
  unfold evalAssemblePressureEq. intros Hrun.
  apply bind_Raise_inv in Hrun. destruct Hrun as [Hg | (segment & Hs & Hrun)].
  { right. eapply iget_nat_Raise; exact Hg. }
  assert (Hassert : forall k : unit -> outcome (t * WellState),
            (assert_ (negb (Nat.eqb seg 0)) "seg != 0" ≫= k) = Raise e ->
            (e = assertion_failed "seg != 0" /\ seg = 0%nat)
            \/ k tt = Raise e).
  { intros k Hk. unfold assert_ in Hk. destruct (Nat.eqb_spec seg 0) as [-> |].
    - left. cbn in Hk. split; [congruence | reflexivity].
    - right. exact Hk. }
  assert (Hicd : Segment.segmentType segment <> Segment.REGULAR ->
            assembleICDPressureEq seg unit_system w ws = Raise e ->
            (e = assertion_failed "seg != 0" /\ seg = 0%nat) \/ e = invalid_access).
  { intros Htype Hi. unfold assembleICDPressureEq in Hi.
    apply Hassert in Hi. destruct Hi as [Hi | Hi]; [left; exact Hi | right].
    rewrite Hs in Hi. cbn [mbind outcome_bind] in Hi.
    destruct (_ && _).
    - apply bind_Raise_inv in Hi. destruct Hi as [Hi | (a & _ & Hi)]; [| discriminate].
      eapply set_pressure_drop_Raise. right. left. exact Hi.
    - destruct (Segment.segmentType segment); [contradiction | | |];
        cbn [mbind outcome_bind] in Hi;
        apply bind_Raise_inv in Hi;
        (destruct Hi as [Hi | (a & _ & Hi)]; [| discriminate]);
        eapply set_pressure_drop_Raise; right; left; exact Hi. }
  destruct (Segment.segmentType segment) eqn:Etype;
    try (apply Hicd; [discriminate | exact Hrun]).
  clear Hicd. unfold assembleDefaultPressureEq in Hrun.
  apply Hassert in Hrun. destruct Hrun as [Hrun | Hrun]; [left; exact Hrun | right].
  apply bind_Raise_inv in Hrun. destruct Hrun as [Hh | (ws1 & _ & Hrun)].
  { eapply set_pressure_drop_Raise. left. exact Hh. }
  apply bind_Raise_inv in Hrun. destruct Hrun as [Hf | ([pe ws2] & _ & Hrun)].
  { destruct (frictionalPressureLossConsidered fl); [| discriminate].
    apply bind_Raise_inv in Hf. destruct Hf as [Hf | (a & _ & Hf)]; [| discriminate].
    eapply set_pressure_drop_Raise. right. left. exact Hf. }
  cbn [fst snd] in Hrun.
  apply bind_Raise_inv in Hrun. destruct Hrun as [Hg | (s & _ & Hrun)].
  { eapply iget_nat_Raise; exact Hg. }
  destruct (accelerationalPressureLossConsidered fl); [| discriminate].
  eapply handleAccelerationPressureLoss_Raise; exact Hrun.
Qed.

End facts.

Import Examples.

(** Scenario: segment 1 of the producing well, a regular segment.  Its
    equation is assembled; the hydrostatic drop of the segment becomes
    2 and its friction drop 3, and the drops of the other segments stay
    as they were. *)
Lemma evalAssemblePressureEq_frame_witness :
  exists w' ws',
    @evalAssemblePressureEq logged logged_loss 1 tt producing_flow valve_well
      valve_well_state = Ret (w', ws')
    /\ differ_at 1 valve_well_state ws'
    /\ pressure_drop_hydrostatic (segments ws') = [Fin 1; Fin 2; Fin 1; Fin 1]
    /\ pressure_drop_friction (segments ws') = [Fin 1; Fin 3; Fin 1; Fin 1].
Proof.
  destruct (@evalAssemblePressureEq logged logged_loss 1 tt producing_flow
              valve_well valve_well_state) as [[w' ws'] | e] eqn:E;
    [| vm_compute in E; discriminate].
  exists w', ws'. split; [reflexivity |]. split.
  - apply (@evalAssemblePressureEq_frame logged logged_loss 1 tt producing_flow
             valve_well w' valve_well_state ws' E).
  - vm_compute in E. injection E as _ <-. split; reflexivity.
Defined.

(** Scenario: every segment of the producing well but the top one. *)
Lemma evalAssemblePressureEq_defined_witness :
  exists w' ws',
    @evalAssemblePressureEq logged logged_loss 3 tt producing_flow valve_well
      valve_well_state = Ret (w', ws').
Proof.
  apply (@evalAssemblePressureEq_defined logged logged_loss 3 tt producing_flow
           valve_well valve_well_state); cbn; try lia.
  constructor.
Defined.

(** Scenario: the top segment of the producing well. *)
Lemma evalAssemblePressureEq_errors_witness :
  @evalAssemblePressureEq logged logged_loss 0 tt producing_flow valve_well
    valve_well_state = Raise (assertion_failed "seg != 0")
  /\ ((assertion_failed "seg != 0" = assertion_failed "seg != 0" /\ 0%nat = 0%nat)
      \/ assertion_failed "seg != 0" = invalid_access).
Proof.
  split; [reflexivity |].
  apply (@evalAssemblePressureEq_errors logged logged_loss 0 tt producing_flow
           valve_well valve_well_state).
  reflexivity.
Defined.

End MultisegmentPressureFacts.
